(** * Task lifecycle and transfer layer of the course-generation client

    A shallow embedding of the three client-side engines of the front end:

    - [Orchestrator]: the [useIsWorking] hook (start a remote job, poll its
      [is-working] flag, fire the completion callback);
    - [Download]: the [useDownloadProgress] hook (streamed binary fetch with
      progress and file-name resolution);
    - [Executor]: the [useApiWithRetry] hook (throttle, in-flight
      de-duplication, bounded retries and the debounced variants).

    JavaScript runs these hooks on a single-threaded event loop.  A hook is
    therefore modelled as a state record together with one transition per
    macrotask: a call made by the caller, a timer that fires, or a network
    reply that resumes an [await].  Each transition is a total function on the
    state; the event loop decides which transitions are enabled. *)

From stdpp Require Import gmap strings list pretty.
From Stdlib Require Import ZArith Lia Ascii.
From Stdlib.Strings Require Import Byte.

Local Open Scope string_scope.
Local Open Scope Z_scope.

(* ===================================================================== *)
(** * Part I.  Definitions                                                *)
(* ===================================================================== *)

(** ** JavaScript string primitives used by the hooks *)

Module Js.

(** [s.startsWith(p)] *)
Fixpoint startsWith (p s : string) : bool :=
  match p, s with
  | EmptyString, _ => true
  | String a p', String b s' => if Ascii.eqb a b then startsWith p' s' else false
  | String _ _, EmptyString => false
  end.

(** [s.substring(n)] for [0 <= n]: the suffix from index [n], empty when
    [n] is past the end. *)
Fixpoint substring (n : nat) (s : string) : string :=
  match n, s with
  | O, _ => s
  | S n', String _ s' => substring n' s'
  | S _, EmptyString => EmptyString
  end.

End Js.

(** ** The task orchestrator ([useIsWorking]) *)

Module Orchestrator.

(** The three timers the hook schedules: the one-second grace [setTimeout],
    the two-second [setInterval], and the five-minute safety [setTimeout]. *)
Inductive timer_kind := Grace | Interval | Safety.

Record timer := Timer { tm_id : nat; tm_due : Z; tm_kind : timer_kind }.

(** What the status endpoint answers to one [checkTaskStatus] request.
    [ReplyJson b] is a 2xx answer whose [data.is_working] is truthy ([true])
    or falsy ([false]); the other two make the [try] block throw. *)
Inductive status_reply :=
| ReplyJson (is_working : bool)
| ReplyHttpError (status : Z)
| ReplyNetworkError (msg : string).

(** What the start endpoint answers to the POST of [startTask]. *)
Inductive start_reply :=
| StartOk
| StartHttpError (status : Z) (errorText : string)
| StartNetworkError (msg : string).

(** The [Error] caught by [startTask]. *)
Inductive task_error :=
| ErrStartHttp (status : Z) (errorText : string)
| ErrThrown (msg : string).

(** What one invocation of the caller's [onComplete] does. *)
Inductive cb_result := CbReturns | CbThrows (msg : string).

(** Effects visible outside the hook, most recent first. *)
Inductive effect :=
| ConsoleLog (msg : string)
| ConsoleError (msg : string) (detail : string)
| ToastWarning (msg : string)
| ToastError (e : task_error)
| OnError (e : task_error)
| OnComplete
| Returned (b : bool)
| Uncaught (msg : string).

(** React state ([useState]), refs ([useRef]) and the host environment:
    the clock, the timer table, and the requests awaiting a reply. *)
Record orch := Orch {
  isWorking : bool;
  isLoading : bool;
  taskMessage : option string;
  error : option task_error;
  pollingIntervalRef : option nat;
  completionCallbackFiredRef : bool;
  isPollingRef : bool;
  now : Z;
  timers : list timer;
  next_timer : nat;
  status_requests : list nat;
  start_requests : list (nat * string);
  next_request : nat;
  completions : nat;
  trace : list effect }.

Definition set_isWorking (v : bool) (s : orch) : orch :=
  {| isWorking := v; isLoading := isLoading s; taskMessage := taskMessage s; error :=
     error s; pollingIntervalRef := pollingIntervalRef s; completionCallbackFiredRef :=
     completionCallbackFiredRef s; isPollingRef := isPollingRef s; now := now s; timers
     := timers s; next_timer := next_timer s; status_requests := status_requests s;
     start_requests := start_requests s; next_request := next_request s; completions :=
     completions s; trace := trace s |}.

Definition set_isLoading (v : bool) (s : orch) : orch :=
  {| isWorking := isWorking s; isLoading := v; taskMessage := taskMessage s; error :=
     error s; pollingIntervalRef := pollingIntervalRef s; completionCallbackFiredRef :=
     completionCallbackFiredRef s; isPollingRef := isPollingRef s; now := now s; timers
     := timers s; next_timer := next_timer s; status_requests := status_requests s;
     start_requests := start_requests s; next_request := next_request s; completions :=
     completions s; trace := trace s |}.

Definition set_taskMessage (v : option string) (s : orch) : orch :=
  {| isWorking := isWorking s; isLoading := isLoading s; taskMessage := v; error :=
     error s; pollingIntervalRef := pollingIntervalRef s; completionCallbackFiredRef :=
     completionCallbackFiredRef s; isPollingRef := isPollingRef s; now := now s; timers
     := timers s; next_timer := next_timer s; status_requests := status_requests s;
     start_requests := start_requests s; next_request := next_request s; completions :=
     completions s; trace := trace s |}.

Definition set_error (v : option task_error) (s : orch) : orch :=
  {| isWorking := isWorking s; isLoading := isLoading s; taskMessage := taskMessage s;
     error := v; pollingIntervalRef := pollingIntervalRef s; completionCallbackFiredRef
     := completionCallbackFiredRef s; isPollingRef := isPollingRef s; now := now s;
     timers := timers s; next_timer := next_timer s; status_requests := status_requests
     s; start_requests := start_requests s; next_request := next_request s; completions
     := completions s; trace := trace s |}.

Definition set_pollingIntervalRef (v : option nat) (s : orch) : orch :=
  {| isWorking := isWorking s; isLoading := isLoading s; taskMessage := taskMessage s;
     error := error s; pollingIntervalRef := v; completionCallbackFiredRef :=
     completionCallbackFiredRef s; isPollingRef := isPollingRef s; now := now s; timers
     := timers s; next_timer := next_timer s; status_requests := status_requests s;
     start_requests := start_requests s; next_request := next_request s; completions :=
     completions s; trace := trace s |}.

Definition set_completionCallbackFiredRef (v : bool) (s : orch) : orch :=
  {| isWorking := isWorking s; isLoading := isLoading s; taskMessage := taskMessage s;
     error := error s; pollingIntervalRef := pollingIntervalRef s;
     completionCallbackFiredRef := v; isPollingRef := isPollingRef s; now := now s;
     timers := timers s; next_timer := next_timer s; status_requests := status_requests
     s; start_requests := start_requests s; next_request := next_request s; completions
     := completions s; trace := trace s |}.

Definition set_isPollingRef (v : bool) (s : orch) : orch :=
  {| isWorking := isWorking s; isLoading := isLoading s; taskMessage := taskMessage s;
     error := error s; pollingIntervalRef := pollingIntervalRef s;
     completionCallbackFiredRef := completionCallbackFiredRef s; isPollingRef := v; now
     := now s; timers := timers s; next_timer := next_timer s; status_requests :=
     status_requests s; start_requests := start_requests s; next_request := next_request
     s; completions := completions s; trace := trace s |}.

Definition set_now (v : Z) (s : orch) : orch :=
  {| isWorking := isWorking s; isLoading := isLoading s; taskMessage := taskMessage s;
     error := error s; pollingIntervalRef := pollingIntervalRef s;
     completionCallbackFiredRef := completionCallbackFiredRef s; isPollingRef :=
     isPollingRef s; now := v; timers := timers s; next_timer := next_timer s;
     status_requests := status_requests s; start_requests := start_requests s;
     next_request := next_request s; completions := completions s; trace := trace s |}.

Definition set_timers (v : list timer) (s : orch) : orch :=
  {| isWorking := isWorking s; isLoading := isLoading s; taskMessage := taskMessage s;
     error := error s; pollingIntervalRef := pollingIntervalRef s;
     completionCallbackFiredRef := completionCallbackFiredRef s; isPollingRef :=
     isPollingRef s; now := now s; timers := v; next_timer := next_timer s;
     status_requests := status_requests s; start_requests := start_requests s;
     next_request := next_request s; completions := completions s; trace := trace s |}.

Definition set_next_timer (v : nat) (s : orch) : orch :=
  {| isWorking := isWorking s; isLoading := isLoading s; taskMessage := taskMessage s;
     error := error s; pollingIntervalRef := pollingIntervalRef s;
     completionCallbackFiredRef := completionCallbackFiredRef s; isPollingRef :=
     isPollingRef s; now := now s; timers := timers s; next_timer := v; status_requests
     := status_requests s; start_requests := start_requests s; next_request :=
     next_request s; completions := completions s; trace := trace s |}.

Definition set_status_requests (v : list nat) (s : orch) : orch :=
  {| isWorking := isWorking s; isLoading := isLoading s; taskMessage := taskMessage s;
     error := error s; pollingIntervalRef := pollingIntervalRef s;
     completionCallbackFiredRef := completionCallbackFiredRef s; isPollingRef :=
     isPollingRef s; now := now s; timers := timers s; next_timer := next_timer s;
     status_requests := v; start_requests := start_requests s; next_request :=
     next_request s; completions := completions s; trace := trace s |}.

Definition set_start_requests (v : list (nat * string)) (s : orch) : orch :=
  {| isWorking := isWorking s; isLoading := isLoading s; taskMessage := taskMessage s;
     error := error s; pollingIntervalRef := pollingIntervalRef s;
     completionCallbackFiredRef := completionCallbackFiredRef s; isPollingRef :=
     isPollingRef s; now := now s; timers := timers s; next_timer := next_timer s;
     status_requests := status_requests s; start_requests := v; next_request :=
     next_request s; completions := completions s; trace := trace s |}.

Definition set_next_request (v : nat) (s : orch) : orch :=
  {| isWorking := isWorking s; isLoading := isLoading s; taskMessage := taskMessage s;
     error := error s; pollingIntervalRef := pollingIntervalRef s;
     completionCallbackFiredRef := completionCallbackFiredRef s; isPollingRef :=
     isPollingRef s; now := now s; timers := timers s; next_timer := next_timer s;
     status_requests := status_requests s; start_requests := start_requests s;
     next_request := v; completions := completions s; trace := trace s |}.

Definition set_completions (v : nat) (s : orch) : orch :=
  {| isWorking := isWorking s; isLoading := isLoading s; taskMessage := taskMessage s;
     error := error s; pollingIntervalRef := pollingIntervalRef s;
     completionCallbackFiredRef := completionCallbackFiredRef s; isPollingRef :=
     isPollingRef s; now := now s; timers := timers s; next_timer := next_timer s;
     status_requests := status_requests s; start_requests := start_requests s;
     next_request := next_request s; completions := v; trace := trace s |}.

Definition set_trace (v : list effect) (s : orch) : orch :=
  {| isWorking := isWorking s; isLoading := isLoading s; taskMessage := taskMessage s;
     error := error s; pollingIntervalRef := pollingIntervalRef s;
     completionCallbackFiredRef := completionCallbackFiredRef s; isPollingRef :=
     isPollingRef s; now := now s; timers := timers s; next_timer := next_timer s;
     status_requests := status_requests s; start_requests := start_requests s;
     next_request := next_request s; completions := completions s; trace := v |}.

(** A statement either completes or throws.  The state written before the
    throw is kept, as mutations are in JavaScript. *)
Inductive outcome := Normal (s : orch) | Thrown (msg : string) (s : orch).

Definition andThen (o : outcome) (k : orch -> outcome) : outcome :=
  match o with
  | Normal s => k s
  | Thrown m s => Thrown m s
  end.

(** [try { body } catch (e) { handler e }] *)
Definition tryCatch (body : orch -> outcome) (handler : string -> orch -> outcome)
    (s : orch) : outcome :=
  match body s with
  | Normal s' => Normal s'
  | Thrown m s' => handler m s'
  end.

(** An exception that reaches the event loop is reported and dropped. *)
Definition settle (o : outcome) : orch :=
  match o with
  | Normal s => s
  | Thrown m s => set_trace (Uncaught m :: trace s) s
  end.

Definition emit (e : effect) (s : orch) : orch := set_trace (e :: trace s) s.

(** [setTimeout]/[setInterval]: the new timer gets the next free id (ids
    start at 1, so an id is always truthy) and is due [delay] ms from now. *)
Definition schedule (k : timer_kind) (delay : Z) (s : orch) : orch :=
  set_next_timer (S (next_timer s))
    (set_timers (timers s ++ [Timer (next_timer s) (now s + delay) k]) s).

(** [clearTimeout]/[clearInterval]: timeouts and intervals share one table. *)
Definition clearTimer (id : nat) (s : orch) : orch :=
  set_timers (List.filter (fun t => negb (Nat.eqb (tm_id t) id)) (timers s)) s.

(** An interval that has fired is due again one period later. *)
Definition rearm (id : nat) (period : Z) (s : orch) : orch :=
  set_timers
    (List.map (fun t => if Nat.eqb (tm_id t) id
                        then Timer (tm_id t) (now s + period) (tm_kind t) else t)
              (timers s)) s.

Definition POLL_GRACE_MS : Z := 1000.
Definition POLL_INTERVAL_MS : Z := 2000.
Definition SAFETY_TIMEOUT_MS : Z := 5 * 60 * 1000.

(** Observables the properties speak about. *)
Definition is_kind (k : timer_kind) (t : timer) : bool :=
  match k, tm_kind t with
  | Grace, Grace | Interval, Interval | Safety, Safety => true
  | _, _ => false
  end.

(** Polling loops that are running: the [setInterval] timers still armed. *)
Definition active_loops (s : orch) : nat :=
  length (List.filter (is_kind Interval) (timers s)).

Definition pending (k : timer_kind) (s : orch) : nat :=
  length (List.filter (is_kind k) (timers s)).

Section Hook.

(** The options of the hook.  [onComplete], when supplied, is described by
    what its k-th invocation does: return or throw.  It is assumed not to
    call back into the hook. *)
Variable onComplete : option (nat -> cb_result).
Variable onError : bool.

Definition cleanupPolling (s : orch) : orch :=
  let s := match pollingIntervalRef s with
           | Some id => set_pollingIntervalRef None (clearTimer id s)
           | None => s
           end in
  set_isPollingRef false s.

Definition call_onComplete (f : nat -> cb_result) (s : orch) : outcome :=
  let s' := emit OnComplete (set_completions (S (completions s)) s) in
  match f (completions s) with
  | CbReturns => Normal s'
  | CbThrows m => Thrown m s'
  end.

Definition executeCompletionCallback (s : orch) : outcome :=
  match onComplete with
  | Some f =>
      if negb (completionCallbackFiredRef s) then
        tryCatch (call_onComplete f)
          (fun m s => Normal (emit (ConsoleError "Error en callback de finalización:" m) s))
          (set_completionCallbackFiredRef true s)
      else Normal s
  | None => Normal s
  end.

(** The state [executeCompletionCallback] leaves behind. *)
Definition after_callback (s : orch) : orch :=
  match onComplete with
  | Some f =>
      if completionCallbackFiredRef s then s
      else
        let s1 := emit OnComplete
                    (set_completions (S (completions s))
                       (set_completionCallbackFiredRef true s)) in
        match f (completions s) with
        | CbReturns => s1
        | CbThrows m => emit (ConsoleError "Error en callback de finalización:" m) s1
        end
  | None => s
  end.

Definition startPolling (s : orch) : orch :=
  if isPollingRef s then
    emit (ConsoleLog "Ya hay un polling en curso, no iniciando otro") s
  else
    let s := set_isWorking true s in
    let s := set_isLoading true s in
    let s := set_isPollingRef true s in
    let s := set_completionCallbackFiredRef false s in
    schedule Grace POLL_GRACE_MS s.

(** [checkTaskStatus] up to its first [await]: the GET on
    [/api/courses/<courseId>/is-working] is sent. *)
Definition checkTaskStatus_send (s : orch) : orch :=
  set_next_request (S (next_request s))
    (set_status_requests (status_requests s ++ [next_request s]) s).

(** [checkTaskStatus] from the reply on. *)
Definition checkTaskStatus_resume (r : status_reply) (s : orch) : outcome :=
  tryCatch
    (fun s =>
       match r with
       | ReplyHttpError st => Thrown ("Error HTTP: " +:+ pretty st) s
       | ReplyNetworkError m => Thrown m s
       | ReplyJson stillWorking =>
           if negb stillWorking then
             let s := emit (ConsoleLog "Tarea completada") s in
             let s := set_isWorking false s in
             let s := set_isLoading false s in
             let s := cleanupPolling s in
             executeCompletionCallback s
           else Normal s
       end)
    (fun m s => Normal (emit (ConsoleError "Error verificando estado de tarea:" m) s))
    s.

(** The body of the grace [setTimeout]. *)
Definition grace_callback (s : orch) : orch :=
  let s := checkTaskStatus_send s in
  let id := next_timer s in
  let s := schedule Interval POLL_INTERVAL_MS s in
  let s := set_pollingIntervalRef (Some id) s in
  schedule Safety SAFETY_TIMEOUT_MS s.

(** The body of the safety [setTimeout]. *)
Definition safety_callback (s : orch) : outcome :=
  if isPollingRef s then
    let s := emit (ConsoleLog
               "Timeout de seguridad alcanzado (5 minutos), forzando finalización") s in
    let s := set_isWorking false s in
    let s := set_isLoading false s in
    let s := cleanupPolling s in
    andThen (executeCompletionCallback s)
      (fun s => Normal (emit (ToastWarning
                  "La tarea ha excedido el tiempo máximo y se ha detenido") s))
  else Normal s.

(** [startTask] up to its [await fetch]; the request body is not modelled. *)
Definition startTask_call (url message : string) (s : orch) : orch :=
  let s := cleanupPolling s in
  let s := set_taskMessage (Some message) s in
  let s := set_isLoading true s in
  let s := set_error None s in
  let s := set_completionCallbackFiredRef false s in
  let apiUrl := if Js.startsWith "/api/" url then url
                else "/api" +:+ (if Js.startsWith "/" url then url else "/" +:+ url) in
  set_next_request (S (next_request s))
    (set_start_requests (start_requests s ++ [(next_request s, apiUrl)]) s).

Definition startTask_failed (e : task_error) (s : orch) : orch :=
  let s := emit (ConsoleError "Error iniciando tarea:" "") s in
  let s := set_isLoading false s in
  let s := set_isWorking false s in
  let s := set_error (Some e) s in
  let s := emit (ToastError e) s in
  let s := if onError then emit (OnError e) s else s in
  emit (Returned false) s.

(** [startTask] from the reply to the POST on. *)
Definition startTask_resume (r : start_reply) (s : orch) : orch :=
  match r with
  | StartOk =>
      let s := emit (ConsoleLog "Tarea iniciada correctamente") s in
      let s := startPolling s in
      emit (Returned true) s
  | StartHttpError st txt => startTask_failed (ErrStartHttp st txt) s
  | StartNetworkError m => startTask_failed (ErrThrown m) s
  end.

Definition resetState (s : orch) : orch :=
  let s := cleanupPolling s in
  let s := set_isWorking false s in
  let s := set_isLoading false s in
  let s := set_error None s in
  set_completionCallbackFiredRef false s.

(** *** The event loop *)

Inductive event :=
| Advance (dt : Z)
| Fire (id : nat)
| StatusReply (req : nat) (r : status_reply)
| StartReply (req : nat) (r : start_reply)
| CallStartTask (url message : string)
| CallStartPolling
| CallStopPolling
| CallResetState
| Unmount.

(** Timers run in order of due time, and of creation among equals. *)
Definition runs_first (t : timer) (s : orch) : bool :=
  forallb (fun u => (tm_due t <? tm_due u)
                    || ((tm_due t =? tm_due u) && (tm_id t <=? tm_id u)%nat))
          (timers s).

Definition fire (id : nat) (s : orch) : option outcome :=
  match List.find (fun t => Nat.eqb (tm_id t) id) (timers s) with
  | None => None
  | Some t =>
      if (tm_due t <=? now s) && runs_first t s then
        Some match tm_kind t with
             | Grace => Normal (grace_callback (clearTimer id s))
             | Safety => safety_callback (clearTimer id s)
             | Interval => Normal (checkTaskStatus_send (rearm id POLL_INTERVAL_MS s))
             end
      else None
  end.

Definition drop_status_request (req : nat) (s : orch) : orch :=
  set_status_requests
    (List.filter (fun q => negb (Nat.eqb q req)) (status_requests s)) s.

Definition drop_start_request (req : nat) (s : orch) : orch :=
  set_start_requests
    (List.filter (fun q => negb (Nat.eqb (fst q) req)) (start_requests s)) s.

(** One macrotask.  [None] means the event cannot happen in this state:
    time cannot pass a due timer, only the first due timer fires, and a
    reply needs its request. *)
Definition step (e : event) (s : orch) : option orch :=
  match e with
  | Advance dt =>
      if (0 <? dt) && forallb (fun t => now s + dt <=? tm_due t) (timers s)
      then Some (set_now (now s + dt) s) else None
  | Fire id =>
      match fire id s with
      | Some o => Some (settle o)
      | None => None
      end
  | StatusReply req r =>
      if existsb (Nat.eqb req) (status_requests s)
      then Some (settle (checkTaskStatus_resume r (drop_status_request req s)))
      else None
  | StartReply req r =>
      if existsb (fun q => Nat.eqb (fst q) req) (start_requests s)
      then Some (startTask_resume r (drop_start_request req s))
      else None
  | CallStartTask url message => Some (startTask_call url message s)
  | CallStartPolling => Some (startPolling s)
  | CallStopPolling => Some (cleanupPolling s)
  | CallResetState => Some (resetState s)
  | Unmount => Some (cleanupPolling s)
  end.

Fixpoint run (evs : list event) (s : orch) : option orch :=
  match evs with
  | [] => Some s
  | e :: evs' =>
      match step e s with
      | Some s' => run evs' s'
      | None => None
      end
  end.

End Hook.

(** The hook as mounted at time [t0]. *)
(** Events that begin a cycle: the calls that reset the single-fire guard
    ([startTask], [resetState], and [startPolling], which an accepted start
    request calls). *)
Definition starts_cycle (e : event) : bool :=
  match e with
  | CallStartTask _ _ | CallStartPolling | CallResetState => true
  | StartReply _ StartOk => true
  | _ => false
  end.

(** Events that run [cleanupPolling] in state [s]: the calls that stop or
    restart, a reply that reports the task finished, and a safety timeout
    that finds the flag set. *)
Definition cleans_up (e : event) (s : orch) : bool :=
  match e with
  | CallStartTask _ _ | CallStopPolling | CallResetState | Unmount => true
  | StatusReply _ (ReplyJson false) => true
  | Fire id =>
      match List.find (fun t => Nat.eqb (tm_id t) id) (timers s) with
      | Some t => is_kind Safety t && isPollingRef s
      | None => false
      end
  | _ => false
  end.

(** A run is spaced when no cleanup happens while a grace-delay timer is
    pending. *)
Fixpoint spaced (onComplete : option (nat -> cb_result)) (onError : bool)
    (evs : list event) (s : orch) : bool :=
  match evs with
  | [] => true
  | e :: evs' =>
      negb (cleans_up e s && (0 <? pending Grace s)%nat)
      && match step onComplete onError e s with
         | Some s' => spaced onComplete onError evs' s'
         | None => true
         end
  end.

Definition init (t0 : Z) : orch :=
  {| isWorking := false; isLoading := false; taskMessage := None; error := None;
     pollingIntervalRef := None; completionCallbackFiredRef := false;
     isPollingRef := false; now := t0; timers := []; next_timer := 1;
     status_requests := []; start_requests := []; next_request := 0;
     completions := 0; trace := [] |}.

Definition outstanding (s : orch) : nat := length (status_requests s).

Definition is_uncaught (e : effect) : bool :=
  match e with
  | Uncaught _ => true
  | _ => false
  end.

(** Exceptions that escaped to the event loop. *)
Definition uncaught (s : orch) : nat :=
  length (List.filter is_uncaught (trace s)).

(** *** Invariants *)

(** What one macrotask may do to the guard and to the invocation count. *)
Definition guarded (s s' : orch) : Prop :=
  (completions s <= completions s' <= S (completions s))%nat
  /\ (completionCallbackFiredRef s = true ->
      completionCallbackFiredRef s' = true /\ completions s' = completions s)
  /\ (completions s' = S (completions s) -> completionCallbackFiredRef s' = true).

(** The timers of kind [k] in a timer table. *)
Definition count (k : timer_kind) (ts : list timer) : nat :=
  length (List.filter (is_kind k) ts).

(** Every armed interval is the registered one. *)
Definition registered (r : option nat) (ts : list timer) : Prop :=
  forall t, In t ts -> is_kind Interval t = true -> r = Some (tm_id t).

(** The invariant of a spaced run, on the three components it involves. *)
Definition one_loop (ts : list timer) (r : option nat) (polling : bool) : Prop :=
  (count Interval ts <= 1)%nat
  /\ registered r ts
  /\ (count Grace ts <= 1)%nat
  /\ ((0 < count Grace ts)%nat -> count Interval ts = 0%nat)
  /\ (polling = false -> count Grace ts = 0%nat /\ count Interval ts = 0%nat).

Definition one_loop_inv (s : orch) : Prop :=
  one_loop (timers s) (pollingIntervalRef s) (isPollingRef s).

(** *** Scenarios *)

(** [n] rounds of a healthy loop: every two seconds the interval [iv] fires
    and its request, numbered from [req], is answered "still working". *)
Fixpoint polling_rounds (iv req n : nat) : list event :=
  match n with
  | O => []
  | S n' =>
      [Advance 2000; Fire iv; StatusReply req (ReplyJson true)]
        ++ polling_rounds iv (S req) n'
  end.

(** The race at the safety bound, after [startPolling] at time 0.  The check
    sent at 299 s is answered "finished" at 301 s, the instant at which the
    safety timeout (timer 3) is due; the reply is handled first and the
    timeout fires right after it. *)
Definition race_trace : list event :=
  [Advance 1000; Fire 1; StatusReply 0 (ReplyJson true)]
    ++ polling_rounds 2 1 148
    ++ [Advance 2000; Fire 2; Advance 2000;
        StatusReply 149 (ReplyJson false); Fire 3].

(** A task that has finished by the first status check. *)
Definition quick_trace : list event :=
  [CallStartTask "courses/42/plan" "Generating plan"; StartReply 0 StartOk;
   Advance 1000; Fire 1; StatusReply 1 (ReplyJson false)].

(** A second task started half a second after the first, both accepted. *)
Definition double_start_trace : list event :=
  [CallStartTask "/courses/42/slides" "Generating slides"; StartReply 0 StartOk;
   Advance 500;
   CallStartTask "/courses/42/slides" "Generating slides"; StartReply 1 StartOk;
   Advance 500; Fire 1; Advance 500; Fire 2].

(** One loop whose first status check is still unanswered two seconds later. *)
Definition slow_reply_trace : list event :=
  [CallStartPolling; Advance 1000; Fire 1; Advance 2000; Fire 2].

(** Two tasks, the second started after the first loop's grace delay. *)
Definition spaced_trace : list event :=
  [CallStartTask "/courses/42/slides" "Generating slides"; StartReply 0 StartOk;
   Advance 1000; Fire 1; Advance 500;
   CallStartTask "/courses/42/plan" "Generating plan"; StartReply 2 StartOk;
   Advance 1000; Fire 4].

(** *** The life of one loop *)

(** The URL that [startTask] posts to: [url] itself when it is already
    under [/api/], otherwise [url] behind the prefix, with a slash put
    between them when [url] has none. *)
Definition apiUrl (url : string) : string :=
  if Js.startsWith "/api/" url then url
  else "/api" +:+ (if Js.startsWith "/" url then url else "/" +:+ url).

(** Events that are not made by the caller: time passing, a timer firing,
    a reply to a status check. *)
Definition quiet (e : event) : bool :=
  match e with
  | Advance _ | Fire _ | StatusReply _ _ => true
  | _ => false
  end.

(** The two events that run [startPolling]. *)
Definition starts_loop (e : event) : bool :=
  match e with
  | CallStartPolling | StartReply _ StartOk => true
  | _ => false
  end.

Definition finished (e : event) : bool :=
  match e with
  | StatusReply _ (ReplyJson false) => true
  | _ => false
  end.

(** A hook with nothing scheduled and nothing in flight. *)
Definition idle (s : orch) : Prop :=
  timers s = [] /\ isPollingRef s = false /\ pollingIntervalRef s = None
  /\ status_requests s = [].

(** The phases of the loop started at time [T] with grace timer [g], on a
    hook that had made [c0] completion calls: waiting for the grace delay,
    polling, ended by a reply before the safety bound, ended at or after the
    bound. *)
Definition waiting (T : Z) (g c0 : nat) (s : orch) : Prop :=
  timers s = [Timer g (T + 1000) Grace]
  /\ now s <= T + 1000
  /\ next_timer s = S g
  /\ status_requests s = []
  /\ isPollingRef s = true /\ pollingIntervalRef s = None
  /\ isWorking s = true /\ isLoading s = true
  /\ completions s = c0 /\ completionCallbackFiredRef s = false.

Definition polling (T : Z) (g c0 : nat) (s : orch) : Prop :=
  (exists d, timers s = [Timer (S g) d Interval; Timer (S (S g)) (T + 301000) Safety]
             /\ now s <= d)
  /\ now s <= T + 301000
  /\ isPollingRef s = true /\ pollingIntervalRef s = Some (S g)
  /\ isWorking s = true /\ isLoading s = true
  /\ completions s = c0 /\ completionCallbackFiredRef s = false.

Definition at_rest (has_callback : bool) (c0 : nat) (s : orch) : Prop :=
  isPollingRef s = false /\ pollingIntervalRef s = None
  /\ isWorking s = false /\ isLoading s = false
  /\ completions s = (c0 + if has_callback then 1 else 0)%nat
  /\ completionCallbackFiredRef s = has_callback.

Definition ended_early (has_callback : bool) (T : Z) (g c0 : nat) (s : orch) : Prop :=
  timers s = [Timer (S (S g)) (T + 301000) Safety]
  /\ now s <= T + 301000
  /\ at_rest has_callback c0 s.

Definition ended_late (has_callback : bool) (T : Z) (c0 : nat) (s : orch) : Prop :=
  timers s = [] /\ T + 301000 <= now s /\ at_rest has_callback c0 s.

Definition has_callback (onComplete : option (nat -> cb_result)) : bool :=
  match onComplete with
  | Some _ => true
  | None => false
  end.

Definition one_life (onComplete : option (nat -> cb_result)) (T : Z) (g c0 : nat)
    (s : orch) : Prop :=
  waiting T g c0 s \/ polling T g c0 s
  \/ ended_early (has_callback onComplete) T g c0 s
  \/ ended_late (has_callback onComplete) T c0 s.

(** A loop whose first two status checks fail. *)
Definition failing_checks_trace : list event :=
  [Advance 1000; Fire 1; StatusReply 0 (ReplyNetworkError "Failed to fetch");
   Advance 2000; Fire 2; StatusReply 1 (ReplyHttpError 502)].

(** A loop that learns at its first check that the task has finished. *)
Definition first_check_trace : list event :=
  [Advance 1000; Fire 1; StatusReply 0 (ReplyJson false)].

(** *** A whole start cycle *)

(** The calls the caller of the hook makes. *)
Definition by_caller (e : event) : bool :=
  match e with
  | CallStartTask _ _ | CallStartPolling | CallStopPolling | CallResetState
  | Unmount => true
  | _ => false
  end.

(** A first task whose loop has two status checks in flight when the first
    of them reports the task finished. *)
Definition first_task_trace : list event :=
  [CallStartTask "/courses/42/plan" "Generating plan"; StartReply 0 StartOk;
   Advance 1000; Fire 1; Advance 2000; Fire 2;
   StatusReply 1 (ReplyJson false)].

(** A second task, started while the other check of the first loop is
    still in flight: that check is answered before the start request is. *)
Definition second_task_trace : list event :=
  [CallStartTask "/courses/42/slides" "Generating slides";
   StatusReply 2 (ReplyJson false);
   StartReply 3 StartOk;
   Advance 1000; Fire 4; StatusReply 4 (ReplyJson false)].

End Orchestrator.

(** ** The streaming download manager ([useDownloadProgress]) *)

Module Download.

(** A JavaScript string is a sequence of UTF-16 code units.  Header values
    are byte strings, one code unit below 256 per byte, and are kept as
    [string]; file names, which [decodeURIComponent] may fill with any code
    unit, are lists of code units. *)
Definition code (a : ascii) : Z := Z.of_N (N_of_ascii a).

Fixpoint units (s : string) : list Z :=
  match s with
  | EmptyString => []
  | String a s' => code a :: units s'
  end.

(** *** [parseInt(s, 10)] *)

(** White space that [parseInt] skips and [\s] matches, among code units
    below 256: TAB, LF, VT, FF, CR, SP and NBSP. *)
Definition is_space (a : ascii) : bool :=
  let c := code a in ((9 <=? c) && (c <=? 13)) || (c =? 32) || (c =? 160).

Definition digit (a : ascii) : option Z :=
  let c := code a in if (48 <=? c) && (c <=? 57) then Some (c - 48) else None.

Fixpoint skip_spaces (s : string) : string :=
  match s with
  | String a s' => if is_space a then skip_spaces s' else s
  | EmptyString => s
  end.

(** The longest prefix of decimal digits, read with accumulator [acc];
    [seen] tells whether a digit has been read. *)
Fixpoint digits (s : string) (acc : Z) (seen : bool) : option Z :=
  match s with
  | String a s' =>
      match digit a with
      | Some d => digits s' (10 * acc + d) true
      | None => if seen then Some acc else None
      end
  | EmptyString => if seen then Some acc else None
  end.

(** [None] is [NaN].  Values are exact integers: the rounding of doubles
    above 2^53 is not modelled. *)
Definition parseInt10 (s : string) : option Z :=
  match skip_spaces s with
  | String "-" s' => Z.opp <$> digits s' 0 false
  | String "+" s' => digits s' 0 false
  | s' => digits s' 0 false
  end.

(** *** [decodeURIComponent] *)

Definition hex (a : ascii) : option Z :=
  let c := code a in
  if (48 <=? c) && (c <=? 57) then Some (c - 48)
  else if (65 <=? c) && (c <=? 70) then Some (c - 55)
  else if (97 <=? c) && (c <=? 102) then Some (c - 87)
  else None.

(** The input cut into literal code units and [%XX] escapes. *)
Inductive item := Lit (c : Z) | Esc (b : Z).

Fixpoint unescape (s : string) : option (list item) :=
  match s with
  | EmptyString => Some []
  | String "%" (String h (String l s')) =>
      match hex h, hex l, unescape s' with
      | Some x, Some y, Some r => Some (Esc (16 * x + y) :: r)
      | _, _, _ => None
      end
  | String "%" _ => None
  | String a s' =>
      match unescape s' with
      | Some r => Some (Lit (code a) :: r)
      | None => None
      end
  end.

Definition continuation (b : Z) : bool := (128 <=? b) && (b <=? 191).

(** The code point [v], read from [n] octets, is a Unicode scalar value in
    its shortest encoding. *)
Definition scalar (n v : Z) : bool :=
  match n with
  | 2 => 128 <=? v
  | 3 => (2048 <=? v) && negb ((55296 <=? v) && (v <=? 57343))
  | _ => (65536 <=? v) && (v <=? 1114111)
  end.

Definition utf16 (v : Z) : list Z :=
  if v <? 65536 then [v]
  else [55296 + (v - 65536) / 1024; 56320 + (v - 65536) mod 1024].

(** Escapes are read as UTF-8: one octet below 128, or a lead octet with
    its one, two or three continuation octets, all of them escapes. *)
Fixpoint utf8_items (l : list item) : option (list Z) :=
  match l with
  | [] => Some []
  | Lit c :: r => cons c <$> utf8_items r
  | Esc b :: r =>
      if b <? 128 then cons b <$> utf8_items r
      else if (192 <=? b) && (b <=? 223) then
        match r with
        | Esc b1 :: r1 =>
            let v := (b - 192) * 64 + (b1 - 128) in
            if continuation b1 && scalar 2 v
            then app (utf16 v) <$> utf8_items r1 else None
        | _ => None
        end
      else if (224 <=? b) && (b <=? 239) then
        match r with
        | Esc b1 :: Esc b2 :: r2 =>
            let v := (b - 224) * 4096 + (b1 - 128) * 64 + (b2 - 128) in
            if continuation b1 && continuation b2 && scalar 3 v
            then app (utf16 v) <$> utf8_items r2 else None
        | _ => None
        end
      else if (240 <=? b) && (b <=? 247) then
        match r with
        | Esc b1 :: Esc b2 :: Esc b3 :: r3 =>
            let v := (b - 240) * 262144 + (b1 - 128) * 4096
                     + (b2 - 128) * 64 + (b3 - 128) in
            if continuation b1 && continuation b2 && continuation b3 && scalar 4 v
            then app (utf16 v) <$> utf8_items r3 else None
        | _ => None
        end
      else None
  end.

(** [None] is a thrown [URIError]. *)
Definition decodeURIComponent (s : string) : option (list Z) :=
  match unescape s with
  | Some l => utf8_items l
  | None => None
  end.

(** *** The two regular expressions *)

(** ASCII letters compare without case under the [i] flag. *)
Definition fold_case (a : ascii) : Z :=
  let c := code a in if (65 <=? c) && (c <=? 90) then c + 32 else c.

(** [p] lower-case: the rest of [s] after a prefix equal to [p] up to case. *)
Fixpoint strip_prefix_ci (p s : string) : option string :=
  match p, s with
  | EmptyString, _ => Some s
  | String a p', String b s' =>
      if code a =? fold_case b then strip_prefix_ci p' s' else None
  | String _ _, EmptyString => None
  end.

Fixpoint take_while (f : ascii -> bool) (s : string) : string :=
  match s with
  | String a s' => if f a then String a (take_while f s') else EmptyString
  | EmptyString => EmptyString
  end.

Fixpoint drop_while (f : ascii -> bool) (s : string) : string :=
  match s with
  | String a s' => if f a then drop_while f s' else s
  | EmptyString => EmptyString
  end.

Definition is_quote (a : ascii) : bool := code a =? 34.

(** The one-character string holding a double quote. *)
Definition dquote : string := String (ascii_of_nat 34) EmptyString.

(** The class of the extended value: any code unit but a semicolon, a
    double quote or white space. *)
Definition ext_value_char (a : ascii) : bool :=
  negb ((code a =? 59) || is_quote a || is_space a).

(** The first group of the leftmost match of the first regular expression:
    [filename*=UTF-8''] up to case, then one or more (as many as possible)
    code units of the class above. *)
Fixpoint match_extended (h : string) : option string :=
  match h with
  | EmptyString => None
  | String _ h' =>
      match strip_prefix_ci "filename*=utf-8''" h with
      | Some rest =>
          match take_while ext_value_char rest with
          | EmptyString => match_extended h'
          | v => Some v
          end
      | None => match_extended h'
      end
  end.

(** The first group of the leftmost match of the second regular
    expression: [filename=] up to case, then a double quote, one or more
    code units other than a double quote, and a double quote. *)
Fixpoint match_quoted (h : string) : option string :=
  match h with
  | EmptyString => None
  | String _ h' =>
      match strip_prefix_ci ("filename=" +:+ dquote) h with
      | Some rest =>
          match take_while (fun a => negb (is_quote a)) rest,
                drop_while (fun a => negb (is_quote a)) rest with
          | String a v, String _ _ => Some (String a v)
          | _, _ => match_quoted h'
          end
      | None => match_quoted h'
      end
  end.

(** The file name: the block from [let filename = fallbackFilename] to the
    end of its [if]; a [URIError] is caught and leaves the fallback. *)
Definition resolveFilename (contentDisposition : option string)
    (fallbackFilename : list Z) : list Z :=
  match contentDisposition with
  | None | Some EmptyString => fallbackFilename
  | Some h =>
      match match_extended h with
      | Some v =>
          match decodeURIComponent v with
          | Some name => name
          | None => fallbackFilename
          end
      | None =>
          match match_quoted h with
          | Some name => units name
          | None => fallbackFilename
          end
      end
  end.

(** *** The transfer *)

(** One [reader.read()] that does not report [done]: it settles after
    [delay] ms with a chunk or with an error. *)
Inductive read_result := Chunk (value : list byte) | ReadFails (msg : string).

(** The response as the hook sees it.  [body] is [None] when
    [response.body] is null; otherwise it lists the reads before the one
    that reports [done]. *)
Record response := Response {
  ok : bool;
  status : Z;
  statusText : string;
  content_length : option string;
  content_type : option string;
  content_disposition : option string;
  body : option (list (Z * read_result)) }.

(** What [fetch] does: resolve with the response head after [delay] ms,
    reject after [delay] ms, or stay pending. *)
Inductive fetch_result :=
| Responds (delay : Z) (r : response)
| Rejects (delay : Z) (msg : string)
| Hangs.

Inductive dl_error :=
| Aborted
| FetchFailed (msg : string)
| HttpFailed (status : Z) (statusText : string)
| NoStream
| StreamFailed (msg : string)
| RangeError.

Record file := File { f_name : list Z; f_type : string; f_bytes : list byte }.

(** The transfer session: the clock (ms since the call), the abort timeout
    if it is still armed, and the accumulators of the read loop. *)
Record session := Session {
  clock : Z;
  abort_at : option Z;
  receivedLength : nat;
  chunks : list (list byte);
  emitted : list Z }.

Definition ABORT_TIMEOUT_MS : Z := 180000.

(** An awaited operation that needs [delay] ms, under the abort timeout:
    [inr] when it settles first, [inl] when the timeout fires first and
    [controller.abort()] rejects it. *)
Definition await (delay : Z) (t : session) : session + session :=
  let settled := Session (clock t + delay) (abort_at t) (receivedLength t)
                   (chunks t) (emitted t) in
  match abort_at t with
  | Some due =>
      if due <=? clock t + delay
      then inl (Session due None (receivedLength t) (chunks t) (emitted t))
      else inr settled
  | None => inr settled
  end.

Definition clearTimeout (t : session) : session :=
  Session (clock t) None (receivedLength t) (chunks t) (emitted t).

(** [Math.round((receivedLength / total) * 100)] for [0 < total], as the
    exact quotient rounded half up.  The doubles of the source give the same
    integer except possibly when the quotient is within rounding error of a
    half. *)
Definition percent (received total : Z) : Z :=
  (200 * received + total) / (2 * total).

(** [total > 0], false for [NaN]. *)
Definition known (total : option Z) : bool :=
  match total with
  | Some n => 0 <? n
  | None => false
  end.

(** The [while (true)] loop over [reader.read()]. *)
Fixpoint read_loop (total : option Z) (reads : list (Z * read_result))
    (t : session) : dl_error * session + session :=
  match reads with
  | [] => inr t
  | (delay, r) :: rest =>
      match await delay t with
      | inl t' => inl (Aborted, t')
      | inr t' =>
          match r with
          | ReadFails m => inl (StreamFailed m, t')
          | Chunk value =>
              let received := (receivedLength t' + length value)%nat in
              let progress :=
                match total with
                | Some n => if 0 <? n then [percent (Z.of_nat received) n] else []
                | None => []
                end in
              read_loop total rest
                (Session (clock t') (abort_at t') received
                   (chunks t' ++ [value]) (emitted t' ++ progress))
          end
      end
  end.

(** The session a loop ends with, normally or not. *)
Definition session_of (res : dl_error * session + session) : session :=
  match res with
  | inl (_, t) => t
  | inr t => t
  end.

(** [allChunks.set(chunk, position)]; [None] is the [RangeError] of a chunk
    that does not fit. *)
Definition Uint8Array_set (buf : list byte) (position : nat) (chunk : list byte)
    : option (list byte) :=
  if (position + length chunk <=? length buf)%nat
  then Some (take position buf ++ chunk ++ drop (position + length chunk) buf)%list
  else None.

Fixpoint copy_chunks (cs : list (list byte)) (position : nat) (buf : list byte)
    : option (list byte) :=
  match cs with
  | [] => Some buf
  | c :: cs' =>
      match Uint8Array_set buf position c with
      | Some buf' => copy_chunks cs' (position + length c)%nat buf'
      | None => None
      end
  end.

(** [new Uint8Array(receivedLength)] filled from the chunks. *)
Definition assemble (t : session) : option (list byte) :=
  copy_chunks (chunks t) 0 (replicate (receivedLength t) Byte.x00).

(** The URL that is fetched: absolute URLs as they are, the others through
    the API proxy with one [/api] prefix. *)
Definition resolveUrl (url : string) : string :=
  if Js.startsWith "http://" url || Js.startsWith "https://" url then url
  else
    let cleanPath := if Js.startsWith "/api/" url then Js.substring 4 url else url in
    "/api" +:+ (if Js.startsWith "/" cleanPath then cleanPath else "/" +:+ cleanPath).

(** [total]: the declared size, 0 when the header is absent or empty. *)
Definition declaredTotal (r : response) : option Z :=
  match content_length r with
  | None | Some EmptyString => Some 0
  | Some s => parseInt10 s
  end.

(** What one call leaves behind. *)
Record outcome := Outcome {
  returned : bool;
  requested : string;
  failure : option dl_error;
  delivered : option file;
  final : session }.

Definition failed (finalUrl : string) (e : dl_error) (t : session) : outcome :=
  Outcome false finalUrl (Some e) None t.

Definition downloadFileWithProgress (url : string) (fallbackFilename : list Z)
    (net : fetch_result) : outcome :=
  let finalUrl := resolveUrl url in
  let t := Session 0 (Some ABORT_TIMEOUT_MS) 0 [] [] in
  let fetched :=
    match net with
    | Responds delay r =>
        match await delay t with
        | inr t' => inr (r, t')
        | inl t' => inl (Aborted, t')
        end
    | Rejects delay m =>
        match await delay t with
        | inr t' => inl (FetchFailed m, t')
        | inl t' => inl (Aborted, t')
        end
    | Hangs => inl (Aborted, Session ABORT_TIMEOUT_MS None 0 [] [])
    end in
  match fetched with
  | inl (e, t) => failed finalUrl e t
  | inr (r, t) =>
      let t := clearTimeout t in
      if negb (ok r) then failed finalUrl (HttpFailed (status r) (statusText r)) t
      else
        let total := declaredTotal r in
        let filename := resolveFilename (content_disposition r) fallbackFilename in
        match body r with
        | None => failed finalUrl NoStream t
        | Some reads =>
            match read_loop total reads t with
            | inl (e, t) => failed finalUrl e t
            | inr t =>
                match assemble t with
                | None => failed finalUrl RangeError t
                | Some allChunks =>
                    let contentType :=
                      match content_type r with
                      | None | Some EmptyString => "application/octet-stream"
                      | Some ty => ty
                      end in
                    Outcome true finalUrl None
                      (Some (File filename contentType allChunks)) t
                end
            end
        end
  end.

(** The response head is late when [fetch] has not settled before the
    abort timeout is due. *)
Definition late (net : fetch_result) : bool :=
  match net with
  | Responds delay _ | Rejects delay _ => ABORT_TIMEOUT_MS <=? delay
  | Hangs => true
  end.

Definition with_disposition (cd : option string) (r : response) : response :=
  Response (ok r) (status r) (statusText r) (content_length r) (content_type r)
    cd (body r).

(** *** Scenarios *)

Definition quarter : list byte := replicate 250 Byte.x2a.

Definition pptx (length disposition : option string)
    (reads : list (Z * read_result)) : response :=
  Response true 200 "OK" length
    (Some "application/vnd.openxmlformats-officedocument.presentationml.presentation")
    disposition (Some reads).

(** 1000 declared bytes delivered in four equal parts. *)
Definition four_parts : fetch_result :=
  Responds 120 (pptx (Some "1000") None
    [(40, Chunk quarter); (40, Chunk quarter); (40, Chunk quarter); (40, Chunk quarter)]).

(** The same body without a [content-length] header. *)
Definition four_parts_unsized : fetch_result :=
  Responds 120 (pptx None None
    [(40, Chunk quarter); (40, Chunk quarter); (40, Chunk quarter); (40, Chunk quarter)]).

(** A body larger than the declared length, as when the length header
    counts the compressed bytes of a response that the stream delivers
    decompressed. *)
Definition oversized : fetch_result :=
  Responds 120 (pptx (Some "250") None [(40, Chunk quarter); (40, Chunk quarter)]).

(** The head arrives after 100 ms; the second chunk takes 200 s. *)
Definition stalled_body : fetch_result :=
  Responds 100 (pptx (Some "500") None [(50, Chunk quarter); (200000, Chunk quarter)]).

(** A body whose reads all deliver a chunk: each part is the time its read
    takes and the bytes it gives. *)
Definition chunk_reads (parts : list (Z * list byte)) : list (Z * read_result) :=
  List.map (fun p => (fst p, Chunk (snd p))) parts.

Definition total_delay (parts : list (Z * list byte)) : Z :=
  fold_right Z.add 0 (List.map fst parts).

(** [url] is absolute: [/^https?:\/\//.test(url)]. *)
Definition isAbsolute (url : string) : bool :=
  Js.startsWith "http://" url || Js.startsWith "https://" url.

Fixpoint nondecreasing (l : list Z) : bool :=
  match l with
  | a :: (b :: _) as l' => (a <=? b) && nondecreasing l'
  | _ => true
  end.

(** What the loop keeps of the percentages reported so far, for a positive
    declared size: they never decrease, and the last one is the percentage
    of the bytes received. *)
Definition progress_inv (n : Z) (t : session) : Prop :=
  nondecreasing (emitted t) = true
  /\ Forall (fun p => p <= percent (Z.of_nat (receivedLength t)) n) (emitted t)
  /\ (emitted t = [] /\ receivedLength t = 0%nat
      \/ last (emitted t) = Some (percent (Z.of_nat (receivedLength t)) n)).

(** *** What a header contains *)

Fixpoint chars (s : string) : list ascii :=
  match s with
  | EmptyString => []
  | String a s' => a :: chars s'
  end.

(** No code unit of [s] is [c]. *)
Definition lacks (c : Z) (s : string) : bool :=
  forallb (fun a => negb (code a =? c)) (chars s).

Definition all_chars (f : ascii -> bool) (s : string) : bool := forallb f (chars s).

(** The code units of [s] with ASCII capitals in lower case. *)
Definition folded (s : string) : list Z := List.map fold_case (chars s).

Definition STAR : Z := 42.
Definition QUOTE : Z := 34.
Definition PERCENT : Z := 37.

(** The extended value ends where [rest] begins: at the end of the header
    or at a semicolon, a double quote or white space. *)
Definition ends_value (rest : string) : bool :=
  match rest with
  | EmptyString => true
  | String a _ => negb (ext_value_char a)
  end.

(** The header has an extended parameter: somewhere in it, the parameter
    name up to case followed by at least one code unit of the value
    class. *)
Definition has_extended (h : string) : Prop :=
  exists pre q a tail,
    h = pre +:+ q +:+ String a tail
    /\ folded q = units "filename*=utf-8''"
    /\ ext_value_char a = true.

(** The header has a quoted plain parameter: somewhere in it, the parameter
    name up to case, a double quote, at least one code unit other than a
    double quote, and a double quote. *)
Definition has_quoted (h : string) : Prop :=
  exists pre q name rest,
    h = pre +:+ q +:+ name +:+ dquote +:+ rest
    /\ folded q = units ("filename=" +:+ dquote)
    /\ name <> EmptyString
    /\ lacks QUOTE name = true.

(** A header with both parameters, the extended one not decodable: its
    escape [%E9] opens a three-octet sequence that does not follow. *)
Definition undecodable_header : string :=
  "attachment; filename=" +:+ dquote +:+ "plan.pptx" +:+ dquote
  +:+ "; filename*=UTF-8''plan%E9.pptx".

(** The connection drops during the third read. *)
Definition broken_body : fetch_result :=
  Responds 120 (pptx (Some "1000") None
    (chunk_reads [(40, quarter); (40, quarter)]
     ++ [(15, ReadFails "network error"); (40, Chunk quarter)])%list).

(** The third read of four gives no bytes. *)
Definition uneven_parts : fetch_result :=
  Responds 120 (pptx (Some "1000") None
    (chunk_reads [(40, quarter); (40, (quarter ++ quarter)%list); (5, []); (40, quarter)])).

End Download.

(** ** The resilient request executor ([useApiWithRetry]) *)

Module Executor.

Inductive method := get | post | put | delete.

Definition method_name (m : method) : string :=
  match m with
  | get => "get"
  | post => "post"
  | put => "put"
  | delete => "delete"
  end.

(** The part of an [AxiosRequestConfig] that the hook touches. *)
Record config := Config { data : option string; settings : string }.

Record response := Response { status : Z; payload : string }.

(** What the underlying axios call does: resolve or reject. *)
Inductive net_result := NetOk (r : response) | NetError (msg : string).

(** An underlying call: when it was issued, and with what. *)
Record call := Call { c_at : Z; c_method : method; c_url : string; c_config : config }.

(** A pending debounce timeout and the promise its callback resolves. *)
Record timer := Timer {
  t_id : nat; t_due : Z;
  t_method : method; t_url : string; t_config : config;
  t_promise : nat }.

Inductive promise := Pending | Resolved (r : option response).

(** The refs and state of the hook, the clock ([Date.now()]), and what the
    outside sees: the underlying calls, the retry delays waited, the errors
    passed to [onError], the debounce timeouts, the promises handed out by
    the debounced methods and the requests their timeouts executed. *)
Record exec := Exec {
  now : Z;
  lastRequestTimes : gmap string Z;
  pendingRequests : gmap string bool;
  debounceTimers : gmap string nat;
  isLoading : bool;
  error : option string;
  calls : list call;
  waits : list Z;
  reported : list string;
  timers : list timer;
  next_timer : nat;
  promises : gmap nat promise;
  next_promise : nat;
  executions : list (method * string * config) }.

Definition set_now (v : Z) (s : exec) : exec :=
  {| now := v; lastRequestTimes := lastRequestTimes s; pendingRequests :=
     pendingRequests s; debounceTimers := debounceTimers s; isLoading := isLoading s;
     error := error s; calls := calls s; waits := waits s; reported := reported s;
     timers := timers s; next_timer := next_timer s; promises := promises s;
     next_promise := next_promise s; executions := executions s |}.

Definition set_lastRequestTimes (v : gmap string Z) (s : exec) : exec :=
  {| now := now s; lastRequestTimes := v; pendingRequests := pendingRequests s;
     debounceTimers := debounceTimers s; isLoading := isLoading s; error := error s;
     calls := calls s; waits := waits s; reported := reported s; timers := timers s;
     next_timer := next_timer s; promises := promises s; next_promise := next_promise s;
     executions := executions s |}.

Definition set_pendingRequests (v : gmap string bool) (s : exec) : exec :=
  {| now := now s; lastRequestTimes := lastRequestTimes s; pendingRequests := v;
     debounceTimers := debounceTimers s; isLoading := isLoading s; error := error s;
     calls := calls s; waits := waits s; reported := reported s; timers := timers s;
     next_timer := next_timer s; promises := promises s; next_promise := next_promise s;
     executions := executions s |}.

Definition set_debounceTimers (v : gmap string nat) (s : exec) : exec :=
  {| now := now s; lastRequestTimes := lastRequestTimes s; pendingRequests :=
     pendingRequests s; debounceTimers := v; isLoading := isLoading s; error := error s;
     calls := calls s; waits := waits s; reported := reported s; timers := timers s;
     next_timer := next_timer s; promises := promises s; next_promise := next_promise s;
     executions := executions s |}.

Definition set_isLoading (v : bool) (s : exec) : exec :=
  {| now := now s; lastRequestTimes := lastRequestTimes s; pendingRequests :=
     pendingRequests s; debounceTimers := debounceTimers s; isLoading := v; error :=
     error s; calls := calls s; waits := waits s; reported := reported s; timers :=
     timers s; next_timer := next_timer s; promises := promises s; next_promise :=
     next_promise s; executions := executions s |}.

Definition set_error (v : option string) (s : exec) : exec :=
  {| now := now s; lastRequestTimes := lastRequestTimes s; pendingRequests :=
     pendingRequests s; debounceTimers := debounceTimers s; isLoading := isLoading s;
     error := v; calls := calls s; waits := waits s; reported := reported s; timers :=
     timers s; next_timer := next_timer s; promises := promises s; next_promise :=
     next_promise s; executions := executions s |}.

Definition set_calls (v : list call) (s : exec) : exec :=
  {| now := now s; lastRequestTimes := lastRequestTimes s; pendingRequests :=
     pendingRequests s; debounceTimers := debounceTimers s; isLoading := isLoading s;
     error := error s; calls := v; waits := waits s; reported := reported s; timers :=
     timers s; next_timer := next_timer s; promises := promises s; next_promise :=
     next_promise s; executions := executions s |}.

Definition set_waits (v : list Z) (s : exec) : exec :=
  {| now := now s; lastRequestTimes := lastRequestTimes s; pendingRequests :=
     pendingRequests s; debounceTimers := debounceTimers s; isLoading := isLoading s;
     error := error s; calls := calls s; waits := v; reported := reported s; timers :=
     timers s; next_timer := next_timer s; promises := promises s; next_promise :=
     next_promise s; executions := executions s |}.

Definition set_reported (v : list string) (s : exec) : exec :=
  {| now := now s; lastRequestTimes := lastRequestTimes s; pendingRequests :=
     pendingRequests s; debounceTimers := debounceTimers s; isLoading := isLoading s;
     error := error s; calls := calls s; waits := waits s; reported := v; timers :=
     timers s; next_timer := next_timer s; promises := promises s; next_promise :=
     next_promise s; executions := executions s |}.

Definition set_timers (v : list timer) (s : exec) : exec :=
  {| now := now s; lastRequestTimes := lastRequestTimes s; pendingRequests :=
     pendingRequests s; debounceTimers := debounceTimers s; isLoading := isLoading s;
     error := error s; calls := calls s; waits := waits s; reported := reported s;
     timers := v; next_timer := next_timer s; promises := promises s; next_promise :=
     next_promise s; executions := executions s |}.

Definition set_next_timer (v : nat) (s : exec) : exec :=
  {| now := now s; lastRequestTimes := lastRequestTimes s; pendingRequests :=
     pendingRequests s; debounceTimers := debounceTimers s; isLoading := isLoading s;
     error := error s; calls := calls s; waits := waits s; reported := reported s;
     timers := timers s; next_timer := v; promises := promises s; next_promise :=
     next_promise s; executions := executions s |}.

Definition set_promises (v : gmap nat promise) (s : exec) : exec :=
  {| now := now s; lastRequestTimes := lastRequestTimes s; pendingRequests :=
     pendingRequests s; debounceTimers := debounceTimers s; isLoading := isLoading s;
     error := error s; calls := calls s; waits := waits s; reported := reported s;
     timers := timers s; next_timer := next_timer s; promises := v; next_promise :=
     next_promise s; executions := executions s |}.

Definition set_next_promise (v : nat) (s : exec) : exec :=
  {| now := now s; lastRequestTimes := lastRequestTimes s; pendingRequests :=
     pendingRequests s; debounceTimers := debounceTimers s; isLoading := isLoading s;
     error := error s; calls := calls s; waits := waits s; reported := reported s;
     timers := timers s; next_timer := next_timer s; promises := promises s;
     next_promise := v; executions := executions s |}.

Definition set_executions (v : list (method * string * config)) (s : exec) : exec :=
  {| now := now s; lastRequestTimes := lastRequestTimes s; pendingRequests :=
     pendingRequests s; debounceTimers := debounceTimers s; isLoading := isLoading s;
     error := error s; calls := calls s; waits := waits s; reported := reported s;
     timers := timers s; next_timer := next_timer s; promises := promises s;
     next_promise := next_promise s; executions := v |}.

Definition getDebounceKey (m : method) (url : string) : string :=
  method_name m +:+ ":" +:+ url.

(** [url.startsWith("/api/") ? url.substring(4) : url] *)
Definition cleanUrl (url : string) : string :=
  if Js.startsWith "/api/" url then Js.substring 4 url else url.

Section Hook.

Variable maxRetries : nat.
Variable retryDelay : Z.
Variable debounceTime : Z.
Variable onError : bool.

(** The network: latency and result of the k-th underlying call. *)
Variable net : nat -> Z * net_result.

Definition requestKey (m : method) (url : string) : string :=
  getDebounceKey m (cleanUrl url).

(** [lastRequestTimes.current[key] || 0] *)
Definition lastRequestTime (key : string) (s : exec) : Z :=
  default 0 (lastRequestTimes s !! key).

Definition isPending (key : string) (s : exec) : bool :=
  default false (pendingRequests s !! key).

Definition throttled (key : string) (retryCount : nat) (s : exec) : bool :=
  (now s - lastRequestTime key s <? debounceTime) && Nat.eqb retryCount 0.

Definition duplicate (key : string) (retryCount : nat) (s : exec) : bool :=
  isPending key s && Nat.eqb retryCount 0.

(** The state in which the underlying call is awaited: the key is marked
    pending and stamped, and the call is on record. *)
Definition issue (m : method) (url : string) (cfg : config) (s : exec) : exec :=
  let key := requestKey m url in
  let s := set_pendingRequests (<[key := true]> (pendingRequests s)) s in
  let s := set_lastRequestTimes (<[key := now s]> (lastRequestTimes s)) s in
  set_calls (calls s ++ [Call (now s) m (cleanUrl url) cfg]) s.

(** [await] for [ms] milliseconds. *)
Definition elapse (ms : Z) (s : exec) : exec := set_now (now s + ms) s.

(** The state in which the reply to the call issued from [s] arrives. *)
Definition replied (m : method) (url : string) (cfg : config) (s : exec) : exec :=
  elapse (fst (net (length (calls s))))
    (issue m url cfg (set_error None (set_isLoading true s))).

(** The bookkeeping around the underlying call. *)
Definition settle_ok (key : string) (s : exec) : exec :=
  set_isLoading false (set_pendingRequests (<[key := false]> (pendingRequests s)) s).

Definition report_failure (key msg : string) (s : exec) : exec :=
  let s := set_error (Some msg) s in
  let s := if onError then set_reported (reported s ++ [msg]) s else s in
  let s := set_pendingRequests (<[key := false]> (pendingRequests s)) s in
  set_isLoading false s.

Definition before_retry (s : exec) : exec :=
  set_waits (waits s ++ [retryDelay]) (elapse retryDelay s).

(** One call of the executor, run to its end with no other call of the hook
    in between.  The source recurses while [retryCount < maxRetries]; here
    the recursion is on [budget], the number of retries left, which
    [executeRequest] sets to [maxRetries - retryCount].  The [finally] of an
    attempt that retries runs as soon as the retry reaches its first
    [await]; it only sets [isLoading] to false, as the retry's own
    [finally] does last, so it is placed after the retry. *)
Fixpoint attempt (budget : nat) (m : method) (url : string) (cfg : config)
    (retryCount : nat) (s : exec) : option response * exec :=
  let key := requestKey m url in
  let s0 := set_error None (set_isLoading true s) in
  if throttled key retryCount s0 then (None, set_isLoading false s0)
  else if duplicate key retryCount s0 then (None, set_isLoading false s0)
  else
    let n := length (calls s0) in
    let s1 := elapse (fst (net n)) (issue m url cfg s0) in
    match snd (net n) with
    | NetOk r => (Some r, settle_ok key s1)
    | NetError msg =>
        match budget with
        | S budget' =>
            let res := attempt budget' m url cfg (S retryCount) (before_retry s1) in
            (fst res, set_isLoading false (snd res))
        | O => (None, report_failure key msg s1)
        end
    end.

Definition executeRequest (m : method) (url : string) (cfg : config)
    (retryCount : nat) (s : exec) : option response * exec :=
  attempt (maxRetries - retryCount) m url cfg retryCount s.

(** [get], [post], [put] and [delete] call [executeRequest] with
    [retryCount] 0. *)
Definition direct (m : method) (url : string) (cfg : config) (s : exec)
    : option response * exec :=
  executeRequest m url cfg 0 s.

Definition clearTimeout (id : nat) (s : exec) : exec :=
  set_timers (List.filter (fun t => negb (Nat.eqb (t_id t) id)) (timers s)) s.

(** [debounce]: the timeout registered for the key, if any, is cleared; a
    new promise is made and a new timeout, whose callback alone resolves
    that promise, is registered for the key.  The result is the promise
    returned to the caller. *)
Definition debounce (m : method) (url : string) (cfg : config) (s : exec)
    : nat * exec :=
  let key := requestKey m url in
  let s := match debounceTimers s !! key with
           | Some id => clearTimeout id s
           | None => s
           end in
  let p := next_promise s in
  let id := next_timer s in
  let s := set_next_promise (S p) (set_promises (<[p := Pending]> (promises s)) s) in
  let s := set_next_timer (S id)
             (set_timers (timers s ++ [Timer id (now s + debounceTime) m url cfg p]) s) in
  (p, set_debounceTimers (<[key := id]> (debounceTimers s)) s).

(** The callback of a debounce timeout:
    [executeRequest(method, url, config).then(resolve)]. *)
Definition timeout_callback (t : timer) (s : exec) : exec :=
  let s := set_executions (executions s ++ [(t_method t, t_url t, t_config t)]) s in
  let res := executeRequest (t_method t) (t_url t) (t_config t) 0 s in
  set_promises (<[t_promise t := Resolved (fst res)]> (promises (snd res))) (snd res).

(** *** The event loop *)

Inductive event :=
| Advance (dt : Z)
| Fire (id : nat)
| Debounced (m : method) (url : string) (cfg : config)
| Direct (m : method) (url : string) (cfg : config).

Definition runs_first (t : timer) (s : exec) : bool :=
  forallb (fun u => (t_due t <? t_due u)
                    || ((t_due t =? t_due u) && (t_id t <=? t_id u)%nat))
          (timers s).

Definition step (e : event) (s : exec) : option exec :=
  match e with
  | Advance dt =>
      if (0 <=? dt) && forallb (fun t => now s + dt <=? t_due t) (timers s)
      then Some (elapse dt s) else None
  | Fire id =>
      match List.find (fun t => Nat.eqb (t_id t) id) (timers s) with
      | Some t =>
          if (t_due t <=? now s) && runs_first t s
          then Some (timeout_callback t (clearTimeout id s)) else None
      | None => None
      end
  | Debounced m url cfg => Some (snd (debounce m url cfg s))
  | Direct m url cfg => Some (snd (direct m url cfg s))
  end.

Fixpoint run (evs : list event) (s : exec) : option exec :=
  match evs with
  | [] => Some s
  | e :: evs' =>
      match step e s with
      | Some s' => run evs' s'
      | None => None
      end
  end.

(** *** Invariants *)

(** A call of the executor leaves the debounce bookkeeping alone. *)
Definition same_debounce (s s' : exec) : Prop :=
  timers s' = timers s /\ promises s' = promises s
  /\ next_promise s' = next_promise s /\ next_timer s' = next_timer s
  /\ executions s' = executions s /\ debounceTimers s' = debounceTimers s.

(** A promise is orphaned when it is pending and no timeout will resolve
    it. *)
Definition orphan (q : nat) (s : exec) : Prop :=
  promises s !! q = Some Pending
  /\ (q < next_promise s)%nat
  /\ Forall (fun t => t_promise t <> q) (timers s).

End Hook.

(** The hook as mounted at time [t0]. *)
Definition init (t0 : Z) : exec :=
  {| now := t0; lastRequestTimes := ∅; pendingRequests := ∅; debounceTimers := ∅;
     isLoading := false; error := None; calls := []; waits := []; reported := [];
     timers := []; next_timer := 1; promises := ∅; next_promise := 0;
     executions := [] |}.

(** *** Scenarios *)

(** A burst of debounced calls of method [m]: a first call, then each next
    one [gap] ms after the one before. *)
Definition burst (m : method) (url : string) (cfg : config)
    (more : list (Z * string * config)) : list event :=
  Debounced m url cfg
    :: flat_map (fun c => [Advance (fst (fst c)); Debounced m (snd (fst c)) (snd c)]) more.

(** A network that fails twice and then answers. *)
Definition flaky (k : nat) : Z * net_result :=
  match k with
  | 0%nat | 1%nat => (40, NetError "Network Error")
  | _ => (25, NetOk (Response 200 "ok"))
  end.

Definition steady (k : nat) : Z * net_result := (25, NetOk (Response 200 "ok")).

Definition no_config : config := Config None "".

(** A network on which every call fails. *)
Definition down (k : nat) : Z * net_result := (40, NetError "Network Error").

(** *** The bookkeeping of the debounced methods *)

(** The key a pending timeout was registered under. *)
Definition timer_key (t : timer) : string := requestKey (t_method t) (t_url t).

(** What holds of the debounce timeouts of a hook since it was mounted:
    timeout and promise numbers advance together; every pending timeout is
    the one registered for its key and holds a pending promise; no two keys
    are registered with the same timeout; no two pending timeouts have the
    same number. *)
Definition debounce_inv (s : exec) : Prop :=
  next_timer s = S (next_promise s)
  /\ (forall t, In t (timers s) ->
        t_id t = S (t_promise t) /\ (t_id t < next_timer s)%nat
        /\ debounceTimers s !! timer_key t = Some (t_id t)
        /\ promises s !! t_promise t = Some Pending)
  /\ (forall k id, debounceTimers s !! k = Some id -> (id < next_timer s)%nat)
  /\ (forall k1 k2 id,
        debounceTimers s !! k1 = Some id -> debounceTimers s !! k2 = Some id -> k1 = k2)
  /\ (forall t1 t2,
        In t1 (timers s) -> In t2 (timers s) -> t_id t1 = t_id t2 -> t1 = t2).

(** Two searches typed in quick succession and a save in between. *)
Definition two_keys_trace : list event :=
  [Debounced get "/api/courses?q=a" no_config;
   Advance 300;
   Debounced put "/api/lessons/7" (Config (Some "title") "");
   Advance 300;
   Debounced get "/api/courses?q=a" no_config].

(** *** A burst of debounced calls, with whatever else happens meanwhile *)

Section Burst.

Variable maxRetries : nat.
Variable retryDelay : Z.
Variable debounceTime : Z.
Variable onError : bool.
Variable net : nat -> Z * net_result.
Variable key : string.

(** The executions made for [key]. *)
Definition executions_for (s : exec) : list (method * string * config) :=
  List.filter (fun x => String.eqb (requestKey (fst (fst x)) (snd (fst x))) key)
    (executions s).

(** The arguments of [e] when it is a debounced call to [key]. *)
Definition call_to (e : event) : option (method * string * config) :=
  match e with
  | Debounced m url cfg =>
      if String.eqb (requestKey m url) key then Some (m, url, cfg) else None
  | _ => None
  end.

(** [e] fires a timeout that is pending for [key]. *)
Definition fires (e : event) (s : exec) : bool :=
  match e with
  | Fire id =>
      existsb (fun t => Nat.eqb (t_id t) id && String.eqb (timer_key t) key) (timers s)
  | _ => false
  end.

(** Along the run of [evs] from [s], no timeout pending for [key] fires:
    every debounced call to [key] but the first is made before the timeout
    of the one before it has fired. *)
Fixpoint unfired (evs : list event) (s : exec) : bool :=
  match evs with
  | [] => true
  | e :: evs' =>
      negb (fires e s)
      && match step maxRetries retryDelay debounceTime onError net e s with
         | Some s' => unfired evs' s'
         | None => true
         end
  end.

(** The promises returned by the debounced calls to [key] along the run of
    [evs] from [s], in the order of the calls. *)
Fixpoint handed_out (evs : list event) (s : exec) : list nat :=
  match evs with
  | [] => []
  | e :: evs' =>
      match call_to e with
      | Some (m, url, cfg) => [fst (debounce debounceTime m url cfg s)]
      | None => []
      end
      ++ match step maxRetries retryDelay debounceTime onError net e s with
         | Some s' => handed_out evs' s'
         | None => []
         end
  end.

(** The arguments of the last debounced call to [key] among [evs]. *)
Fixpoint last_call_to (evs : list event) : option (method * string * config) :=
  match evs with
  | [] => None
  | e :: evs' =>
      match last_call_to evs' with
      | Some c => Some c
      | None => call_to e
      end
  end.

(** What holds in the course of a burst: no execution for [key] has been
    added to [E0]; the promises of the calls already superseded are
    orphaned; the timeout of the last call so far, if there was a call, is
    pending. *)
Definition burst_inv (E0 : list (method * string * config)) (old : list nat)
    (cur : option timer) (s : exec) : Prop :=
  debounce_inv s
  /\ executions_for s = E0
  /\ (forall q, In q old -> orphan q s)
  /\ match cur with
     | Some t => In t (timers s) /\ timer_key t = key
     | None => True
     end.

End Burst.

(** The states of the scenario below, on the default settings and a network
    that answers: where a run of [evs] from [s] ends ([s] itself if it
    cannot happen). *)
Definition state_after (evs : list event) (s : exec) : exec :=
  default s (run 3 1000 1000 true steady evs s).

(** A save is debounced first; then three searches, the third one after the
    timeout of the save has fired and its request has been answered; then
    the second of waiting that the last search needs. *)
Definition save_first : list event :=
  [Debounced put "/api/lessons/7" (Config (Some "title") "")].

Definition searches_trace : list event :=
  [Debounced get "/api/courses" no_config;
   Advance 150;
   Debounced get "/courses" no_config;
   Advance 850; Fire 1;
   Debounced get "/api/courses" no_config;
   Advance 1000].

End Executor.

(* ===================================================================== *)
(** * Part II.  Properties                                                *)
(* ===================================================================== *)

Module OrchestratorFacts.
Import Orchestrator.

(** ** A first run *)

(** A task that is finished at the first check: the POST goes through the
    API prefix, the check waits for the grace delay, and the reply stops
    the loop, clears both flags and fires the callback once.  The safety
    timeout stays behind. *)
Example quick_task_completes :
  exists s,
    run (Some (fun _ => CbReturns)) false quick_trace (init 0) = Some s
    /\ now s = 1000
    /\ (isWorking s, isLoading s, isPollingRef s) = (false, false, false)
    /\ completions s = 1%nat
    /\ active_loops s = 0%nat
    /\ outstanding s = 0%nat
    /\ timers s = [Timer 3 301000 Safety]
    /\ run (Some (fun _ => CbReturns)) false [CallStartTask "courses/42/plan" "m"] (init 0)
       = Some (startTask_call "courses/42/plan" "m" (init 0))
    /\ start_requests (startTask_call "courses/42/plan" "m" (init 0))
       = [(0%nat, "/api/courses/42/plan")].
Proof.
  eexists. split; [vm_compute; reflexivity|].
  repeat split; reflexivity.
Qed.

(** ** The completion callback *)

Section Callback.

Variable onComplete : option (nat -> cb_result).
Variable onError : bool.

Local Abbreviation after_callback := (after_callback onComplete).

Lemma executeCompletionCallback_normal (s : orch) :
  executeCompletionCallback onComplete s = Normal (after_callback s).
Proof.
  unfold executeCompletionCallback, after_callback.
  destruct onComplete as [f|]; [|reflexivity].
  destruct (completionCallbackFiredRef s); simpl; [reflexivity|].
  unfold tryCatch, call_onComplete; simpl.
  destruct (f (completions s)); reflexivity.
Qed.

Lemma guarded_after_callback (s : orch) : guarded s (after_callback s).
Proof.
  unfold guarded, after_callback.
  destruct onComplete as [f|]; [|repeat split; (lia || auto)].
  destruct (completionCallbackFiredRef s) eqn:E; [repeat split; (lia || auto)|].
  destruct (f (completions s)); simpl; repeat split; (lia || congruence || auto).
Qed.

Lemma guarded_same (s s' : orch) :
  completions s' = completions s ->
  completionCallbackFiredRef s' = completionCallbackFiredRef s ->
  guarded s s'.
Proof. intros Hc Hf. unfold guarded. rewrite Hc, Hf. repeat split; (lia || auto). Qed.

Lemma guarded_via (s s1 s' : orch) :
  completions s1 = completions s ->
  completionCallbackFiredRef s1 = completionCallbackFiredRef s ->
  guarded s1 s' -> guarded s s'.
Proof. intros Hc Hf. unfold guarded. rewrite Hc, Hf. auto. Qed.

Lemma cleanupPolling_completions (s : orch) :
  completions (cleanupPolling s) = completions s.
Proof. unfold cleanupPolling. destruct (pollingIntervalRef s); reflexivity. Qed.

Lemma cleanupPolling_fired (s : orch) :
  completionCallbackFiredRef (cleanupPolling s) = completionCallbackFiredRef s.
Proof. unfold cleanupPolling. destruct (pollingIntervalRef s); reflexivity. Qed.

Lemma cleanupPolling_trace (s : orch) : trace (cleanupPolling s) = trace s.
Proof. unfold cleanupPolling. destruct (pollingIntervalRef s); reflexivity. Qed.

#[local] Arguments cleanupPolling : simpl never.

Lemma guarded_settle_resume (r : status_reply) (s : orch) :
  guarded s (settle (checkTaskStatus_resume onComplete r s)).
Proof.
  unfold checkTaskStatus_resume, tryCatch.
  destruct r as [w|st|m]; simpl; try (apply guarded_same; reflexivity).
  destruct w; simpl; [apply guarded_same; reflexivity|].
  rewrite executeCompletionCallback_normal. simpl.
  eapply guarded_via; [| |apply guarded_after_callback].
  - rewrite cleanupPolling_completions. reflexivity.
  - rewrite cleanupPolling_fired. reflexivity.
Qed.

Lemma guarded_settle_safety (s : orch) :
  guarded s (settle (safety_callback onComplete s)).
Proof.
  unfold safety_callback.
  destruct (isPollingRef s); [|apply guarded_same; reflexivity].
  rewrite executeCompletionCallback_normal. simpl.
  match goal with |- guarded _ (emit _ (after_callback ?x)) =>
    pose proof (guarded_after_callback x) as G;
    assert (Hc : completions x = completions s)
      by (rewrite cleanupPolling_completions; reflexivity);
    assert (Hf : completionCallbackFiredRef x = completionCallbackFiredRef s)
      by (rewrite cleanupPolling_fired; reflexivity)
  end.
  unfold guarded in *. simpl. rewrite Hc, Hf in G. exact G.
Qed.

Lemma guarded_step (e : event) (s s' : orch) :
  starts_cycle e = false ->
  step onComplete onError e s = Some s' -> guarded s s'.
Proof.
  intros Hc Hs. destruct e; simpl in Hc, Hs; try discriminate.
  - (* Advance *)
    destruct (_ && _); inversion Hs; subst. apply guarded_same; reflexivity.
  - (* Fire *)
    unfold fire in Hs.
    destruct (List.find _ _) as [t|]; [|discriminate].
    destruct (_ && _); [|discriminate].
    inversion Hs; subst; clear Hs.
    destruct (tm_kind t); simpl.
    + apply guarded_same; reflexivity.
    + apply guarded_same; reflexivity.
    + eapply guarded_via; [| |apply guarded_settle_safety]; reflexivity.
  - (* StatusReply *)
    destruct (existsb _ _); inversion Hs; subst.
    eapply guarded_via; [| |apply guarded_settle_resume]; reflexivity.
  - (* StartReply, failure *)
    destruct (existsb _ _); inversion Hs; subst; clear Hs.
    destruct r; try discriminate; simpl; unfold startTask_failed;
      destruct onError; apply guarded_same; reflexivity.
  - (* stopPolling *)
    inversion Hs; subst.
    apply guarded_same; [apply cleanupPolling_completions|apply cleanupPolling_fired].
  - (* unmount *)
    inversion Hs; subst.
    apply guarded_same; [apply cleanupPolling_completions|apply cleanupPolling_fired].
Qed.

(** Once the guard is set, the rest of the cycle invokes nothing. *)
Lemma guard_set_run (seg : list event) (s s' : orch) :
  forallb (fun e => negb (starts_cycle e)) seg = true ->
  run onComplete onError seg s = Some s' ->
  completionCallbackFiredRef s = true ->
  completions s' = completions s.
Proof.
  revert s. induction seg as [|e seg IH]; intros s Hseg Hrun Hfired; simpl in *.
  - inversion Hrun; subst. reflexivity.
  - apply andb_prop in Hseg as [He Hseg].
    apply negb_true_iff in He.
    destruct (step onComplete onError e s) as [s1|] eqn:Hstep; [|discriminate].
    destruct (guarded_step _ _ _ He Hstep) as (_ & Hkeep & _).
    destruct (Hkeep Hfired) as [Hf1 Hc1].
    rewrite (IH s1 Hseg Hrun Hf1). exact Hc1.
Qed.

(** No macrotask lets an exception escape. *)
Lemma after_callback_uncaught (s : orch) : uncaught (after_callback s) = uncaught s.
Proof.
  unfold after_callback. destruct onComplete as [f|]; [|reflexivity].
  destruct (completionCallbackFiredRef s); [reflexivity|].
  destruct (f (completions s)); reflexivity.
Qed.

Lemma uncaught_trace (s s' : orch) : trace s' = trace s -> uncaught s' = uncaught s.
Proof. unfold uncaught. intros ->. reflexivity. Qed.

Lemma settle_resume_uncaught (r : status_reply) (s : orch) :
  uncaught (settle (checkTaskStatus_resume onComplete r s)) = uncaught s.
Proof.
  unfold checkTaskStatus_resume, tryCatch.
  destruct r as [w|st|m]; simpl; try reflexivity.
  destruct w; simpl; [reflexivity|].
  rewrite executeCompletionCallback_normal. simpl.
  rewrite after_callback_uncaught. unfold uncaught.
  rewrite cleanupPolling_trace. reflexivity.
Qed.

Lemma settle_safety_uncaught (s : orch) :
  uncaught (settle (safety_callback onComplete s)) = uncaught s.
Proof.
  unfold safety_callback.
  destruct (isPollingRef s); [|reflexivity].
  rewrite executeCompletionCallback_normal. simpl.
  change (uncaught (after_callback
            (cleanupPolling (set_isLoading false (set_isWorking false
               (emit (ConsoleLog
                  "Timeout de seguridad alcanzado (5 minutos), forzando finalización")
                  s))))) = uncaught s).
  rewrite after_callback_uncaught. unfold uncaught.
  rewrite cleanupPolling_trace. reflexivity.
Qed.

Lemma step_uncaught (e : event) (s s' : orch) :
  step onComplete onError e s = Some s' -> uncaught s' = uncaught s.
Proof.
  intros Hs. destruct e; simpl in Hs.
  - destruct (_ && _); inversion Hs; subst. reflexivity.
  - unfold fire in Hs.
    destruct (List.find _ _) as [t|]; [|discriminate].
    destruct (_ && _); [|discriminate].
    inversion Hs; subst; clear Hs.
    destruct (tm_kind t); simpl; try reflexivity.
    rewrite settle_safety_uncaught. reflexivity.
  - destruct (existsb _ _); inversion Hs; subst.
    rewrite settle_resume_uncaught. reflexivity.
  - destruct (existsb _ _); inversion Hs; subst; clear Hs.
    destruct r; simpl; unfold startTask_failed, startPolling; simpl.
    + destruct (isPollingRef s); reflexivity.
    + destruct onError; reflexivity.
    + destruct onError; reflexivity.
  - inversion Hs; subst. apply uncaught_trace.
    unfold startTask_call, cleanupPolling.
    destruct (pollingIntervalRef s); reflexivity.
  - inversion Hs; subst. unfold startPolling.
    destruct (isPollingRef s); reflexivity.
  - inversion Hs; subst. apply uncaught_trace, cleanupPolling_trace.
  - inversion Hs; subst. apply uncaught_trace.
    unfold resetState, cleanupPolling.
    destruct (pollingIntervalRef s); reflexivity.
  - inversion Hs; subst. apply uncaught_trace, cleanupPolling_trace.
Qed.

Lemma run_uncaught (evs : list event) (s s' : orch) :
  run onComplete onError evs s = Some s' -> uncaught s' = uncaught s.
Proof.
  revert s. induction evs as [|e evs IH]; intros s Hrun; simpl in Hrun.
  - inversion Hrun; reflexivity.
  - destruct (step onComplete onError e s) as [s1|] eqn:Hstep; [|discriminate].
    rewrite (IH _ Hrun). eapply step_uncaught; eassumption.
Qed.

End Callback.

(** Over a stretch of the run in which the guard is not reset, the callback
    is invoked at most once, and not at all when the guard is set. *)
Lemma one_invocation_between_resets
    (onComplete : option (nat -> cb_result)) (onError : bool)
    (seg : list event) (s s' : orch) :
  forallb (fun e => negb (starts_cycle e)) seg = true ->
  run onComplete onError seg s = Some s' ->
  (completions s' <= S (completions s))%nat
  /\ (completionCallbackFiredRef s = true -> completions s' = completions s).
Proof.
  intros Hseg Hrun. split; [|apply (guard_set_run _ _ seg s s' Hseg Hrun)].
  revert s Hseg Hrun. induction seg as [|e seg IH]; intros s Hseg Hrun; simpl in *.
  - inversion Hrun; subst. lia.
  - apply andb_prop in Hseg as [He Hseg].
    apply negb_true_iff in He.
    destruct (step onComplete onError e s) as [s1|] eqn:Hstep; [|discriminate].
    destruct (guarded_step _ _ _ _ _ He Hstep) as (Hle & _ & Hset).
    destruct (Nat.eq_dec (completions s1) (completions s)) as [E|E].
    + specialize (IH s1 Hseg Hrun). lia.
    + assert (E1 : completions s1 = S (completions s)) by lia.
      rewrite (guard_set_run _ _ seg s1 s' Hseg Hrun (Hset E1)). lia.
Qed.



(** ** Stopping *)

(** C9, the claim as stated fails: [stopPolling] leaves the grace timeout
    pending when it is called within the first second, and leaves the safety
    timeout pending when it is called later. *)
Lemma stopPolling_leaves_timeouts_pending :
  run None false [CallStartPolling; CallStopPolling] (init 0)
    = Some (cleanupPolling (startPolling (init 0)))
  /\ timers (cleanupPolling (startPolling (init 0))) = [Timer 1 1000 Grace]
  /\ exists s,
       run None false [CallStartPolling; Advance 1000; Fire 1; CallStopPolling] (init 0)
         = Some s
       /\ isPollingRef s = false
       /\ timers s = [Timer 3 301000 Safety].
Proof.
  split; [reflexivity|]. split; [reflexivity|].
  eexists. split; [vm_compute; reflexivity|]. split; reflexivity.
Qed.

(** C9, amended.  [stopPolling] can be called in any state; it cancels the
    interval registered in [pollingIntervalRef], if any, and no other timer,
    clears that reference and the is-polling flag, and changes nothing
    else; calling it again, or calling it when no interval is registered
    and the flag is clear, changes nothing. *)
Theorem stopPolling_cancels_registered_interval
    (onComplete : option (nat -> cb_result)) (onError : bool) (s : orch) :
  step onComplete onError CallStopPolling s = Some (cleanupPolling s)
  /\ cleanupPolling s =
       set_isPollingRef false
         (set_pollingIntervalRef None
            (set_timers
               match pollingIntervalRef s with
               | Some id => List.filter (fun t => negb (Nat.eqb (tm_id t) id)) (timers s)
               | None => timers s
               end s))
  /\ cleanupPolling (cleanupPolling s) = cleanupPolling s
  /\ (pollingIntervalRef s = None -> isPollingRef s = false -> cleanupPolling s = s).
Proof.
  split; [reflexivity|].
  unfold cleanupPolling. destruct s as [w l m e r f p n ts nt sq st nr c tr]; simpl.
  destruct r as [id|]; simpl; repeat split; try reflexivity.
  - intros H; discriminate.
  - intros _ ->. reflexivity.
Qed.

(** ** One loop at a time *)

(** C1, the claim as stated fails twice.  When a second task is started
    within the grace delay of the first, both grace timers fire and two
    polling intervals run side by side, the first of them out of reach of
    [stopPolling]; and even a single loop sends its next status check while
    the previous one is unanswered. *)
Lemma two_polling_loops_at_once :
  (exists s,
     run None false double_start_trace (init 0) = Some s
     /\ active_loops s = 2%nat
     /\ active_loops (cleanupPolling s) = 1%nat)
  /\ (exists s,
        run None false slow_reply_trace (init 0) = Some s
        /\ active_loops s = 1%nat
        /\ outstanding s = 2%nat).
Proof.
  split; eexists; (split; [vm_compute; reflexivity|]); split; reflexivity.
Qed.

Section OneLoop.

Variable onComplete : option (nat -> cb_result).
Variable onError : bool.

Local Abbreviation after_callback := (after_callback onComplete).

#[local] Arguments is_kind : simpl never.

Lemma count_app (k : timer_kind) (ts us : list timer) :
  count k (ts ++ us) = (count k ts + count k us)%nat.
Proof. unfold count. rewrite List.filter_app, length_app. reflexivity. Qed.

Lemma count_filter_le (k : timer_kind) (p : timer -> bool) (ts : list timer) :
  (count k (List.filter p ts) <= count k ts)%nat.
Proof.
  unfold count. induction ts as [|t ts IH]; simpl; [lia|].
  destruct (p t); simpl; destruct (is_kind k t); simpl; lia.
Qed.

Lemma count_filter_lt (k : timer_kind) (p : timer -> bool) (t : timer)
    (ts : list timer) :
  In t ts -> p t = false -> is_kind k t = true ->
  (count k (List.filter p ts) < count k ts)%nat.
Proof.
  unfold count. induction ts as [|u ts IH]; simpl; [tauto|].
  intros [->|Hin] Hp Hk.
  - rewrite Hp, Hk. simpl.
    pose proof (count_filter_le k p ts) as Hle. unfold count in Hle. lia.
  - specialize (IH Hin Hp Hk).
    destruct (p u); simpl; destruct (is_kind k u); simpl; lia.
Qed.

Lemma count_rearm (k : timer_kind) (id : nat) (due : Z) (ts : list timer) :
  count k (List.map (fun t => if Nat.eqb (tm_id t) id
                              then Timer (tm_id t) due (tm_kind t) else t) ts)
  = count k ts.
Proof.
  unfold count. induction ts as [|t ts IH]; simpl; [reflexivity|].
  assert (E : is_kind k (if Nat.eqb (tm_id t) id
                         then Timer (tm_id t) due (tm_kind t) else t)
              = is_kind k t) by (destruct (Nat.eqb _ _); reflexivity).
  rewrite E. destruct (is_kind k t); simpl; rewrite IH; reflexivity.
Qed.

Lemma registered_count0 (r : option nat) (ts : list timer) :
  count Interval ts = 0%nat -> registered r ts.
Proof.
  unfold count, registered. intros H0 t Hin Hk.
  assert (Hf : In t (List.filter (is_kind Interval) ts))
    by (apply List.filter_In; auto).
  destruct (List.filter (is_kind Interval) ts); [destruct Hf|discriminate].
Qed.

Lemma registered_none_count0 (ts : list timer) :
  registered None ts -> count Interval ts = 0%nat.
Proof.
  unfold count, registered. intros H.
  induction ts as [|t ts IH]; simpl; [reflexivity|].
  destruct (is_kind Interval t) eqn:Hk.
  - specialize (H t (or_introl eq_refl) Hk). discriminate.
  - apply IH. intros u Hin. apply H. right. exact Hin.
Qed.

Lemma registered_cleared (id : nat) (ts : list timer) :
  registered (Some id) ts ->
  count Interval (List.filter (fun t => negb (Nat.eqb (tm_id t) id)) ts) = 0%nat.
Proof.
  unfold count, registered. intros H.
  induction ts as [|t ts IH]; simpl; [reflexivity|].
  assert (IH' := IH (fun u Hin => H u (or_intror Hin))).
  destruct (Nat.eqb (tm_id t) id) eqn:E; simpl; [exact IH'|].
  destruct (is_kind Interval t) eqn:Hk; [|exact IH'].
  specialize (H t (or_introl eq_refl) Hk). inversion H; subst.
  rewrite Nat.eqb_refl in E. discriminate.
Qed.

Lemma registered_filter (r : option nat) (p : timer -> bool) (ts : list timer) :
  registered r ts -> registered r (List.filter p ts).
Proof.
  unfold registered. intros H t Hin. apply H.
  apply List.filter_In in Hin. tauto.
Qed.

Lemma one_loop_init (t0 : Z) : one_loop_inv (init t0).
Proof.
  unfold one_loop_inv, one_loop, registered; simpl.
  repeat split; (lia || auto).
Qed.

Lemma one_loop_cleanup (s : orch) :
  one_loop_inv s -> pending Grace s = 0%nat -> one_loop_inv (cleanupPolling s).
Proof.
  unfold one_loop_inv, one_loop, pending, cleanupPolling.
  fold (count Grace (timers s)).
  intros (Hl & Hr & Hg & Hx & Hi) Hg0.
  destruct (pollingIntervalRef s) as [id|] eqn:Er; simpl.
  - pose proof (registered_cleared id _ Hr) as H0.
    pose proof (count_filter_le Grace (fun t => negb (Nat.eqb (tm_id t) id)) (timers s)).
    repeat split; try lia.
    apply registered_count0. exact H0.
  - pose proof (registered_none_count0 _ Hr) as H0.
    rewrite Er. repeat split; try lia. exact Hr.
Qed.

Lemma active_loops_cleanup (s : orch) :
  one_loop_inv s -> active_loops (cleanupPolling s) = 0%nat.
Proof.
  unfold one_loop_inv, one_loop, active_loops, cleanupPolling.
  intros (Hl & Hr & Hg & Hx & Hi).
  destruct (pollingIntervalRef s) as [id|] eqn:Er; simpl.
  - apply (registered_cleared id _ Hr).
  - apply (registered_none_count0 _ Hr).
Qed.

Lemma one_loop_startPolling (s : orch) :
  one_loop_inv s -> one_loop_inv (startPolling s).
Proof.
  unfold one_loop_inv, one_loop, startPolling.
  intros (Hl & Hr & Hg & Hx & Hi).
  destruct (isPollingRef s) eqn:Ep; simpl.
  - rewrite Ep. auto.
  - destruct (Hi eq_refl) as [Hg0 Hl0].
    rewrite !count_app.
    change (count Interval [Timer (next_timer s) (now s + POLL_GRACE_MS) Grace])
      with 0%nat.
    change (count Grace [Timer (next_timer s) (now s + POLL_GRACE_MS) Grace])
      with 1%nat.
    repeat split; try lia; try discriminate.
    intros t Hin Hk. apply List.in_app_or in Hin as [Hin|[<-|[]]].
    + apply Hr; assumption.
    + discriminate.
Qed.

Lemma one_loop_same (s s' : orch) :
  timers s' = timers s -> pollingIntervalRef s' = pollingIntervalRef s ->
  isPollingRef s' = isPollingRef s -> one_loop_inv s -> one_loop_inv s'.
Proof. unfold one_loop_inv. intros -> -> ->. auto. Qed.

Lemma after_callback_core (s : orch) :
  timers (after_callback s) = timers s
  /\ pollingIntervalRef (after_callback s) = pollingIntervalRef s
  /\ isPollingRef (after_callback s) = isPollingRef s.
Proof.
  unfold after_callback. destruct onComplete as [f|]; [|auto].
  destruct (completionCallbackFiredRef s); [auto|].
  destruct (f (completions s)); auto.
Qed.

Lemma one_loop_clearTimer (id : nat) (s : orch) :
  one_loop_inv s -> one_loop_inv (clearTimer id s).
Proof.
  unfold one_loop_inv, one_loop, clearTimer; simpl.
  intros (Hl & Hr & Hg & Hx & Hi).
  pose proof (count_filter_le Grace (fun t => negb (Nat.eqb (tm_id t) id)) (timers s)).
  pose proof (count_filter_le Interval (fun t => negb (Nat.eqb (tm_id t) id)) (timers s)).
  repeat split; try lia.
  - apply registered_filter, Hr.
  - destruct (Hi H1); lia.
  - destruct (Hi H1); lia.
Qed.

Lemma one_loop_rearm (id : nat) (period : Z) (s : orch) :
  one_loop_inv s -> one_loop_inv (rearm id period s).
Proof.
  unfold one_loop_inv, one_loop, rearm; simpl.
  rewrite !count_rearm.
  intros (Hl & Hr & Hg & Hx & Hi). repeat split; auto; try (apply Hi; assumption).
  intros t Hin Hk. apply List.in_map_iff in Hin as (u & <- & Hin).
  destruct (Nat.eqb (tm_id u) id); apply (Hr u Hin); exact Hk.
Qed.

Lemma find_timer (id : nat) (ts : list timer) (t : timer) :
  List.find (fun t => Nat.eqb (tm_id t) id) ts = Some t ->
  In t ts /\ negb (Nat.eqb (tm_id t) id) = false.
Proof.
  intros H. apply List.find_some in H as [Hin E]. split; [exact Hin|].
  rewrite E. reflexivity.
Qed.

Lemma one_loop_grace (id : nat) (t : timer) (s : orch) :
  one_loop_inv s ->
  List.find (fun t => Nat.eqb (tm_id t) id) (timers s) = Some t ->
  tm_kind t = Grace ->
  one_loop_inv (grace_callback (clearTimer id s)).
Proof.
  intros Hinv Hfind Hk.
  destruct (find_timer _ _ _ Hfind) as [Hin Hp].
  assert (HkG : is_kind Grace t = true) by (unfold is_kind; rewrite Hk; reflexivity).
  pose proof (count_filter_lt Grace (fun t => negb (Nat.eqb (tm_id t) id)) t
                (timers s) Hin Hp HkG) as Hlt.
  pose proof (count_filter_le Interval (fun t => negb (Nat.eqb (tm_id t) id)) (timers s))
    as Hle.
  destruct Hinv as (Hl & Hr & Hg & Hx & Hi).
  assert (Hl0 : count Interval (timers s) = 0%nat) by (apply Hx; lia).
  assert (Hpoll : isPollingRef s = true).
  { destruct (isPollingRef s); [reflexivity|]. destruct (Hi eq_refl). lia. }
  unfold one_loop_inv, one_loop, grace_callback, schedule, checkTaskStatus_send,
    clearTimer; simpl.
  rewrite !count_app.
  match goal with |- context [count Interval [Timer ?i ?d Interval]] =>
    change (count Interval [Timer i d Interval]) with 1%nat;
    change (count Grace [Timer i d Interval]) with 0%nat end.
  match goal with |- context [count Interval [Timer ?i ?d Safety]] =>
    change (count Interval [Timer i d Safety]) with 0%nat;
    change (count Grace [Timer i d Safety]) with 0%nat end.
  rewrite Hpoll.
  repeat split; try lia; try discriminate.
  intros u Hu Hku.
  apply List.in_app_or in Hu as [Hu|[<-|[]]]; [|discriminate].
  apply List.in_app_or in Hu as [Hu|[<-|[]]]; [|reflexivity].
  exfalso.
  assert (H0 : count Interval
                 (List.filter (fun t => negb (Nat.eqb (tm_id t) id)) (timers s)) = 0%nat)
    by lia.
  pose proof (registered_count0 None _ H0 u Hu Hku). discriminate.
Qed.

Lemma pending_clearTimer (id : nat) (s : orch) :
  pending Grace s = 0%nat -> pending Grace (clearTimer id s) = 0%nat.
Proof.
  unfold pending, clearTimer; simpl. intros H.
  pose proof (count_filter_le Grace (fun t => negb (Nat.eqb (tm_id t) id)) (timers s))
    as Hle.
  unfold count in Hle. lia.
Qed.

Lemma one_loop_step (e : event) (s s' : orch) :
  one_loop_inv s ->
  cleans_up e s && (0 <? pending Grace s)%nat = false ->
  step onComplete onError e s = Some s' ->
  one_loop_inv s'.
Proof.
  intros Hinv Hsp Hs.
  assert (Hg0 : cleans_up e s = true -> pending Grace s = 0%nat).
  { intros Hc. rewrite Hc in Hsp. simpl in Hsp.
    apply Nat.ltb_ge in Hsp. lia. }
  clear Hsp.
  destruct e; simpl in Hs.
  - (* Advance *)
    destruct (_ && _); inversion Hs; subst. exact Hinv.
  - (* Fire *)
    unfold fire in Hs. simpl in Hg0.
    destruct (List.find _ _) as [t|] eqn:Hfind; [|discriminate].
    destruct (_ && _); [|discriminate].
    inversion Hs; subst; clear Hs.
    destruct (tm_kind t) eqn:Hk; simpl.
    + eapply one_loop_grace; eassumption.
    + apply (one_loop_same (rearm id POLL_INTERVAL_MS s)); try reflexivity.
      apply one_loop_rearm, Hinv.
    + unfold safety_callback.
      change (isPollingRef (clearTimer id s)) with (isPollingRef s).
      destruct (isPollingRef s) eqn:Ep; simpl; [|apply one_loop_clearTimer, Hinv].
      rewrite executeCompletionCallback_normal. simpl.
      match goal with |- one_loop_inv (emit _ (after_callback ?x)) =>
        destruct (after_callback_core x) as (Et & Er & Eq);
        apply (one_loop_same x); [exact Et|exact Er|exact Eq|]
      end.
      apply one_loop_cleanup.
      * apply (one_loop_same (clearTimer id s)); try reflexivity.
        apply one_loop_clearTimer, Hinv.
      * apply (pending_clearTimer id s). apply Hg0.
        unfold is_kind. rewrite Hk. reflexivity.
  - (* StatusReply *)
    destruct (existsb _ _); inversion Hs; subst; clear Hs.
    unfold checkTaskStatus_resume, tryCatch.
    destruct r as [w|st|m]; simpl; try exact Hinv.
    destruct w; simpl; [exact Hinv|].
    rewrite executeCompletionCallback_normal. simpl.
    match goal with |- one_loop_inv (after_callback ?x) =>
      destruct (after_callback_core x) as (Et & Er & Eq);
      apply (one_loop_same x); [exact Et|exact Er|exact Eq|]
    end.
    apply one_loop_cleanup; [exact Hinv|apply Hg0; reflexivity].
  - (* StartReply *)
    destruct (existsb _ _); inversion Hs; subst; clear Hs.
    destruct r; simpl.
    + apply (one_loop_same (startPolling s)).
      * unfold startPolling; simpl. destruct (isPollingRef s); reflexivity.
      * unfold startPolling; simpl. destruct (isPollingRef s); reflexivity.
      * unfold startPolling; simpl. destruct (isPollingRef s); reflexivity.
      * apply one_loop_startPolling, Hinv.
    + unfold startTask_failed. destruct onError; exact Hinv.
    + unfold startTask_failed. destruct onError; exact Hinv.
  - (* startTask *)
    inversion Hs; subst; clear Hs.
    apply (one_loop_same (cleanupPolling s)).
    + unfold startTask_call, cleanupPolling. destruct (pollingIntervalRef s); reflexivity.
    + unfold startTask_call, cleanupPolling. destruct (pollingIntervalRef s); reflexivity.
    + unfold startTask_call, cleanupPolling. destruct (pollingIntervalRef s); reflexivity.
    + apply one_loop_cleanup; [exact Hinv|apply Hg0; reflexivity].
  - (* startPolling *)
    inversion Hs; subst. apply one_loop_startPolling, Hinv.
  - (* stopPolling *)
    inversion Hs; subst. apply one_loop_cleanup; [exact Hinv|apply Hg0; reflexivity].
  - (* resetState *)
    inversion Hs; subst; clear Hs.
    apply (one_loop_same (cleanupPolling s)).
    + unfold resetState, cleanupPolling. destruct (pollingIntervalRef s); reflexivity.
    + unfold resetState, cleanupPolling. destruct (pollingIntervalRef s); reflexivity.
    + unfold resetState, cleanupPolling. destruct (pollingIntervalRef s); reflexivity.
    + apply one_loop_cleanup; [exact Hinv|apply Hg0; reflexivity].
  - (* unmount *)
    inversion Hs; subst. apply one_loop_cleanup; [exact Hinv|apply Hg0; reflexivity].
Qed.

Lemma one_loop_run (evs : list event) (s s' : orch) :
  one_loop_inv s ->
  spaced onComplete onError evs s = true ->
  run onComplete onError evs s = Some s' ->
  one_loop_inv s'.
Proof.
  revert s. induction evs as [|e evs IH]; intros s Hinv Hsp Hrun; simpl in *.
  - inversion Hrun; subst. exact Hinv.
  - apply andb_prop in Hsp as [Hsp1 Hsp2].
    apply negb_true_iff in Hsp1.
    destruct (step onComplete onError e s) as [s1|] eqn:Hstep; [|discriminate].
    apply (IH s1); [|exact Hsp2|exact Hrun].
    eapply one_loop_step; eassumption.
Qed.

End OneLoop.

(** C1, amended.  In every run in which no cleanup (a [startTask],
    [stopPolling] or [resetState] call, an unmount, a reply reporting the
    task finished, or a safety timeout that finds the flag set) happens
    while a grace-delay timer is pending, at most one polling interval is
    armed at any instant, and a [startTask] call made then leaves none armed
    before it starts the next loop.  In any state, [startPolling] schedules
    nothing while the is-polling flag is set, and a tick of a polling
    interval sends one more status request, whether or not the earlier ones
    have been answered. *)
Theorem at_most_one_loop_when_spaced
    (onComplete : option (nat -> cb_result)) (onError : bool)
    (t0 : Z) (evs : list event) (s : orch) :
  run onComplete onError evs (init t0) = Some s ->
  spaced onComplete onError evs (init t0) = true ->
  (active_loops s <= 1)%nat
  /\ (forall url message, active_loops (startTask_call url message s) = 0%nat)
  /\ (forall s0, isPollingRef s0 = true -> timers (startPolling s0) = timers s0)
  /\ (forall s0 id t o,
        List.find (fun t => Nat.eqb (tm_id t) id) (timers s0) = Some t ->
        tm_kind t = Interval ->
        fire onComplete id s0 = Some o ->
        outstanding (settle o) = S (outstanding s0)).
Proof.
  intros Hrun Hsp.
  pose proof (one_loop_run onComplete onError evs (init t0) s
                (one_loop_init t0) Hsp Hrun) as Hinv.
  split; [apply Hinv|]. split; [|split].
  - intros url message.
    pose proof (active_loops_cleanup s Hinv) as H0.
    unfold active_loops, startTask_call, cleanupPolling in *.
    destruct (pollingIntervalRef s); exact H0.
  - intros s0 Hp. unfold startPolling. rewrite Hp. reflexivity.
  - intros s0 id t o Hfind Hk Hfire. unfold fire in Hfire.
    rewrite Hfind, Hk in Hfire.
    destruct (_ && _); inversion Hfire; subst; clear Hfire.
    unfold outstanding. simpl. rewrite length_app. simpl. lia.
Qed.

Lemma at_most_one_loop_when_spaced_witness :
  exists s,
    run None false spaced_trace (init 0) = Some s
    /\ spaced None false spaced_trace (init 0) = true
    /\ active_loops s = 1%nat
    /\ (active_loops s <= 1)%nat.
Proof.
  destruct (run None false spaced_trace (init 0)) as [s|] eqn:Hrun;
    [|vm_compute in Hrun; discriminate].
  exists s. split; [reflexivity|].
  assert (Hsp : spaced None false spaced_trace (init 0) = true)
    by (vm_compute; reflexivity).
  split; [exact Hsp|].
  destruct (at_most_one_loop_when_spaced None false 0 spaced_trace s Hrun Hsp)
    as [Hle _].
  vm_compute in Hrun. inversion Hrun; subst; clear Hrun.
  split; [reflexivity|exact Hle].
Defined.

(** ** Starting a task *)

Lemma startsWith_slash (url : string) :
  Js.startsWith "/" url = true -> exists rest, url = String "/" rest.
Proof.
  destruct url as [|a rest]; cbn [Js.startsWith]; [discriminate|].
  destruct (Ascii.eqb "/" a) eqn:E; [|discriminate].
  apply Ascii.eqb_eq in E. subst. intros _. exists rest. reflexivity.
Qed.

(** X1.  Whatever path [startTask] is given, the request it sends goes to a
    URL under [/api/]: a path already under [/api/] is used as it is, any
    other is put behind the prefix, and normalising twice changes nothing. *)
Theorem startTask_posts_under_api (url message : string) (s : orch) :
  start_requests (startTask_call url message s)
    = (start_requests s ++ [(next_request s, apiUrl url)])%list
  /\ Js.startsWith "/api/" (apiUrl url) = true
  /\ (Js.startsWith "/api/" url = true -> apiUrl url = url)
  /\ apiUrl (apiUrl url) = apiUrl url.
Proof.
  assert (Hunder : Js.startsWith "/api/" (apiUrl url) = true).
  { unfold apiUrl. destruct (Js.startsWith "/api/" url) eqn:E; [exact E|].
    destruct (Js.startsWith "/" url) eqn:E1; [|reflexivity].
    destruct (startsWith_slash url E1) as [rest ->]. reflexivity. }
  split; [|split; [exact Hunder|split]].
  - unfold startTask_call, cleanupPolling, apiUrl.
    destruct (pollingIntervalRef s); reflexivity.
  - intros E. unfold apiUrl. rewrite E. reflexivity.
  - unfold apiUrl at 1. rewrite Hunder. reflexivity.
Qed.

(** X2.  A start request that is refused or that fails ends the task at
    once: the reply schedules no timer, sends no status check and does not
    call [onComplete]; it clears [isLoading] and [isWorking], stores the
    error, tells [onError] when there is one, and makes [startTask] return
    false. *)
Theorem failed_start_is_terminal
    (onComplete : option (nat -> cb_result)) (onError : bool)
    (req : nat) (r : start_reply) (s s' : orch) :
  r <> StartOk ->
  step onComplete onError (StartReply req r) s = Some s' ->
  timers s' = timers s
  /\ status_requests s' = status_requests s
  /\ isPollingRef s' = isPollingRef s
  /\ completions s' = completions s
  /\ (isLoading s', isWorking s') = (false, false)
  /\ (exists e, error s' = Some e
        /\ trace s' = (Returned false
                         :: (if onError then [OnError e] else [])
                         ++ ToastError e :: ConsoleError "Error iniciando tarea:" ""
                         :: trace s)%list).
Proof.
  intros Hr Hs. simpl in Hs.
  destruct (existsb _ _); inversion Hs; subst; clear Hs.
  destruct r as [|st txt|m]; [congruence| |]; simpl; unfold startTask_failed;
    destruct onError; simpl; repeat split; eexists; split; reflexivity.
Qed.

Lemma failed_start_is_terminal_witness :
  exists s',
    step None true (StartReply 0 (StartHttpError 500 "Internal Server Error"))
      (startTask_call "/courses/42/slides" "Generating slides" (init 0)) = Some s'
    /\ timers s' = []
    /\ (isLoading s', isWorking s') = (false, false).
Proof.
  destruct (step None true (StartReply 0 (StartHttpError 500 "Internal Server Error"))
              (startTask_call "/courses/42/slides" "Generating slides" (init 0)))
    as [s'|] eqn:Hs; [|vm_compute in Hs; discriminate].
  exists s'. split; [reflexivity|].
  destruct (failed_start_is_terminal None true 0
              (StartHttpError 500 "Internal Server Error")
              (startTask_call "/courses/42/slides" "Generating slides" (init 0)) s'
              ltac:(discriminate) Hs) as (Ht & _ & _ & _ & Hf & _).
  split; [exact Ht|exact Hf].
Defined.

(** ** The life of one loop *)

Section Life.

Variable onComplete : option (nat -> cb_result).
Variable onError : bool.

Local Abbreviation after_callback := (after_callback onComplete).
Local Abbreviation step := (step onComplete onError).
Local Abbreviation run := (run onComplete onError).
Local Abbreviation hc := (has_callback onComplete).

Lemma succ_eqb_false (g : nat) : Nat.eqb (S g) g = false.
Proof. apply Nat.eqb_neq. lia. Qed.

Lemma eqb_succ_false (g : nat) : Nat.eqb g (S g) = false.
Proof. apply Nat.eqb_neq. lia. Qed.

(** A callback made with the guard clear is counted and sets the guard. *)
Lemma after_callback_first (s : orch) :
  completionCallbackFiredRef s = false ->
  exists tr,
    after_callback s
    = set_trace tr
        (set_completions (completions s + if hc then 1 else 0)%nat
           (set_completionCallbackFiredRef hc s)).
Proof.
  intros Hf. unfold Orchestrator.after_callback, has_callback.
  destruct onComplete as [f|].
  - rewrite Hf. destruct s; simpl in *; subst.
    destruct (f completions0); eexists; unfold emit; simpl;
      rewrite Nat.add_1_r; reflexivity.
  - exists (trace s). destruct s; simpl in *; subst.
    rewrite Nat.add_0_r. reflexivity.
Qed.

(** A callback made when the loop has ended does nothing. *)
Lemma after_callback_again (s : orch) :
  completionCallbackFiredRef s = hc -> after_callback s = s.
Proof.
  unfold Orchestrator.after_callback, has_callback.
  destruct onComplete as [f|]; [|reflexivity]. intros ->. reflexivity.
Qed.

Lemma start_waits (e0 : event) (s0 s1 : orch) :
  idle s0 -> starts_loop e0 = true -> step e0 s0 = Some s1 ->
  waiting (now s0) (next_timer s0) (completions s0) s1.
Proof.
  intros (Ht & Hp & Hr & Hq) He Hs.
  destruct s0 as [w l m e r f p n ts nt sq st nr c tr]; simpl in *; subst.
  destruct e0 as [| | |req rep| | | | |]; try discriminate; simpl in Hs.
  - destruct (existsb _ _); [|discriminate].
    destruct rep; try discriminate. inversion Hs; subst; clear Hs.
    unfold waiting; simpl. repeat split; try reflexivity; try lia.
  - inversion Hs; subst; clear Hs.
    unfold waiting; simpl. repeat split; try reflexivity; try lia.
Qed.

Lemma waiting_step (T : Z) (g c0 : nat) (e : event) (s s' : orch) :
  waiting T g c0 s -> quiet e = true -> step e s = Some s' ->
  waiting T g c0 s' \/ polling T g c0 s'.
Proof.
  intros (Ht & Hn & Hnt & Hq & Hp & Hr & Hw & Hl & Hc & Hf) He Hs.
  destruct s as [w l m er r f p n ts nt sq st nr c tr]; simpl in *; subst.
  destruct e as [dt|id|req rep| | | | | |]; try discriminate; simpl in Hs.
  - destruct (0 <? dt) eqn:E0; [|discriminate]. simpl in Hs.
    destruct (n + dt <=? T + 1000) eqn:E1; [|discriminate]. simpl in Hs.
    inversion Hs; subst; clear Hs. left.
    apply Z.leb_le in E1. unfold waiting; simpl. repeat split; try reflexivity; try lia.
  - unfold fire in Hs. simpl in Hs.
    destruct (Nat.eqb g id) eqn:Eg; [|discriminate].
    apply Nat.eqb_eq in Eg. subst id. simpl in Hs.
    destruct (T + 1000 <=? n) eqn:E1; [|discriminate]. simpl in Hs.
    destruct (runs_first _ _); [|discriminate].
    inversion Hs; subst; clear Hs. right.
    apply Z.leb_le in E1. assert (n = T + 1000) by lia. subst n.
    unfold polling, grace_callback, clearTimer, schedule, checkTaskStatus_send; simpl.
    rewrite Nat.eqb_refl. simpl.
    replace (T + 1000 + SAFETY_TIMEOUT_MS) with (T + 301000)
      by (unfold SAFETY_TIMEOUT_MS; lia).
    repeat split; try reflexivity; try (unfold POLL_INTERVAL_MS; lia).
    exists (T + 1000 + POLL_INTERVAL_MS). split; [reflexivity|unfold POLL_INTERVAL_MS; lia].
Qed.

#[local] Arguments Nat.eqb : simpl never.

Ltac timer_ids :=
  simpl;
  repeat (progress (rewrite ?Nat.eqb_refl, ?eqb_succ_false, ?succ_eqb_false); simpl).

Lemma polling_step (T : Z) (g c0 : nat) (e : event) (s s' : orch) :
  polling T g c0 s -> quiet e = true -> step e s = Some s' ->
  polling T g c0 s'
  \/ (ended_early hc T g c0 s' /\ finished e = true)
  \/ ended_late hc T c0 s'.
Proof.
  intros ((d & Ht & Hd) & Hn & Hp & Hr & Hw & Hl & Hc & Hf) He Hs.
  destruct s as [w l m er r f p n ts nt sq st nr c tr]; simpl in *; subst.
  destruct e as [dt|id|req rep| | | | | |]; try discriminate; simpl in Hs.
  - destruct (0 <? dt) eqn:E0; [|discriminate]. simpl in Hs.
    destruct (n + dt <=? d) eqn:E1; [|discriminate]. simpl in Hs.
    destruct (n + dt <=? T + 301000) eqn:E2; [|discriminate]. simpl in Hs.
    inversion Hs; subst; clear Hs. left.
    apply Z.leb_le in E1, E2. unfold polling; simpl.
    repeat split; try reflexivity; try lia. exists d. split; [reflexivity|lia].
  - unfold fire in Hs.
    destruct (List.find _ _) as [t|] eqn:Hfind; [|discriminate].
    apply List.find_some in Hfind as [Hin Hid]. apply Nat.eqb_eq in Hid.
    destruct (_ && _) eqn:Hdue; [|discriminate].
    apply andb_prop in Hdue as [Hdue _]. apply Z.leb_le in Hdue.
    inversion Hs; subst; clear Hs.
    simpl in Hin. destruct Hin as [<-|[<-|[]]]; simpl in *.
    + left. unfold polling, rearm, checkTaskStatus_send. timer_ids.
      repeat split; try reflexivity; try lia.
      exists (n + POLL_INTERVAL_MS). split; [reflexivity|unfold POLL_INTERVAL_MS; lia].
    + right. right. assert (n = T + 301000) by lia. subst n.
      unfold safety_callback, clearTimer. simpl.
      rewrite executeCompletionCallback_normal. simpl.
      match goal with |- context [Orchestrator.after_callback onComplete ?x] =>
        destruct (after_callback_first x eq_refl) as [tr' ->] end.
      unfold cleanupPolling, clearTimer, ended_late, at_rest, emit. timer_ids.
      repeat split; try reflexivity; lia.
  - destruct (existsb _ _); [|discriminate].
    inversion Hs; subst; clear Hs.
    unfold checkTaskStatus_resume, tryCatch, drop_status_request.
    destruct rep as [[|]|code|msg]; simpl.
    + left. unfold polling; simpl. repeat split; try reflexivity; try lia.
      exists d. split; [reflexivity|lia].
    + right. left. split; [|reflexivity].
      rewrite executeCompletionCallback_normal. simpl.
      match goal with |- context [Orchestrator.after_callback onComplete ?x] =>
        destruct (after_callback_first x eq_refl) as [tr' ->] end.
      unfold cleanupPolling, clearTimer, ended_early, at_rest, emit. timer_ids.
      repeat split; try reflexivity; lia.
    + left. unfold polling; simpl. repeat split; try reflexivity; try lia.
      exists d. split; [reflexivity|lia].
    + left. unfold polling; simpl. repeat split; try reflexivity; try lia.
      exists d. split; [reflexivity|lia].
Qed.

(** Once the loop has ended, nothing is scheduled or sent any more. *)
Lemma ended_early_step (T : Z) (g c0 : nat) (e : event) (s s' : orch) :
  ended_early hc T g c0 s -> quiet e = true -> step e s = Some s' ->
  (ended_early hc T g c0 s' \/ ended_late hc T c0 s')
  /\ next_request s' = next_request s.
Proof.
  intros (Ht & Hn & Hp & Hr & Hw & Hl & Hc & Hf) He Hs.
  destruct s as [w l m er r f p n ts nt sq st nr c tr]; simpl in *; subst.
  destruct e as [dt|id|req rep| | | | | |]; try discriminate; simpl in Hs.
  - destruct (0 <? dt) eqn:E0; [|discriminate]. simpl in Hs.
    destruct (n + dt <=? T + 301000) eqn:E2; [|discriminate]. simpl in Hs.
    inversion Hs; subst; clear Hs. split; [left|reflexivity].
    apply Z.leb_le in E2. unfold ended_early, at_rest; simpl.
    repeat split; try reflexivity; lia.
  - unfold fire in Hs.
    destruct (List.find _ _) as [t|] eqn:Hfind; [|discriminate].
    apply List.find_some in Hfind as [Hin Hid]. apply Nat.eqb_eq in Hid.
    destruct (_ && _) eqn:Hdue; [|discriminate].
    apply andb_prop in Hdue as [Hdue _]. apply Z.leb_le in Hdue.
    inversion Hs; subst; clear Hs.
    simpl in Hin. destruct Hin as [<-|[]]; simpl in *.
    split; [right|reflexivity].
    unfold safety_callback, clearTimer, ended_late, at_rest. timer_ids.
    repeat split; try reflexivity; lia.
  - destruct (existsb _ _); [|discriminate].
    inversion Hs; subst; clear Hs.
    unfold checkTaskStatus_resume, tryCatch, drop_status_request.
    destruct rep as [[|]|code|msg]; simpl; try (split; [left|reflexivity];
      unfold ended_early, at_rest; simpl; repeat split; try reflexivity; lia).
    rewrite executeCompletionCallback_normal.
    rewrite after_callback_again by reflexivity.
    split; [left|reflexivity].
    unfold ended_early, at_rest, cleanupPolling; simpl.
    repeat split; try reflexivity; lia.
Qed.

Lemma ended_late_step (T : Z) (c0 : nat) (e : event) (s s' : orch) :
  ended_late hc T c0 s -> quiet e = true -> step e s = Some s' ->
  ended_late hc T c0 s' /\ next_request s' = next_request s.
Proof.
  intros (Ht & Hn & Hp & Hr & Hw & Hl & Hc & Hf) He Hs.
  destruct s as [w l m er r f p n ts nt sq st nr c tr]; simpl in *; subst.
  destruct e as [dt|id|req rep| | | | | |]; try discriminate; simpl in Hs.
  - destruct (0 <? dt) eqn:E0; [|discriminate]. simpl in Hs.
    inversion Hs; subst; clear Hs. split; [|reflexivity].
    apply Z.ltb_lt in E0. unfold ended_late, at_rest; simpl.
    repeat split; try reflexivity; lia.
  - destruct (existsb _ _); [|discriminate].
    inversion Hs; subst; clear Hs.
    unfold checkTaskStatus_resume, tryCatch, drop_status_request.
    destruct rep as [[|]|code|msg]; simpl; try (split; [|reflexivity];
      unfold ended_late, at_rest; simpl; repeat split; try reflexivity; lia).
    rewrite executeCompletionCallback_normal.
    rewrite after_callback_again by reflexivity.
    split; [|reflexivity].
    unfold ended_late, at_rest, cleanupPolling; simpl.
    repeat split; try reflexivity; lia.
Qed.

Lemma alive_facts (T : Z) (g c0 : nat) (s : orch) :
  waiting T g c0 s \/ polling T g c0 s ->
  isPollingRef s = true /\ isWorking s = true /\ completions s = c0
  /\ now s <= T + 301000
  /\ (pending Grace s + active_loops s = 1)%nat.
Proof.
  intros [(Ht & Hn & Hnt & Hq & Hp & Hr & Hw & Hl & Hc & Hf)
         |((d & Ht & Hd) & Hn & Hp & Hr & Hw & Hl & Hc & Hf)];
    unfold pending, active_loops; rewrite Ht; simpl; repeat split; auto; lia.
Qed.

Lemma ended_facts (T : Z) (g c0 : nat) (s : orch) :
  ended_early hc T g c0 s \/ ended_late hc T c0 s ->
  isPollingRef s = false /\ isWorking s = false /\ isLoading s = false
  /\ completions s = (c0 + if hc then 1 else 0)%nat
  /\ active_loops s = 0%nat /\ pending Grace s = 0%nat
  /\ (T + 301000 < now s -> timers s = []).
Proof.
  intros [(Ht & Hn & Hp & Hr & Hw & Hl & Hc & Hf)|(Ht & Hn & Hp & Hr & Hw & Hl & Hc & Hf)];
    unfold pending, active_loops; rewrite Ht; simpl; repeat split; auto; lia.
Qed.

Lemma life_step (T : Z) (g c0 : nat) (e : event) (s s' : orch) :
  one_life onComplete T g c0 s -> quiet e = true -> step e s = Some s' ->
  one_life onComplete T g c0 s'
  /\ (ended_early hc T g c0 s' -> ended_early hc T g c0 s \/ finished e = true)
  /\ (ended_early hc T g c0 s \/ ended_late hc T c0 s ->
      next_request s' = next_request s
      /\ (ended_early hc T g c0 s' \/ ended_late hc T c0 s')).
Proof.
  intros Hlife He Hs.
  assert (Hexcl : forall x, ended_early hc T g c0 x ->
            ~ (waiting T g c0 x \/ polling T g c0 x)).
  { intros x Hx Ha. destruct (alive_facts _ _ _ _ Ha) as (Hp & _).
    destruct (ended_facts _ _ _ _ (or_introl Hx)) as (Hq & _). congruence. }
  assert (Hexcl' : forall x, ended_late hc T c0 x ->
            ~ (waiting T g c0 x \/ polling T g c0 x)).
  { intros x Hx Ha. destruct (alive_facts _ _ _ _ Ha) as (Hp & _).
    destruct (ended_facts T g _ _ (or_intror Hx)) as (Hq & _). congruence. }
  destruct Hlife as [Hw|[Hp|[Hee|Hel]]].
  - destruct (waiting_step _ _ _ _ _ _ Hw He Hs) as [H|H].
    + split; [left; exact H|]. split.
      * intros Hx. exfalso. apply (Hexcl s' Hx). auto.
      * intros [Hx|Hx]; exfalso; [apply (Hexcl s Hx)|apply (Hexcl' s Hx)]; auto.
    + split; [right; left; exact H|]. split.
      * intros Hx. exfalso. apply (Hexcl s' Hx). auto.
      * intros [Hx|Hx]; exfalso; [apply (Hexcl s Hx)|apply (Hexcl' s Hx)]; auto.
  - destruct (polling_step _ _ _ _ _ _ Hp He Hs) as [H|[[H Hfin]|H]].
    + split; [right; left; exact H|]. split.
      * intros Hx. exfalso. apply (Hexcl s' Hx). auto.
      * intros [Hx|Hx]; exfalso; [apply (Hexcl s Hx)|apply (Hexcl' s Hx)]; auto.
    + split; [right; right; left; exact H|]. split; [auto|].
      intros [Hx|Hx]; exfalso; [apply (Hexcl s Hx)|apply (Hexcl' s Hx)]; auto.
    + split; [right; right; right; exact H|]. split.
      * intros Hx.
        destruct H as (Ht & _). destruct Hx as (Ht' & _). congruence.
      * intros [Hx|Hx]; exfalso; [apply (Hexcl s Hx)|apply (Hexcl' s Hx)]; auto.
  - destruct (ended_early_step _ _ _ _ _ _ Hee He Hs) as [[H|H] Hreq].
    + split; [right; right; left; exact H|]. split; [auto|]. intros _. auto.
    + split; [right; right; right; exact H|]. split; [auto|]. intros _. auto.
  - destruct (ended_late_step _ _ _ _ _ Hel He Hs) as [H Hreq].
    split; [right; right; right; exact H|]. split.
    + intros Hx. destruct H as (Ht & _). destruct Hx as (Ht' & _). congruence.
    + intros _. auto.
Qed.

Lemma life_run (T : Z) (g c0 : nat) (evs : list event) (s s' : orch) :
  one_life onComplete T g c0 s ->
  forallb quiet evs = true ->
  run evs s = Some s' ->
  one_life onComplete T g c0 s'
  /\ (ended_early hc T g c0 s' ->
      ended_early hc T g c0 s \/ existsb finished evs = true)
  /\ (ended_early hc T g c0 s \/ ended_late hc T c0 s ->
      next_request s' = next_request s
      /\ (ended_early hc T g c0 s' \/ ended_late hc T c0 s')).
Proof.
  revert s. induction evs as [|e evs IH]; intros s Hlife Hq Hrun; simpl in *.
  - inversion Hrun; subst. auto.
  - apply andb_prop in Hq as [He Hq].
    destruct (step e s) as [s1|] eqn:Hstep; [|discriminate].
    destruct (life_step _ _ _ _ _ _ Hlife He Hstep) as (H1 & H2 & H3).
    destruct (IH s1 H1 Hq Hrun) as (I1 & I2 & I3).
    split; [exact I1|]. split.
    + intros Hx. destruct (I2 Hx) as [Hy|Hy].
      * destruct (H2 Hy) as [Hz|Hz]; [left; exact Hz|right; rewrite Hz; reflexivity].
      * right. rewrite Hy. apply orb_true_r.
    + intros Hx. destruct (H3 Hx) as [Hr Hy]. destruct (I3 Hy) as [Hr' Hz].
      split; [congruence|exact Hz].
Qed.

(** *** A start cycle on an idle hook *)

Lemma idle_startTask (url message : string) (s : orch) :
  idle s ->
  idle (startTask_call url message s)
  /\ completions (startTask_call url message s) = completions s.
Proof.
  intros (Ht & Hp & Hr & Hq).
  destruct s as [w l m e r f p n ts nt sq st nr c tr]; simpl in *; subst.
  unfold idle; simpl. repeat split.
Qed.

Lemma idle_quiet_step (e : event) (s s' : orch) :
  idle s -> quiet e = true -> step e s = Some s' ->
  idle s' /\ completions s' = completions s.
Proof.
  intros (Ht & Hp & Hr & Hq) He Hs.
  destruct s as [w l m er r f p n ts nt sq st nr c tr]; simpl in *; subst.
  destruct e as [dt|id|req rep| | | | | |]; try discriminate; simpl in Hs.
  destruct (0 <? dt); inversion Hs; subst. unfold idle; simpl. repeat split.
Qed.

Lemma idle_quiet_run (evs : list event) (s s' : orch) :
  idle s -> forallb quiet evs = true -> run evs s = Some s' ->
  idle s' /\ completions s' = completions s.
Proof.
  revert s. induction evs as [|e evs IH]; intros s Hi Hq Hrun; simpl in *.
  - inversion Hrun; subst. auto.
  - apply andb_prop in Hq as [He Hq].
    destruct (step e s) as [s1|] eqn:Hstep; [|discriminate].
    destruct (idle_quiet_step _ _ _ Hi He Hstep) as [Hi1 Hc1].
    destruct (IH s1 Hi1 Hq Hrun) as [Hi' Hc']. split; [exact Hi'|congruence].
Qed.

Lemma idle_failed_start (req : nat) (r : start_reply) (s s' : orch) :
  idle s -> r <> StartOk -> step (StartReply req r) s = Some s' ->
  idle s' /\ completions s' = completions s.
Proof.
  intros (Ht & Hp & Hr & Hq) Hne Hs.
  destruct s as [w l m er rf f p n ts nt sq st nr c tr]; simpl in *; subst.
  destruct (existsb _ _); [|discriminate]. inversion Hs; subst; clear Hs.
  destruct r as [|code txt|msg]; [congruence| |]; simpl; unfold startTask_failed;
    destruct onError; unfold idle; simpl; repeat split.
Qed.

(** A whole start cycle on an idle hook: the call, what happens before the
    reply, the reply, and what happens after it. *)
Lemma idle_start_cycle (url message : string) (req : nat) (r : start_reply)
    (before after : list event) (s0 s : orch) :
  idle s0 ->
  forallb quiet before = true ->
  forallb quiet after = true ->
  run (CallStartTask url message :: before ++ StartReply req r :: after) s0 = Some s ->
  (completions s <= S (completions s0))%nat.
Proof.
  intros Hidle Hb Ha Hrun. cbn [Orchestrator.run Orchestrator.step] in Hrun.
  destruct (idle_startTask url message s0 Hidle) as [Hi1 Hc1].
  assert (Hgen : forall s1, idle s1 -> completions s1 = completions s0 ->
            run (before ++ StartReply req r :: after) s1 = Some s ->
            (completions s <= S (completions s0))%nat).
  { clear Hrun. intros s1 Hs1 Hcs1 Hrun.
    assert (Happ : forall l1 l2 x, run (l1 ++ l2) x
                   = match run l1 x with Some y => run l2 y | None => None end).
    { induction l1 as [|e l1 IH]; intros l2 x; simpl; [reflexivity|].
      destruct (step e x); [apply IH|reflexivity]. }
    rewrite Happ in Hrun.
    destruct (run before s1) as [s2|] eqn:Hrun1; [|discriminate].
    destruct (idle_quiet_run _ _ _ Hs1 Hb Hrun1) as [Hi2 Hc2].
    cbn [Orchestrator.run] in Hrun.
    destruct (step (StartReply req r) s2) as [s3|] eqn:Hstep; [|discriminate].
    destruct r as [|code txt|msg].
    - pose proof (start_waits (StartReply req StartOk) s2 s3 Hi2 eq_refl Hstep) as Hw.
      destruct (life_run _ _ _ after s3 s (or_introl Hw) Ha Hrun) as (Hlife & _).
      destruct Hlife as [H|[H|[H|H]]].
      + destruct (alive_facts _ _ _ _ (or_introl H)) as (_ & _ & Hc & _). lia.
      + destruct (alive_facts _ _ _ _ (or_intror H)) as (_ & _ & Hc & _). lia.
      + destruct (ended_facts _ _ _ _ (or_introl H)) as (_ & _ & _ & Hc & _).
        rewrite Hc. destruct hc; lia.
      + destruct (ended_facts (now s2) (next_timer s2) _ _ (or_intror H))
          as (_ & _ & _ & Hc & _).
        rewrite Hc. destruct hc; lia.
    - destruct (idle_failed_start req (StartHttpError code txt) s2 s3 Hi2
                  ltac:(discriminate) Hstep) as [Hi3 Hc3].
      destruct (idle_quiet_run _ _ _ Hi3 Ha Hrun) as [_ Hc4]. lia.
    - destruct (idle_failed_start req (StartNetworkError msg) s2 s3 Hi2
                  ltac:(discriminate) Hstep) as [Hi3 Hc3].
      destruct (idle_quiet_run _ _ _ Hi3 Ha Hrun) as [_ Hc4]. lia. }
  exact (Hgen _ Hi1 Hc1 Hrun).
Qed.

End Life.

(** ** One invocation per cycle *)




(** X3.  A polling loop started on an idle hook and left to itself (no
    further call from the caller) reports [isWorking] exactly while it is
    alive, has called [onComplete] exactly once when it has ended and not
    before, has nothing armed once it has ended, and has ended at the latest
    301 seconds after it was started: one second of grace and five minutes
    of safety bound. *)
Theorem polling_loop_ends_with_one_callback
    (onComplete : option (nat -> cb_result)) (onError : bool)
    (e0 : event) (evs : list event) (s0 s : orch) :
  idle s0 ->
  starts_loop e0 = true ->
  forallb quiet evs = true ->
  run onComplete onError (e0 :: evs) s0 = Some s ->
  isWorking s = isPollingRef s
  /\ completions s
     = (completions s0
        + if isPollingRef s then 0 else if has_callback onComplete then 1 else 0)%nat
  /\ (isPollingRef s = false -> active_loops s = 0%nat /\ pending Grace s = 0%nat)
  /\ (now s0 + 301000 < now s -> isPollingRef s = false /\ timers s = []).
Proof.
  intros Hidle He0 Hq Hrun. simpl in Hrun.
  destruct (step onComplete onError e0 s0) as [s1|] eqn:Hstep; [|discriminate].
  pose proof (start_waits onComplete onError e0 s0 s1 Hidle He0 Hstep) as Hw.
  destruct (life_run onComplete onError _ _ _ evs s1 s (or_introl Hw) Hq Hrun)
    as ([H|[H|[H|H]]] & _ & _).
  - destruct (alive_facts _ _ _ _ (or_introl H)) as (Hp & Hwk & Hc & Hn & Hk).
    rewrite Hp, Hwk, Hc. repeat split; try lia; try discriminate.
  - destruct (alive_facts _ _ _ _ (or_intror H)) as (Hp & Hwk & Hc & Hn & Hk).
    rewrite Hp, Hwk, Hc. repeat split; try lia; try discriminate.
  - destruct (ended_facts onComplete _ _ _ _ (or_introl H))
      as (Hp & Hwk & Hl & Hc & Ha & Hg & Ht).
    rewrite Hp, Hwk, Hc. repeat split; auto.
  - destruct (ended_facts onComplete (now s0) (next_timer s0) _ _ (or_intror H))
      as (Hp & Hwk & Hl & Hc & Ha & Hg & Ht).
    rewrite Hp, Hwk, Hc. repeat split; auto.
Qed.

Lemma polling_loop_ends_with_one_callback_witness :
  exists s,
    run (Some (fun _ => CbReturns)) false (CallStartPolling :: first_check_trace) (init 0)
      = Some s
    /\ isPollingRef s = false
    /\ isWorking s = isPollingRef s
    /\ completions s = 1%nat.
Proof.
  destruct (run (Some (fun _ => CbReturns)) false
              (CallStartPolling :: first_check_trace) (init 0)) as [s|] eqn:Hrun;
    [|vm_compute in Hrun; discriminate].
  exists s. split; [reflexivity|].
  destruct (polling_loop_ends_with_one_callback (Some (fun _ => CbReturns)) false
              CallStartPolling first_check_trace (init 0) s
              ltac:(repeat split) eq_refl eq_refl Hrun) as (Hw & Hc & _).
  assert (Hp : isPollingRef s = false)
    by (vm_compute in Hrun; inversion Hrun; reflexivity).
  rewrite Hp in Hc. split; [exact Hp|]. split; [exact Hw|exact Hc].
Defined.

(** X4.  Once a loop left to itself has ended, it stays ended: whatever
    timers fire and whatever late replies arrive, no further status check is
    sent. *)
Theorem ended_loop_sends_nothing
    (onComplete : option (nat -> cb_result)) (onError : bool)
    (e0 : event) (evs more : list event) (s0 s s2 : orch) :
  idle s0 ->
  starts_loop e0 = true ->
  forallb quiet evs = true ->
  run onComplete onError (e0 :: evs) s0 = Some s ->
  isPollingRef s = false ->
  forallb quiet more = true ->
  run onComplete onError more s = Some s2 ->
  next_request s2 = next_request s /\ isPollingRef s2 = false
  /\ active_loops s2 = 0%nat.
Proof.
  intros Hidle He0 Hq Hrun Hp Hq2 Hrun2. simpl in Hrun.
  destruct (step onComplete onError e0 s0) as [s1|] eqn:Hstep; [|discriminate].
  pose proof (start_waits onComplete onError e0 s0 s1 Hidle He0 Hstep) as Hw.
  destruct (life_run onComplete onError _ _ _ evs s1 s (or_introl Hw) Hq Hrun)
    as (Hlife & _ & _).
  assert (Hended : ended_early (has_callback onComplete) (now s0) (next_timer s0)
                     (completions s0) s
                   \/ ended_late (has_callback onComplete) (now s0) (completions s0) s).
  { destruct Hlife as [H|[H|[H|H]]]; auto.
    - destruct (alive_facts _ _ _ _ (or_introl H)) as (Hp' & _). congruence.
    - destruct (alive_facts _ _ _ _ (or_intror H)) as (Hp' & _). congruence. }
  destruct (life_run onComplete onError _ _ _ more s s2 Hlife Hq2 Hrun2)
    as (_ & _ & H3).
  destruct (H3 Hended) as [Hreq Hend2].
  destruct (ended_facts onComplete _ _ _ _ Hend2) as (Hp2 & _ & _ & _ & Ha & _).
  auto.
Qed.

Lemma ended_loop_sends_nothing_witness :
  exists s s2,
    run None false (CallStartPolling :: first_check_trace) (init 0) = Some s
    /\ run None false [Advance 300000; Fire 3] s = Some s2
    /\ next_request s2 = next_request s
    /\ isPollingRef s2 = false.
Proof.
  destruct (run None false (CallStartPolling :: first_check_trace) (init 0))
    as [s|] eqn:Hrun; [|vm_compute in Hrun; discriminate].
  destruct (run None false [Advance 300000; Fire 3] s) as [s2|] eqn:Hrun2;
    [|vm_compute in Hrun; inversion Hrun; subst; vm_compute in Hrun2; discriminate].
  exists s, s2. split; [reflexivity|]. split; [exact Hrun2|].
  assert (Hp : isPollingRef s = false)
    by (vm_compute in Hrun; inversion Hrun; reflexivity).
  destruct (ended_loop_sends_nothing None false CallStartPolling first_check_trace
              [Advance 300000; Fire 3] (init 0) s s2
              ltac:(repeat split) eq_refl eq_refl Hrun Hp eq_refl Hrun2)
    as (Hr & Hp2 & _).
  split; [exact Hr|exact Hp2].
Defined.

(** X5.  Failed status checks never end a loop that was started on an idle
    hook (no timer armed, no status check in flight, not polling): as long
    as no reply reports the task finished and the safety bound of that loop
    has not been reached, the loop left to itself is still polling,
    [isWorking] is still set, and exactly one timer of the loop (the grace
    timeout or the interval) is armed.  A hook that still holds the safety
    timeout of an earlier loop is not idle. *)
Theorem failed_checks_keep_polling
    (onComplete : option (nat -> cb_result)) (onError : bool)
    (e0 : event) (evs : list event) (s0 s : orch) :
  idle s0 ->
  starts_loop e0 = true ->
  forallb quiet evs = true ->
  existsb finished evs = false ->
  run onComplete onError (e0 :: evs) s0 = Some s ->
  now s < now s0 + 301000 ->
  isPollingRef s = true /\ isWorking s = true
  /\ (pending Grace s + active_loops s = 1)%nat
  /\ completions s = completions s0.
Proof.
  intros Hidle He0 Hq Hfin Hrun Hnow. simpl in Hrun.
  destruct (step onComplete onError e0 s0) as [s1|] eqn:Hstep; [|discriminate].
  pose proof (start_waits onComplete onError e0 s0 s1 Hidle He0 Hstep) as Hw.
  destruct (life_run onComplete onError _ _ _ evs s1 s (or_introl Hw) Hq Hrun)
    as (Hlife & Hearly & _).
  assert (Halive : waiting (now s0) (next_timer s0) (completions s0) s
                   \/ polling (now s0) (next_timer s0) (completions s0) s).
  { destruct Hlife as [H|[H|[H|H]]]; auto.
    - destruct (Hearly H) as [Hx|Hx]; [|congruence].
      exfalso. destruct Hx as (Ht & _). destruct Hw as (Ht' & _). congruence.
    - destruct H as (_ & Hn & _). lia. }
  destruct (alive_facts _ _ _ _ Halive) as (Hp & Hwk & Hc & _ & Hk). auto.
Qed.

Lemma failed_checks_keep_polling_witness :
  exists s,
    run None false (CallStartPolling :: failing_checks_trace) (init 0) = Some s
    /\ now s = 3000
    /\ isPollingRef s = true
    /\ active_loops s = 1%nat.
Proof.
  destruct (run None false (CallStartPolling :: failing_checks_trace) (init 0))
    as [s|] eqn:Hrun; [|vm_compute in Hrun; discriminate].
  exists s. split; [reflexivity|].
  assert (Hn : now s = 3000) by (vm_compute in Hrun; inversion Hrun; reflexivity).
  destruct (failed_checks_keep_polling None false CallStartPolling
              failing_checks_trace (init 0) s
              ltac:(repeat split) eq_refl eq_refl eq_refl Hrun
              ltac:(rewrite Hn; reflexivity)) as (Hp & _ & Hk & _).
  split; [exact Hn|]. split; [exact Hp|].
  vm_compute in Hrun. inversion Hrun; subst; reflexivity.
Defined.



End OrchestratorFacts.

Module DownloadFacts.
Import Download.
Local Open Scope list_scope.

(** ** The abort deadline *)

Lemma await_unarmed (delay : Z) (t : session) :
  abort_at t = None ->
  await delay t = inr (Session (clock t + delay) None (receivedLength t)
                         (chunks t) (emitted t)).
Proof. unfold await. intros ->. reflexivity. Qed.

Lemma await_start (delay : Z) :
  await delay (Session 0 (Some ABORT_TIMEOUT_MS) 0 [] [])
  = if ABORT_TIMEOUT_MS <=? delay
    then inl (Session ABORT_TIMEOUT_MS None 0 [] [])
    else inr (Session delay (Some ABORT_TIMEOUT_MS) 0 [] []).
Proof. unfold await; simpl. rewrite Z.add_0_l. reflexivity. Qed.

(** Once the timeout is cleared, no read is aborted and it stays cleared. *)
Lemma read_loop_unarmed (total : option Z) (reads : list (Z * read_result))
    (t : session) :
  abort_at t = None ->
  match read_loop total reads t with
  | inl (e, t') => e <> Aborted /\ abort_at t' = None
  | inr t' => abort_at t' = None
  end.
Proof.
  revert t. induction reads as [|[delay r] reads IH]; intros t Ht; simpl.
  - exact Ht.
  - rewrite (await_unarmed delay t Ht).
    destruct r as [value|m].
    + apply IH. reflexivity.
    + split; [discriminate|reflexivity].
Qed.

(** C3, the claim as stated fails: the timeout is cleared as soon as the
    response head arrives, so a body whose second chunk takes 200 seconds is
    read to the end and delivered, 200.15 seconds after the call. *)
Lemma body_reads_outlive_deadline :
  let o := downloadFileWithProgress "/courses/42/all-slides-pptx" (units "slides.pptx")
             stalled_body in
  returned o = true
  /\ failure o = None
  /\ clock (final o) = 200150
  /\ length (chunks (final o)) = 2%nat
  /\ (length <$> (f_bytes <$> delivered o)) = Some 500%nat.
Proof. vm_compute. repeat split; reflexivity. Qed.

(** C3, amended.  The 180000 ms abort deadline bounds the wait for the
    response head: when [fetch] has not settled by then, the request is
    aborted at the deadline, the call reports the abort and returns false,
    and no chunk is read.  When the head arrives earlier, the timeout is
    cleared: no later read is aborted, however long it takes. *)
Theorem abort_deadline_bounds_fetch
    (url : string) (fallbackFilename : list Z) (net : fetch_result) :
  (late net = true ->
   downloadFileWithProgress url fallbackFilename net
   = failed (resolveUrl url) Aborted (Session ABORT_TIMEOUT_MS None 0 [] []))
  /\ (late net = false ->
      failure (downloadFileWithProgress url fallbackFilename net) <> Some Aborted).
Proof.
  unfold late, downloadFileWithProgress.
  destruct net as [delay r|delay m|]; rewrite ?await_start.
  - destruct (ABORT_TIMEOUT_MS <=? delay) eqn:E; split; intros H;
      try discriminate; try reflexivity.
    unfold clearTimeout; simpl.
    destruct (ok r); simpl; [|discriminate].
    destruct (body r) as [reads|]; [|discriminate].
    match goal with |- context [read_loop ?tot reads ?t] =>
      pose proof (read_loop_unarmed tot reads t eq_refl) as Hl;
      destruct (read_loop tot reads t) as [[e t']|t'] end.
    + simpl. intros Heq. inversion Heq; subst. destruct Hl as [Hl _]. apply Hl; reflexivity.
    + destruct (assemble t'); discriminate.
  - destruct (ABORT_TIMEOUT_MS <=? delay) eqn:E; split; intros H;
      try discriminate; try reflexivity.
  - split; intros H; [reflexivity|discriminate].
Qed.

Lemma abort_deadline_bounds_fetch_witness :
  late Hangs = true
  /\ downloadFileWithProgress "/courses/42/pdf" (units "course.pdf") Hangs
     = failed "/api/courses/42/pdf" Aborted (Session 180000 None 0 [] [])
  /\ late stalled_body = false
  /\ failure (downloadFileWithProgress "/courses/42/pdf" (units "course.pdf") stalled_body)
     <> Some Aborted.
Proof.
  split; [reflexivity|]. split.
  - exact (proj1 (abort_deadline_bounds_fetch "/courses/42/pdf" (units "course.pdf") Hangs)
             eq_refl).
  - split; [reflexivity|].
    exact (proj2 (abort_deadline_bounds_fetch "/courses/42/pdf" (units "course.pdf")
                    stalled_body) eq_refl).
Defined.

(** ** Progress and payload *)

Lemma read_loop_received (total : option Z) (reads : list (Z * read_result))
    (t : session) :
  receivedLength t = length (concat (chunks t)) ->
  let t' := session_of (read_loop total reads t) in
  receivedLength t' = length (concat (chunks t'))
  /\ (receivedLength t <= receivedLength t')%nat.
Proof.
  revert t. induction reads as [|[delay r] reads IH]; intros t Ht; simpl.
  - split; [exact Ht|lia].
  - unfold await.
    destruct (abort_at t) as [due|]; [destruct (due <=? clock t + delay)|];
      simpl; try (split; [exact Ht|lia]).
    + destruct r as [value|m]; simpl; [|split; [exact Ht|lia]].
      match goal with |- context [read_loop total reads ?x] =>
        destruct (IH x) as [H1 H2] end.
      { simpl. rewrite concat_app, length_app. simpl.
        rewrite app_nil_r. rewrite Ht. reflexivity. }
      simpl in H2. split; [exact H1|lia].
    + destruct r as [value|m]; simpl; [|split; [exact Ht|lia]].
      match goal with |- context [read_loop total reads ?x] =>
        destruct (IH x) as [H1 H2] end.
      { simpl. rewrite concat_app, length_app. simpl.
        rewrite app_nil_r. rewrite Ht. reflexivity. }
      simpl in H2. split; [exact H1|lia].
Qed.

Lemma read_loop_silent (total : option Z) (reads : list (Z * read_result))
    (t : session) :
  known total = false ->
  emitted (session_of (read_loop total reads t)) = emitted t.
Proof.
  intros Hk. revert t. induction reads as [|[delay r] reads IH]; intros t; simpl.
  - reflexivity.
  - unfold await.
    assert (Hp : match total with
                 | Some n => if 0 <? n then [percent 0 n] else []
                 | None => []
                 end = @nil Z).
    { destruct total as [n|]; [|reflexivity]. simpl in Hk. rewrite Hk. reflexivity. }
    destruct (abort_at t) as [due|]; [destruct (due <=? clock t + delay)|];
      simpl; try reflexivity;
      (destruct r as [value|m]; simpl; [|reflexivity]);
      rewrite IH; simpl;
      (destruct total as [n|]; [simpl in Hk; rewrite Hk|]); apply app_nil_r.
Qed.

Lemma percent_mono (a b n : Z) : 0 < n -> a <= b -> percent a n <= percent b n.
Proof. intros Hn Hab. unfold percent. apply Z.div_le_mono; lia. Qed.

Lemma percent_full (n : Z) : 0 < n -> percent n n = 100.
Proof.
  intros Hn. unfold percent. symmetry.
  apply (Z.div_unique_pos _ _ 100 n); lia.
Qed.

Lemma percent_nonneg (a n : Z) : 0 < n -> 0 <= a -> 0 <= percent a n.
Proof. intros Hn Ha. unfold percent. apply Z.div_pos; lia. Qed.

Lemma read_loop_bounded (n : Z) (reads : list (Z * read_result)) (t : session) :
  0 < n ->
  Forall (fun p => 0 <= p <= percent (Z.of_nat (receivedLength t)) n) (emitted t) ->
  let t' := session_of (read_loop (Some n) reads t) in
  Forall (fun p => 0 <= p <= percent (Z.of_nat (receivedLength t')) n) (emitted t').
Proof.
  intros Hn. revert t.
  induction reads as [|[delay r] reads IH]; intros t Ht; simpl.
  - exact Ht.
  - assert (Hn' : (0 <? n) = true) by (apply Z.ltb_lt; exact Hn).
    assert (Hstep : forall value c a,
      Forall (fun p => 0 <= p <= percent (Z.of_nat (receivedLength
                 (Session c a (receivedLength t + length value)%nat
                    (chunks t ++ [value])
                    (emitted t ++ [percent (Z.of_nat (receivedLength t + length value)) n])))) n)
        (emitted (Session c a (receivedLength t + length value)%nat
                    (chunks t ++ [value])
                    (emitted t ++ [percent (Z.of_nat (receivedLength t + length value)) n])))).
    { intros value c a. simpl. apply Forall_app. split.
      - eapply Forall_impl; [exact Ht|]. simpl. intros p [Hp0 Hp]. split; [exact Hp0|].
        etransitivity; [exact Hp|]. apply percent_mono; lia.
      - constructor; [|constructor]. split; [apply percent_nonneg; lia|lia]. }
    unfold await.
    destruct (abort_at t) as [due|]; [destruct (due <=? clock t + delay)|];
      simpl; try exact Ht;
      (destruct r as [value|m]; simpl; [|exact Ht]);
      rewrite Hn'; apply IH; apply Hstep.
Qed.

Lemma copy_chunks_concat (cs : list (list byte)) (pre rest : list byte) :
  length rest = length (concat cs) ->
  copy_chunks cs (length pre) (pre ++ rest) = Some (pre ++ concat cs).
Proof.
  revert pre rest. induction cs as [|c cs IH]; intros pre rest Hlen; simpl in *.
  - destruct rest; [reflexivity|discriminate].
  - rewrite length_app in Hlen.
    unfold Uint8Array_set.
    assert (Hfit : (length pre + length c <=? length (pre ++ rest))%nat = true).
    { apply Nat.leb_le. rewrite length_app. lia. }
    rewrite Hfit.
    rewrite take_app_length.
    rewrite drop_app_add'; [|reflexivity].
    replace (pre ++ c ++ drop (length c) rest)
      with ((pre ++ c) ++ drop (length c) rest) by (rewrite <- app_assoc; reflexivity).
    replace (length pre + length c)%nat with (length (pre ++ c))
      by (rewrite length_app; reflexivity).
    rewrite IH.
    + rewrite <- app_assoc. reflexivity.
    + rewrite length_drop. lia.
Qed.

Lemma assemble_concat (t : session) :
  receivedLength t = length (concat (chunks t)) ->
  assemble t = Some (concat (chunks t)).
Proof.
  intros Ht. unfold assemble.
  apply (copy_chunks_concat (chunks t) [] (replicate (receivedLength t) Byte.x00)).
  rewrite length_replicate. exact Ht.
Qed.

(** The session and the file a call ends with, case by case. *)
Lemma final_of_download (url : string) (fallbackFilename : list Z) (delay : Z)
    (r : response) :
  final (downloadFileWithProgress url fallbackFilename (Responds delay r))
  = if ABORT_TIMEOUT_MS <=? delay then Session ABORT_TIMEOUT_MS None 0 [] []
    else if ok r then
      match body r with
      | Some reads =>
          session_of (read_loop (declaredTotal r) reads (Session delay None 0 [] []))
      | None => Session delay None 0 [] []
      end
    else Session delay None 0 [] [].
Proof.
  unfold downloadFileWithProgress. rewrite await_start.
  destruct (ABORT_TIMEOUT_MS <=? delay); [reflexivity|].
  unfold clearTimeout; simpl.
  destruct (ok r); simpl; [|reflexivity].
  destruct (body r) as [reads|]; [|reflexivity].
  destruct (read_loop _ _ _) as [[e t]|t]; simpl; [reflexivity|].
  destruct (assemble t); reflexivity.
Qed.

Lemma delivered_late (url : string) (fallbackFilename : list Z) (delay : Z)
    (r : response) :
  (ABORT_TIMEOUT_MS <=? delay) = true ->
  delivered (downloadFileWithProgress url fallbackFilename (Responds delay r)) = None.
Proof.
  intros E. unfold downloadFileWithProgress. rewrite await_start, E. reflexivity.
Qed.

Lemma delivered_not_ok (url : string) (fallbackFilename : list Z) (delay : Z)
    (r : response) :
  ok r = false ->
  delivered (downloadFileWithProgress url fallbackFilename (Responds delay r)) = None.
Proof.
  intros E. unfold downloadFileWithProgress. rewrite await_start.
  destruct (ABORT_TIMEOUT_MS <=? delay); [reflexivity|].
  simpl. rewrite E. reflexivity.
Qed.

Lemma delivered_no_body (url : string) (fallbackFilename : list Z) (delay : Z)
    (r : response) :
  body r = None ->
  delivered (downloadFileWithProgress url fallbackFilename (Responds delay r)) = None.
Proof.
  intros E. unfold downloadFileWithProgress. rewrite await_start.
  destruct (ABORT_TIMEOUT_MS <=? delay); [reflexivity|].
  simpl. destruct (ok r); [|reflexivity]. simpl. rewrite E. reflexivity.
Qed.

Lemma delivered_of_download (url : string) (fallbackFilename : list Z) (delay : Z)
    (r : response) (reads : list (Z * read_result)) :
  (ABORT_TIMEOUT_MS <=? delay) = false -> ok r = true -> body r = Some reads ->
  delivered (downloadFileWithProgress url fallbackFilename (Responds delay r))
  = match read_loop (declaredTotal r) reads (Session delay None 0 [] []) with
    | inl _ => None
    | inr t =>
        match assemble t with
        | Some allChunks =>
            Some (File (resolveFilename (content_disposition r) fallbackFilename)
                    match content_type r with
                    | None | Some EmptyString => "application/octet-stream"
                    | Some ty => ty
                    end allChunks)
        | None => None
        end
    end.
Proof.
  intros Ed Eok Eb. unfold downloadFileWithProgress. rewrite await_start, Ed.
  unfold clearTimeout; simpl. rewrite Eok, Eb. simpl.
  destruct (read_loop _ _ _) as [[e t]|t]; simpl; [reflexivity|].
  destruct (assemble t); reflexivity.
Qed.

(** C7, the claim as stated fails: the loop adds every chunk it is given and
    never compares the sum with the declared size.  With 250 bytes declared
    and 500 delivered, 500 bytes are received and the progress reaches 200. *)
Lemma received_exceeds_declared :
  let o := downloadFileWithProgress "/courses/42/pdf" (units "course.pdf") oversized in
  returned o = true
  /\ declaredTotal (pptx (Some "250") None []) = Some 250
  /\ receivedLength (final o) = 500%nat
  /\ emitted (final o) = [100; 200].
Proof. vm_compute. repeat split; reflexivity. Qed.

(** C7, amended.  A percentage is emitted only when the declared size is
    positive: with no [content-length] header, or one that does not parse to
    a positive number, none is emitted.  The assembled payload is the
    concatenation of the chunks received, so its size is the number of bytes
    received whatever was declared.  When the bytes received do not exceed a
    positive declared size, every emitted percentage lies between 0 and
    100. *)
Theorem progress_needs_declared_size
    (url : string) (fallbackFilename : list Z) (delay : Z) (r : response) :
  let o := downloadFileWithProgress url fallbackFilename (Responds delay r) in
  (known (declaredTotal r) = false -> emitted (final o) = [])
  /\ (content_length r = None -> emitted (final o) = [])
  /\ (forall f, delivered o = Some f ->
        f_bytes f = concat (chunks (final o))
        /\ length (f_bytes f) = receivedLength (final o))
  /\ (forall n, declaredTotal r = Some n -> 0 < n ->
        Z.of_nat (receivedLength (final o)) <= n ->
        Forall (fun p => 0 <= p <= 100) (emitted (final o))).
Proof.
  intros o. subst o.
  rewrite final_of_download.
  destruct (ABORT_TIMEOUT_MS <=? delay) eqn:Ed.
  { rewrite delivered_late by exact Ed. simpl. repeat split; auto; discriminate. }
  destruct (ok r) eqn:Eok; simpl.
  2: { rewrite delivered_not_ok by exact Eok. repeat split; auto; discriminate. }
  destruct (body r) as [reads|] eqn:Eb; simpl.
  2: { rewrite delivered_no_body by exact Eb. repeat split; auto; discriminate. }
  set (t0 := Session delay None 0 [] []).
  destruct (read_loop_received (declaredTotal r) reads t0 eq_refl) as [Hrec _].
  pose proof (read_loop_silent (declaredTotal r) reads t0) as Hsilent.
  split; [|split; [|split]].
  - intros Hk. rewrite (Hsilent Hk). reflexivity.
  - intros Hc. rewrite Hsilent; [reflexivity|].
    unfold declaredTotal. rewrite Hc. reflexivity.
  - intros f Hf.
    rewrite (delivered_of_download url fallbackFilename delay r reads Ed Eok Eb) in Hf.
    fold t0 in Hf.
    destruct (read_loop (declaredTotal r) reads t0) as [[e t]|t]; simpl in *;
      [discriminate|].
    rewrite (assemble_concat t Hrec) in Hf. simpl in Hf.
    inversion Hf; subst; simpl. split; [reflexivity|]. symmetry. exact Hrec.
  - intros n Hn Hpos Hle. rewrite Hn in *.
    pose proof (read_loop_bounded n reads t0 Hpos ltac:(constructor)) as Hb.
    simpl in Hb. eapply Forall_impl; [exact Hb|].
    simpl. intros p [Hp0 Hp]. split; [exact Hp0|].
    etransitivity; [exact Hp|].
    rewrite <- (percent_full n Hpos). apply percent_mono; [exact Hpos|].
    exact Hle.
Qed.

(** The two transfers of the specification: four quarters of a declared
    1000 bytes report 25, 50, 75, 100; without a declared size nothing is
    reported and the payload still has the 1000 bytes received. *)
Lemma progress_needs_declared_size_witness :
  emitted (final (downloadFileWithProgress "/courses/42/pdf" (units "course.pdf")
                    four_parts)) = [25; 50; 75; 100]
  /\ emitted (final (downloadFileWithProgress "/courses/42/pdf" (units "course.pdf")
                       four_parts_unsized)) = []
  /\ (length <$> (f_bytes <$> delivered
        (downloadFileWithProgress "/courses/42/pdf" (units "course.pdf")
           four_parts_unsized))) = Some 1000%nat.
Proof.
  split; [vm_compute; reflexivity|]. split.
  - exact (proj1 (proj2 (progress_needs_declared_size "/courses/42/pdf"
                           (units "course.pdf") 120
                           (pptx None None
                              [(40, Chunk quarter); (40, Chunk quarter);
                               (40, Chunk quarter); (40, Chunk quarter)]))) eq_refl).
  - vm_compute. reflexivity.
Defined.

(** ** File names *)

Lemma match_extended_cons (a : ascii) (h : string) :
  match_extended (String a h)
  = match strip_prefix_ci "filename*=utf-8''" (String a h) with
    | Some rest =>
        match take_while ext_value_char rest with
        | EmptyString => match_extended h
        | v => Some v
        end
    | None => match_extended h
    end.
Proof. reflexivity. Qed.

Lemma match_quoted_cons (a : ascii) (h : string) :
  match_quoted (String a h)
  = match strip_prefix_ci ("filename=" +:+ dquote) (String a h) with
    | Some rest =>
        match take_while (fun a => negb (is_quote a)) rest,
              drop_while (fun a => negb (is_quote a)) rest with
        | String a v, String _ _ => Some (String a v)
        | _, _ => match_quoted h
        end
    | None => match_quoted h
    end.
Proof. reflexivity. Qed.

(** What the first expression captures: after some occurrence of the
    parameter name, the longest run of value characters, not empty. *)
Lemma match_extended_sound (h v : string) :
  match_extended h = Some v ->
  exists pre rest tail,
    h = pre +:+ rest
    /\ strip_prefix_ci "filename*=utf-8''" rest = Some tail
    /\ v = take_while ext_value_char tail
    /\ v <> EmptyString.
Proof.
  induction h as [|a h IH]; [discriminate|].
  rewrite match_extended_cons.
  destruct (strip_prefix_ci _ (String a h)) as [tail|] eqn:Ep.
  - destruct (take_while ext_value_char tail) as [|b w] eqn:Ev.
    + intros Hm. destruct (IH Hm) as (pre & rest & tl & -> & H1 & H2 & H3).
      exists (String a pre), rest, tl. auto.
    + intros Hm. inversion Hm; subst.
      exists EmptyString, (String a h), tail.
      repeat split; auto; discriminate.
  - intros Hm. destruct (IH Hm) as (pre & rest & tl & -> & H1 & H2 & H3).
    exists (String a pre), rest, tl. auto.
Qed.

(** What the second expression captures: after some occurrence of the
    parameter name and an opening quote, the characters up to the next
    quote, not empty. *)
Lemma match_quoted_sound (h v : string) :
  match_quoted h = Some v ->
  exists pre rest tail closing,
    h = pre +:+ rest
    /\ strip_prefix_ci ("filename=" +:+ dquote) rest = Some tail
    /\ v = take_while (fun a => negb (is_quote a)) tail
    /\ v <> EmptyString
    /\ drop_while (fun a => negb (is_quote a)) tail = closing
    /\ closing <> EmptyString.
Proof.
  induction h as [|a h IH]; [discriminate|].
  rewrite match_quoted_cons.
  assert (Hrec : match_quoted h = Some v ->
    exists pre rest tail closing,
      String a h = pre +:+ rest
      /\ strip_prefix_ci ("filename=" +:+ dquote) rest = Some tail
      /\ v = take_while (fun a => negb (is_quote a)) tail
      /\ v <> EmptyString
      /\ drop_while (fun a => negb (is_quote a)) tail = closing
      /\ closing <> EmptyString).
  { intros Hm. destruct (IH Hm) as (pre & rest & tl & cl & -> & H).
    exists (String a pre), rest, tl, cl. split; [reflexivity|exact H]. }
  destruct (strip_prefix_ci _ (String a h)) as [tail|] eqn:Ep; [|exact Hrec].
  destruct (take_while _ tail) as [|b w] eqn:Ev; [exact Hrec|].
  destruct (drop_while _ tail) as [|c cl] eqn:Ed; [exact Hrec|].
  intros Hm. inversion Hm; subst.
  exists EmptyString, (String a h), tail, (String c cl).
  repeat split; auto; discriminate.
Qed.

(** *** The matches, from what the header contains *)

Lemma chars_app (a b : string) : chars (a +:+ b) = chars a ++ chars b.
Proof. induction a as [|c a IH]; simpl; [reflexivity|]. rewrite IH. reflexivity. Qed.

Lemma lacks_app (c : Z) (a b : string) :
  lacks c (a +:+ b) = lacks c a && lacks c b.
Proof. unfold lacks. rewrite chars_app. apply forallb_app. Qed.

Lemma fold_case_not_letter (b : ascii) (c : Z) :
  ~ (97 <= c <= 122) -> fold_case b = c -> code b = c.
Proof.
  unfold fold_case. intros Hc.
  destruct ((65 <=? code b) && (code b <=? 90)) eqn:E; [|auto].
  apply andb_prop in E as [E1 E2]. apply Z.leb_le in E1, E2. lia.
Qed.

(** A match of the prefix puts, at every index, a code unit that folds to
    the one of the pattern. *)
Lemma strip_prefix_ci_nth (p : string) :
  forall (s t : string), strip_prefix_ci p s = Some t ->
    forall (i : nat) (a : ascii), chars p !! i = Some a ->
      exists b, chars s !! i = Some b /\ code a = fold_case b.
Proof.
  induction p as [|a0 p IH]; intros s t Hs i a Hi; [destruct i; discriminate|].
  destruct s as [|b0 s]; [discriminate|]. simpl in Hs.
  destruct (code a0 =? fold_case b0) eqn:E; [|discriminate].
  apply Z.eqb_eq in E.
  destruct i as [|i]; simpl in *.
  - inversion Hi; subst. exists b0. auto.
  - exact (IH s t Hs i a Hi).
Qed.

Lemma strip_prefix_ci_app (p q rest : string) :
  folded q = units p -> strip_prefix_ci p (q +:+ rest) = Some rest.
Proof.
  revert q. induction p as [|a p IH]; intros q Hq.
  - destruct q; [reflexivity|discriminate].
  - destruct q as [|b q]; [discriminate|]. unfold folded in Hq. simpl in Hq.
    injection Hq as Hb Hq. simpl. rewrite <- Hb, Z.eqb_refl. apply IH. exact Hq.
Qed.

Lemma units_chars (s : string) : units s = List.map code (chars s).
Proof. induction s as [|a s IH]; simpl; [reflexivity|]. rewrite IH. reflexivity. Qed.

Lemma lacks_nth (c : Z) (s : string) (i : nat) (b : ascii) :
  lacks c s = true -> chars s !! i = Some b -> code b <> c.
Proof.
  unfold lacks. intros Hl Hi. rewrite forallb_forall in Hl.
  apply list_elem_of_lookup_2 in Hi. apply list_elem_of_In in Hi.
  specialize (Hl b Hi). apply negb_true_iff in Hl. apply Z.eqb_neq in Hl. exact Hl.
Qed.

(** The pattern [p] has the code unit [c], not a letter, at index [k] and
    not before.  In a header that begins with a part without [c], not
    empty, followed by an occurrence of the pattern, no match starts at
    the first code unit. *)
Lemma no_earlier_match (p : string) (k : nat) (c : Z) (cc : ascii)
    (pre q x : string) :
  chars p !! k = Some cc -> code cc = c -> ~ (97 <= c <= 122) ->
  (forall j a, (j < k)%nat -> chars p !! j = Some a -> code a <> c) ->
  pre <> EmptyString -> lacks c pre = true -> folded q = units p ->
  strip_prefix_ci p (pre +:+ q +:+ x) = None.
Proof.
  intros Hk Hcc Hc Hbefore Hpre Hl Hq.
  destruct (strip_prefix_ci p (pre +:+ q +:+ x)) as [t|] eqn:E; [exfalso|reflexivity].
  destruct (strip_prefix_ci_nth p _ t E k cc Hk) as (b & Hb & Hfold).
  assert (Hcode : code b = c)
    by (apply fold_case_not_letter; [exact Hc|congruence]).
  rewrite !chars_app in Hb.
  destruct (Nat.lt_ge_cases k (length (chars pre))) as [Hlt|Hge].
  - rewrite lookup_app_l in Hb by exact Hlt.
    exact (lacks_nth c pre k b Hl Hb Hcode).
  - rewrite lookup_app_r in Hb by exact Hge.
    assert (Hlen : length (chars q) = length (chars p)).
    { apply (f_equal (@length Z)) in Hq. unfold folded in Hq.
      rewrite units_chars, !length_map in Hq. exact Hq. }
    assert (Hkp : (k < length (chars p))%nat) by (eapply lookup_lt_Some; exact Hk).
    assert (Hpos : (0 < length (chars pre))%nat)
      by (destruct pre; [congruence|simpl; lia]).
    set (j := (k - length (chars pre))%nat) in *.
    rewrite lookup_app_l in Hb by lia.
    assert (Hqj : folded q !! j = Some (fold_case b))
      by (unfold folded; rewrite list_lookup_fmap, Hb; reflexivity).
    rewrite Hq, units_chars, list_lookup_fmap in Hqj.
    destruct (chars p !! j) as [a|] eqn:Ea; [|discriminate].
    simpl in Hqj. injection Hqj as Hqj.
    apply (Hbefore j a); [lia|exact Ea|]. congruence.
Qed.

Lemma take_while_app (f : ascii -> bool) (v rest : string) :
  all_chars f v = true ->
  match rest with EmptyString => true | String a _ => negb (f a) end = true ->
  take_while f (v +:+ rest) = v /\ drop_while f (v +:+ rest) = rest.
Proof.
  intros Hv Hr. induction v as [|a v IH]; simpl.
  - destruct rest as [|b rest]; [split; reflexivity|].
    simpl. apply negb_true_iff in Hr. rewrite Hr. split; reflexivity.
  - unfold all_chars in Hv. simpl in Hv. apply andb_prop in Hv as [Ha Hv].
    rewrite Ha. destruct (IH Hv) as [H1 H2]. rewrite H1, H2. split; reflexivity.
Qed.

Lemma folded_nonempty (p q : string) :
  p <> EmptyString -> folded q = units p -> exists b q', q = String b q'.
Proof.
  intros Hp Hq. destruct q as [|b q']; [|eauto].
  destruct p; [congruence|discriminate].
Qed.

Lemma extended_prefix_star :
  forall j a, (j < 8)%nat -> chars "filename*=utf-8''" !! j = Some a -> code a <> STAR.
Proof.
  intros j a Hj Ha.
  do 8 (destruct j as [|j]; [inversion Ha; subst; vm_compute; discriminate|]). lia.
Qed.

Lemma quoted_prefix_quote :
  forall j a, (j < 9)%nat -> chars ("filename=" +:+ dquote) !! j = Some a ->
    code a <> QUOTE.
Proof.
  intros j a Hj Ha.
  do 9 (destruct j as [|j]; [inversion Ha; subst; vm_compute; discriminate|]). lia.
Qed.

(** The leftmost match of the first expression, in a header whose part
    before the parameter has no asterisk. *)
Lemma match_extended_leftmost (pre q v rest : string) :
  lacks STAR pre = true ->
  folded q = units "filename*=utf-8''" ->
  v <> EmptyString -> all_chars ext_value_char v = true -> ends_value rest = true ->
  match_extended (pre +:+ q +:+ v +:+ rest) = Some v.
Proof.
  intros Hpre Hq Hv Hall Hend.
  destruct (folded_nonempty "filename*=utf-8''" q ltac:(discriminate) Hq) as (b & q' & Eq).
  induction pre as [|a pre IH].
  - assert (E1 : "" +:+ q +:+ v +:+ rest = String b (q' +:+ v +:+ rest))
      by (rewrite Eq; reflexivity).
    rewrite E1, match_extended_cons, <- E1.
    change ("" +:+ q +:+ v +:+ rest) with (q +:+ v +:+ rest).
    rewrite (strip_prefix_ci_app _ q (v +:+ rest) Hq).
    destruct (take_while_app ext_value_char v rest Hall Hend) as [Ht _].
    rewrite Ht. destruct v; [congruence|reflexivity].
  - assert (E1 : String a pre +:+ q +:+ v +:+ rest
                 = String a (pre +:+ q +:+ v +:+ rest)) by reflexivity.
    rewrite E1, match_extended_cons, <- E1.
    rewrite (no_earlier_match "filename*=utf-8''" 8 STAR "*" (String a pre) q
               (v +:+ rest) eq_refl eq_refl ltac:(unfold STAR; lia)
               extended_prefix_star ltac:(discriminate) Hpre Hq).
    apply IH. unfold lacks in *. simpl in Hpre. apply andb_prop in Hpre as [_ H].
    exact H.
Qed.

(** The leftmost match of the second expression, in a header whose part
    before the parameter has no double quote. *)
Lemma match_quoted_leftmost (pre q name rest : string) :
  lacks QUOTE pre = true ->
  folded q = units ("filename=" +:+ dquote) ->
  name <> EmptyString -> lacks QUOTE name = true ->
  match_quoted (pre +:+ q +:+ name +:+ dquote +:+ rest) = Some name.
Proof.
  intros Hpre Hq Hn Hname.
  destruct (folded_nonempty ("filename=" +:+ dquote) q ltac:(discriminate) Hq)
    as (b & q' & Eq).
  assert (Hall : all_chars (fun a => negb (is_quote a)) name = true) by exact Hname.
  destruct (take_while_app (fun a => negb (is_quote a)) name (dquote +:+ rest) Hall
              eq_refl) as [Ht Hd].
  induction pre as [|a pre IH].
  - assert (E1 : "" +:+ q +:+ name +:+ dquote +:+ rest
                 = String b (q' +:+ name +:+ dquote +:+ rest))
      by (rewrite Eq; reflexivity).
    rewrite E1, match_quoted_cons, <- E1.
    change ("" +:+ q +:+ name +:+ dquote +:+ rest)
      with (q +:+ name +:+ dquote +:+ rest).
    rewrite (strip_prefix_ci_app _ q (name +:+ dquote +:+ rest) Hq).
    rewrite Ht, Hd. destruct name; [congruence|reflexivity].
  - assert (E1 : String a pre +:+ q +:+ name +:+ dquote +:+ rest
                 = String a (pre +:+ q +:+ name +:+ dquote +:+ rest)) by reflexivity.
    rewrite E1, match_quoted_cons, <- E1.
    rewrite (no_earlier_match ("filename=" +:+ dquote) 9 QUOTE (ascii_of_nat 34)
               (String a pre) q (name +:+ dquote +:+ rest) eq_refl eq_refl
               ltac:(unfold QUOTE; lia) quoted_prefix_quote ltac:(discriminate) Hpre Hq).
    apply IH. unfold lacks in *. simpl in Hpre. apply andb_prop in Hpre as [_ H].
    exact H.
Qed.

(** Without the code unit that a pattern has at index [k], no match. *)
Lemma strip_prefix_ci_lacks (p : string) (k : nat) (c : Z) (cc : ascii) (s : string) :
  chars p !! k = Some cc -> code cc = c -> ~ (97 <= c <= 122) ->
  lacks c s = true -> strip_prefix_ci p s = None.
Proof.
  intros Hk Hcc Hc Hl.
  destruct (strip_prefix_ci p s) as [t|] eqn:E; [exfalso|reflexivity].
  destruct (strip_prefix_ci_nth p s t E k cc Hk) as (b & Hb & Hfold).
  apply (lacks_nth c s k b Hl Hb). apply fold_case_not_letter; [exact Hc|congruence].
Qed.

Lemma match_extended_none (h : string) :
  lacks STAR h = true -> match_extended h = None.
Proof.
  induction h as [|a h IH]; intros Hl; [reflexivity|].
  rewrite match_extended_cons.
  rewrite (strip_prefix_ci_lacks "filename*=utf-8''" 8 STAR "*" (String a h)
             eq_refl eq_refl ltac:(unfold STAR; lia) Hl).
  apply IH. unfold lacks in *. simpl in Hl. apply andb_prop in Hl as [_ H]. exact H.
Qed.

Lemma match_quoted_none (h : string) :
  lacks QUOTE h = true -> match_quoted h = None.
Proof.
  induction h as [|a h IH]; intros Hl; [reflexivity|].
  rewrite match_quoted_cons.
  rewrite (strip_prefix_ci_lacks ("filename=" +:+ dquote) 9 QUOTE (ascii_of_nat 34)
             (String a h) eq_refl eq_refl ltac:(unfold QUOTE; lia) Hl).
  apply IH. unfold lacks in *. simpl in Hl. apply andb_prop in Hl as [_ H]. exact H.
Qed.

(** *** Decoding what has no escape *)

Lemma unescape_literal (a : ascii) (s : string) :
  code a <> PERCENT ->
  unescape (String a s)
  = match unescape s with
    | Some r => Some (Lit (code a) :: r)
    | None => None
    end.
Proof.
  intros Ha.
  destruct a as [[] [] [] [] [] [] [] []]; try reflexivity.
  exfalso. apply Ha. reflexivity.
Qed.

Lemma decodeURIComponent_plain (v : string) :
  lacks PERCENT v = true -> decodeURIComponent v = Some (units v).
Proof.
  unfold decodeURIComponent. intros Hl.
  assert (Hu : unescape v = Some (List.map Lit (units v))).
  { induction v as [|a v IH]; [reflexivity|].
    unfold lacks in Hl. simpl in Hl. apply andb_prop in Hl as [Ha Hl].
    apply negb_true_iff, Z.eqb_neq in Ha.
    rewrite (unescape_literal a v Ha), (IH Hl). reflexivity. }
  rewrite Hu. clear Hu Hl. induction (units v) as [|c l IH]; [reflexivity|].
  simpl. rewrite IH. reflexivity.
Qed.

(** *** Having a parameter *)

Lemma strip_prefix_ci_inv (p : string) :
  forall (s t : string), strip_prefix_ci p s = Some t ->
    exists q, s = q +:+ t /\ folded q = units p.
Proof.
  induction p as [|a p IH]; intros s t Hs.
  - simpl in Hs. inversion Hs; subst. exists EmptyString. split; reflexivity.
  - destruct s as [|b s]; [discriminate|]. simpl in Hs.
    destruct (code a =? fold_case b) eqn:E; [|discriminate].
    apply Z.eqb_eq in E. destruct (IH s t Hs) as (q & -> & Hq).
    exists (String b q). split; [reflexivity|].
    unfold folded in *. simpl. rewrite Hq, E. reflexivity.
Qed.

Lemma take_drop_while (f : ascii -> bool) (s : string) :
  s = take_while f s +:+ drop_while f s
  /\ all_chars f (take_while f s) = true
  /\ match drop_while f s with
     | EmptyString => true
     | String a _ => negb (f a)
     end = true.
Proof.
  induction s as [|a s (IH1 & IH2 & IH3)]; [repeat split|].
  cbn [take_while drop_while]. destruct (f a) eqn:E.
  - split; [|split; [|exact IH3]].
    + change (String a (take_while f s) +:+ drop_while f s)
        with (String a (take_while f s +:+ drop_while f s)).
      f_equal. exact IH1.
    + unfold all_chars in *. simpl. rewrite E. exact IH2.
  - simpl. rewrite E. repeat split.
Qed.

Lemma code_inj (a b : ascii) : code a = code b -> a = b.
Proof.
  unfold code. intros H. apply N2Z.inj in H.
  rewrite <- (ascii_N_embedding a), <- (ascii_N_embedding b), H. reflexivity.
Qed.

Lemma match_extended_has (h v : string) :
  match_extended h = Some v ->
  exists pre q rest,
    h = pre +:+ q +:+ v +:+ rest
    /\ folded q = units "filename*=utf-8''"
    /\ v <> EmptyString /\ all_chars ext_value_char v = true
    /\ ends_value rest = true.
Proof.
  intros Hm.
  destruct (match_extended_sound h v Hm) as (pre & r & tail & -> & Hs & -> & Hne).
  destruct (strip_prefix_ci_inv _ _ _ Hs) as (q & -> & Hq).
  destruct (take_drop_while ext_value_char tail) as (H1 & H2 & H3).
  exists pre, q, (drop_while ext_value_char tail).
  rewrite <- H1. repeat split; assumption.
Qed.

Lemma has_extended_iff (h : string) :
  has_extended h <-> exists v, match_extended h = Some v.
Proof.
  split.
  - intros (pre & q & a & tail & -> & Hq & Ha).
    destruct (folded_nonempty "filename*=utf-8''" q ltac:(discriminate) Hq)
      as (b & q' & Eq).
    induction pre as [|c pre IH].
    + assert (E1 : "" +:+ q +:+ String a tail = String b (q' +:+ String a tail))
        by (rewrite Eq; reflexivity).
      rewrite E1, match_extended_cons, <- E1.
      change ("" +:+ q +:+ String a tail) with (q +:+ String a tail).
      rewrite (strip_prefix_ci_app _ q (String a tail) Hq). simpl. rewrite Ha.
      eexists. reflexivity.
    + assert (E1 : String c pre +:+ q +:+ String a tail
                   = String c (pre +:+ q +:+ String a tail)) by reflexivity.
      rewrite E1, match_extended_cons.
      destruct (strip_prefix_ci _ _) as [r|]; [|exact IH].
      destruct (take_while ext_value_char r) as [|x w]; [exact IH|].
      eexists. reflexivity.
  - intros (v & Hm).
    destruct (match_extended_sound h v Hm) as (pre & r & tail & -> & Hs & -> & Hne).
    destruct (strip_prefix_ci_inv _ _ _ Hs) as (q & -> & Hq).
    destruct tail as [|a tail]; [simpl in Hne; congruence|].
    simpl in Hne. destruct (ext_value_char a) eqn:Ea; [|congruence].
    exists pre, q, a, tail. repeat split; assumption.
Qed.

Lemma has_quoted_iff (h : string) :
  has_quoted h <-> exists v, match_quoted h = Some v.
Proof.
  split.
  - intros (pre & q & name & rest & -> & Hq & Hn & Hname).
    destruct (folded_nonempty ("filename=" +:+ dquote) q ltac:(discriminate) Hq)
      as (b & q' & Eq).
    assert (Hall : all_chars (fun a => negb (is_quote a)) name = true) by exact Hname.
    destruct (take_while_app (fun a => negb (is_quote a)) name (dquote +:+ rest) Hall
                eq_refl) as [Ht Hd].
    induction pre as [|c pre IH].
    + assert (E1 : "" +:+ q +:+ name +:+ dquote +:+ rest
                   = String b (q' +:+ name +:+ dquote +:+ rest))
        by (rewrite Eq; reflexivity).
      rewrite E1, match_quoted_cons, <- E1.
      change ("" +:+ q +:+ name +:+ dquote +:+ rest)
        with (q +:+ name +:+ dquote +:+ rest).
      rewrite (strip_prefix_ci_app _ q (name +:+ dquote +:+ rest) Hq), Ht, Hd.
      destruct name; [congruence|]. eexists. reflexivity.
    + assert (E1 : String c pre +:+ q +:+ name +:+ dquote +:+ rest
                   = String c (pre +:+ q +:+ name +:+ dquote +:+ rest)) by reflexivity.
      rewrite E1, match_quoted_cons.
      destruct (strip_prefix_ci _ _) as [r|]; [|exact IH].
      destruct (take_while _ r) as [|x w]; [exact IH|].
      destruct (drop_while _ r) as [|y z]; [exact IH|].
      eexists. reflexivity.
  - intros (v & Hm).
    destruct (match_quoted_sound h v Hm)
      as (pre & r & tail & closing & -> & Hs & -> & Hne & Hd & Hc).
    destruct (strip_prefix_ci_inv _ _ _ Hs) as (q & -> & Hq).
    destruct (take_drop_while (fun a => negb (is_quote a)) tail) as (H1 & H2 & H3).
    rewrite Hd in H1, H3.
    destruct closing as [|a cl]; [congruence|].
    apply negb_true_iff, negb_false_iff in H3. unfold is_quote in H3.
    apply Z.eqb_eq in H3.
    assert (Ea : a = ascii_of_nat 34) by (apply code_inj; rewrite H3; reflexivity).
    subst a.
    exists pre, q, (take_while (fun a => negb (is_quote a)) tail), cl.
    split; [rewrite H1 at 1; reflexivity|]. repeat split; assumption.
Qed.

Lemma resolveFilename_cases (h : string) (fallbackFilename : list Z) :
  h <> EmptyString ->
  resolveFilename (Some h) fallbackFilename
  = match match_extended h with
    | Some v => default fallbackFilename (decodeURIComponent v)
    | None => match match_quoted h with
              | Some name => units name
              | None => fallbackFilename
              end
    end.
Proof.
  intros Hh. destruct h as [|a h]; [congruence|].
  unfold resolveFilename.
  destruct (match_extended (String a h)) as [v|]; [|reflexivity].
  destruct (decodeURIComponent v); reflexivity.
Qed.

Lemma app_nonempty (a b : string) : b <> EmptyString -> a +:+ b <> EmptyString.
Proof. intros Hb. destruct a; [exact Hb|discriminate]. Qed.

Lemma app_nonempty_l (a b : string) : a <> EmptyString -> a +:+ b <> EmptyString.
Proof. intros Ha. destruct a; [congruence|discriminate]. Qed.




(** ** How a download ends *)

Lemma read_loop_inr_received (total : option Z) (reads : list (Z * read_result))
    (t t' : session) :
  receivedLength t = length (concat (chunks t)) ->
  read_loop total reads t = inr t' ->
  receivedLength t' = length (concat (chunks t')).
Proof.
  intros Ht Hr. pose proof (read_loop_received total reads t Ht) as [H _].
  rewrite Hr in H. exact H.
Qed.

Lemma read_loop_errors (total : option Z) (reads : list (Z * read_result)) :
  forall t e t', read_loop total reads t = inl (e, t') ->
    e = Aborted \/ exists m, e = StreamFailed m.
Proof.
  induction reads as [|[delay r] reads IH]; intros t e t' H; simpl in H; [discriminate|].
  destruct (await delay t) as [ta|ts]; [inversion H; auto|].
  destruct r as [value|m]; [|inversion H; eauto].
  exact (IH _ _ _ H).
Qed.

(** X6.  Up to the hand-over of the file, a download ends in one of two
    ways and nothing in between: it returns true, raises no error and hands
    over a file, or it returns false, raises one error and hands over
    nothing.  The buffer the chunks are copied into always has room for
    them, so assembling never fails.  The URL asked for is the normalised
    one in both cases.  (The [onSuccess] callback runs after the hand-over
    and is taken not to throw.) *)
Theorem download_is_all_or_nothing
    (url : string) (fallbackFilename : list Z) (net : fetch_result) :
  let o := downloadFileWithProgress url fallbackFilename net in
  requested o = resolveUrl url
  /\ (returned o = true /\ failure o = None /\ (exists f, delivered o = Some f)
      \/ returned o = false /\ (exists e, failure o = Some e) /\ delivered o = None)
  /\ failure o <> Some RangeError.
Proof.
  unfold downloadFileWithProgress.
  destruct net as [delay r|delay m|]; rewrite ?await_start.
  - destruct (ABORT_TIMEOUT_MS <=? delay).
    { simpl. split; [reflexivity|]. split; [right; eauto|discriminate]. }
    unfold clearTimeout; simpl.
    destruct (ok r); simpl.
    2: { split; [reflexivity|]. split; [right; eauto|discriminate]. }
    destruct (body r) as [reads|].
    2: { split; [reflexivity|]. split; [right; eauto|discriminate]. }
    match goal with |- context [read_loop ?tot reads ?t] =>
      pose proof (read_loop_inr_received tot reads t) as Hrec;
      pose proof (read_loop_errors tot reads t) as Herr;
      destruct (read_loop tot reads t) as [[e t']|t'] end.
    + simpl. split; [reflexivity|]. split; [right; eauto|].
      intros H. inversion H; subst.
      destruct (Herr _ _ eq_refl) as [He|[m He]]; discriminate.
    + rewrite (assemble_concat t' (Hrec t' eq_refl eq_refl)). simpl.
      split; [reflexivity|]. split; [left; eauto|discriminate].
  - destruct (ABORT_TIMEOUT_MS <=? delay); simpl;
      (split; [reflexivity|]; split; [right; eauto|discriminate]).
  - simpl. split; [reflexivity|]. split; [right; eauto|discriminate].
Qed.

(** Reading a run of chunks with the abort timeout cleared. *)
Lemma read_loop_chunks (total : option Z) (parts : list (Z * list byte))
    (rest : list (Z * read_result)) :
  forall t, abort_at t = None ->
    exists em,
      read_loop total (chunk_reads parts ++ rest) t
      = read_loop total rest
          (Session (clock t + total_delay parts) None
             (receivedLength t + length (concat (List.map snd parts)))
             (chunks t ++ List.map snd parts) (emitted t ++ em))
      /\ length em = if known total then length parts else 0%nat.
Proof.
  induction parts as [|[d v] parts IH]; intros t Ht.
  - exists []. simpl. unfold total_delay. simpl.
    rewrite Z.add_0_r, Nat.add_0_r, !app_nil_r.
    destruct t as [c a n cs em]; simpl in *; subst. split; [reflexivity|].
    destruct (known total); reflexivity.
  - simpl. rewrite (await_unarmed d t Ht). cbn [clock abort_at receivedLength chunks emitted].
    match goal with |- context [read_loop total (chunk_reads parts ++ rest) ?x] =>
      destruct (IH x eq_refl) as (em & Heq & Hlen) end.
    rewrite Heq. cbn [clock abort_at receivedLength chunks emitted].
    eexists. split.
    + f_equal. unfold total_delay. simpl. fold (total_delay parts).
      rewrite length_app, <- !app_assoc. simpl.
      f_equal; try lia; try reflexivity.
    + rewrite length_app, Hlen. unfold known.
      destruct total as [n|]; [|reflexivity].
      destruct (0 <? n); reflexivity.
Qed.

Lemma start_in_time (delay : Z) :
  delay < ABORT_TIMEOUT_MS -> (ABORT_TIMEOUT_MS <=? delay) = false.
Proof. intros H. apply Z.leb_gt. exact H. Qed.

(** X7.  When the response head arrives before the abort deadline with an
    ok status and every read of the body gives a chunk, the download
    succeeds however long the reads take: the file handed over holds the
    bytes of the chunks in the order read, named as the headers and the
    fallback resolve and typed by the content-type header, or
    [application/octet-stream] when that header is absent or empty.  One
    percentage per chunk is reported when the declared size is positive,
    none otherwise.  (The [onSuccess] callback runs after the hand-over and
    is taken not to throw.) *)
Theorem complete_body_is_delivered_in_order
    (url : string) (fallbackFilename : list Z) (delay : Z) (r : response)
    (parts : list (Z * list byte)) :
  delay < ABORT_TIMEOUT_MS ->
  ok r = true ->
  body r = Some (chunk_reads parts) ->
  let o := downloadFileWithProgress url fallbackFilename (Responds delay r) in
  returned o = true
  /\ failure o = None
  /\ delivered o
     = Some (File (resolveFilename (content_disposition r) fallbackFilename)
               match content_type r with
               | None | Some EmptyString => "application/octet-stream"
               | Some ty => ty
               end
               (concat (List.map snd parts)))
  /\ clock (final o) = delay + total_delay parts
  /\ length (emitted (final o))
     = if known (declaredTotal r) then length parts else 0%nat.
Proof.
  intros Hd Hok Hb o. subst o. apply start_in_time in Hd.
  destruct (read_loop_chunks (declaredTotal r) parts [] (Session delay None 0 [] []) eq_refl)
    as (em & Heq & Hlen).
  rewrite app_nil_r in Heq. simpl in Heq.
  assert (Hasm : assemble (Session (delay + total_delay parts) None
                             (length (concat (List.map snd parts)))
                             (List.map snd parts) em)
                 = Some (concat (List.map snd parts)))
    by (apply assemble_concat; reflexivity).
  unfold downloadFileWithProgress. rewrite await_start, Hd.
  unfold clearTimeout; simpl. rewrite Hok, Hb. simpl.
  rewrite Heq, Hasm. simpl. repeat split. exact Hlen.
Qed.

Lemma complete_body_is_delivered_in_order_witness :
  let o := downloadFileWithProgress "/courses/42/slides/pptx"
             (units "course_42_slides.pptx") uneven_parts in
  returned o = true
  /\ (length <$> (f_bytes <$> delivered o)) = Some 1000%nat
  /\ clock (final o) = 245
  /\ length (emitted (final o)) = 4%nat.
Proof.
  destruct (complete_body_is_delivered_in_order "/courses/42/slides/pptx"
              (units "course_42_slides.pptx") 120
              (pptx (Some "1000") None
                 (chunk_reads [(40, quarter); (40, quarter ++ quarter); (5, []);
                               (40, quarter)]))
              [(40, quarter); (40, quarter ++ quarter); (5, []); (40, quarter)]
              ltac:(reflexivity) eq_refl eq_refl) as (H1 & _ & H3 & H4 & H5).
  unfold uneven_parts.
  split; [exact H1|]. split; [rewrite H3; reflexivity|].
  split; [exact H4|exact H5].
Defined.

(** X8.  When a read of the body fails, the download fails with the error
    of that read: it returns false and hands over no file, though the
    chunks read before were received, and the reads after the failing one
    are not made. *)
Theorem failed_read_delivers_nothing
    (url : string) (fallbackFilename : list Z) (delay : Z) (r : response)
    (parts : list (Z * list byte)) (d : Z) (msg : string)
    (rest : list (Z * read_result)) :
  delay < ABORT_TIMEOUT_MS ->
  ok r = true ->
  body r = Some (chunk_reads parts ++ (d, ReadFails msg) :: rest) ->
  let o := downloadFileWithProgress url fallbackFilename (Responds delay r) in
  returned o = false
  /\ failure o = Some (StreamFailed msg)
  /\ delivered o = None
  /\ chunks (final o) = List.map snd parts
  /\ receivedLength (final o) = length (concat (List.map snd parts))
  /\ clock (final o) = delay + total_delay parts + d.
Proof.
  intros Hd Hok Hb o. subst o. apply start_in_time in Hd.
  destruct (read_loop_chunks (declaredTotal r) parts ((d, ReadFails msg) :: rest)
              (Session delay None 0 [] []) eq_refl) as (em & Heq & _).
  simpl in Heq.
  unfold downloadFileWithProgress. rewrite await_start, Hd.
  unfold clearTimeout; simpl. rewrite Hok, Hb. simpl.
  rewrite Heq. simpl. repeat split.
Qed.

Lemma failed_read_delivers_nothing_witness :
  let o := downloadFileWithProgress "/courses/42/slides/pptx"
             (units "course_42_slides.pptx") broken_body in
  returned o = false
  /\ failure o = Some (StreamFailed "network error")
  /\ delivered o = None
  /\ receivedLength (final o) = 500%nat
  /\ clock (final o) = 215.
Proof.
  destruct (failed_read_delivers_nothing "/courses/42/slides/pptx"
              (units "course_42_slides.pptx") 120
              (pptx (Some "1000") None
                 (chunk_reads [(40, quarter); (40, quarter)]
                  ++ [(15, ReadFails "network error"); (40, Chunk quarter)]))
              [(40, quarter); (40, quarter)] 15 "network error" [(40, Chunk quarter)]
              ltac:(reflexivity) eq_refl eq_refl) as (H1 & H2 & H3 & _ & H5 & H6).
  repeat split; assumption.
Defined.

(** ** Progress never goes back *)

Lemma nondecreasing_snoc (l : list Z) (x : Z) :
  nondecreasing l = true -> Forall (fun p => p <= x) l -> nondecreasing (l ++ [x]) = true.
Proof.
  induction l as [|a l IH]; intros Hs Hb; [reflexivity|].
  inversion Hb as [|? ? Ha Hl]; subst.
  destruct l as [|b l].
  - simpl. rewrite andb_true_r. apply Z.leb_le. exact Ha.
  - simpl in Hs. apply andb_true_iff in Hs as [Hab Hs].
    change (nondecreasing ((a :: b :: l) ++ [x]))
      with ((a <=? b) && nondecreasing ((b :: l) ++ [x])).
    rewrite Hab. simpl andb. apply IH; assumption.
Qed.

Lemma read_loop_progress (n : Z) (reads : list (Z * read_result)) :
  0 < n ->
  forall t, progress_inv n t -> progress_inv n (session_of (read_loop (Some n) reads t)).
Proof.
  intros Hn. assert (Hn' : (0 <? n) = true) by (apply Z.ltb_lt; exact Hn).
  induction reads as [|[delay r] reads IH]; intros t Ht; simpl; [exact Ht|].
  assert (Hstep : forall value c a,
    progress_inv n
      (Session c a (receivedLength t + length value)%nat (chunks t ++ [value])
         (emitted t ++ [percent (Z.of_nat (receivedLength t + length value)) n]))).
  { intros value c a. destruct Ht as (Hs & Hb & _). unfold progress_inv. simpl.
    assert (Hb' : Forall (fun p => p <= percent (Z.of_nat (receivedLength t + length value)) n)
                    (emitted t)).
    { eapply Forall_impl; [exact Hb|]. simpl. intros p Hp.
      etransitivity; [exact Hp|]. apply percent_mono; lia. }
    split; [apply nondecreasing_snoc; assumption|]. split.
    - apply Forall_app. split; [exact Hb'|]. constructor; [lia|constructor].
    - right. apply last_snoc. }
  assert (Hsame : forall c a,
    progress_inv n (Session c a (receivedLength t) (chunks t) (emitted t))).
  { intros c a. exact Ht. }
  unfold await.
  destruct (abort_at t) as [due|]; [destruct (due <=? clock t + delay)|];
    simpl; try apply Hsame;
    (destruct r as [value|m]; simpl; [|apply Hsame]);
    rewrite Hn'; apply IH; apply Hstep.
Qed.

(** X9.  The percentages a download reports never decrease, whatever the
    sizes of the chunks and whatever size was declared; and when the bytes
    received add up to a positive declared size, the last percentage
    reported is 100. *)
Theorem progress_never_goes_back
    (url : string) (fallbackFilename : list Z) (net : fetch_result) :
  let o := downloadFileWithProgress url fallbackFilename net in
  nondecreasing (emitted (final o)) = true
  /\ (forall delay r n,
        net = Responds delay r -> declaredTotal r = Some n -> 0 < n ->
        Z.of_nat (receivedLength (final o)) = n ->
        last (emitted (final o)) = Some 100).
Proof.
  intros o. subst o.
  destruct net as [delay r|delay m|].
  2: { unfold downloadFileWithProgress. rewrite await_start.
       destruct (ABORT_TIMEOUT_MS <=? delay); simpl; split;
         try reflexivity; intros; discriminate. }
  2: { simpl. split; [reflexivity|]. intros; discriminate. }
  rewrite final_of_download.
  assert (Hnone : nondecreasing (@nil Z) = true
                  /\ (forall (delay0 : Z) (r0 : response) (n : Z),
                        Responds delay r = Responds delay0 r0 ->
                        declaredTotal r0 = Some n -> 0 < n ->
                        Z.of_nat 0 = n -> last (@nil Z) = Some 100)).
  { split; [reflexivity|]. intros ? ? n _ _ Hpos H0. simpl in H0. lia. }
  destruct (ABORT_TIMEOUT_MS <=? delay); [exact Hnone|].
  destruct (ok r); [|exact Hnone].
  destruct (body r) as [reads|]; [|exact Hnone].
  set (t0 := Session delay None 0 [] []).
  destruct (known (declaredTotal r)) eqn:Hk.
  - destruct (declaredTotal r) as [n|] eqn:Hn; [|discriminate].
    simpl in Hk. apply Z.ltb_lt in Hk.
    assert (H0 : progress_inv n t0).
    { unfold progress_inv. simpl. split; [reflexivity|]. split; [constructor|].
      left. split; reflexivity. }
    destruct (read_loop_progress n reads Hk t0 H0) as (Hs & _ & Hlast).
    split; [exact Hs|].
    intros delay0 r0 n' Heq Hn' Hpos Hrec. inversion Heq; subst r0 delay0.
    rewrite Hn in Hn'. injection Hn' as <-.
    destruct Hlast as [[_ Hz]|Hlast]; [rewrite Hz in Hrec; simpl in Hrec; lia|].
    rewrite Hlast, Hrec, (percent_full n Hk). reflexivity.
  - rewrite (read_loop_silent (declaredTotal r) reads t0 Hk). simpl.
    split; [reflexivity|].
    intros delay0 r0 n Heq Hn Hpos _. inversion Heq; subst r0 delay0.
    rewrite Hn in Hk. simpl in Hk. apply Z.ltb_ge in Hk. lia.
Qed.

Lemma progress_never_goes_back_witness :
  let o := downloadFileWithProgress "/courses/42/slides/pptx"
             (units "course_42_slides.pptx") uneven_parts in
  emitted (final o) = [25; 75; 75; 100]
  /\ nondecreasing (emitted (final o)) = true
  /\ last (emitted (final o)) = Some 100.
Proof.
  destruct (progress_never_goes_back "/courses/42/slides/pptx"
              (units "course_42_slides.pptx") uneven_parts) as [H1 H2].
  split; [vm_compute; reflexivity|]. split; [exact H1|].
  apply (H2 _ _ 1000 eq_refl); [reflexivity|lia|vm_compute; reflexivity].
Defined.

(** ** The URL that is fetched *)

Lemma startsWith_api (url : string) :
  Js.startsWith "/api/" url = true ->
  exists rest, url = "/api/" +:+ rest.
Proof.
  destruct url as [|a1 [|a2 [|a3 [|a4 [|a5 rest]]]]]; cbn [Js.startsWith];
    try discriminate;
    try (destruct (Ascii.eqb _ _); discriminate).
  all: destruct (Ascii.eqb "/" a1) eqn:E1; try discriminate.
  all: try (destruct (Ascii.eqb "a" a2) eqn:E2; try discriminate).
  all: try (destruct (Ascii.eqb "p" a3) eqn:E3; try discriminate).
  all: try (destruct (Ascii.eqb "i" a4) eqn:E4; try discriminate).
  destruct (Ascii.eqb "/" a5) eqn:E5; try discriminate.
  apply Ascii.eqb_eq in E1, E2, E3, E4, E5. subst. intros _. exists rest. reflexivity.
Qed.

(** X10.  An absolute URL is fetched as it is.  Any other goes through the
    API proxy: it is fetched under [/api/], at the very URL to which
    [startTask] of the task hook posts the same path, and normalising it a
    second time changes nothing. *)
Theorem relative_downloads_go_through_the_proxy (url : string) :
  (isAbsolute url = true -> resolveUrl url = url)
  /\ (isAbsolute url = false ->
      resolveUrl url = Orchestrator.apiUrl url
      /\ Js.startsWith "/api/" (resolveUrl url) = true)
  /\ resolveUrl (resolveUrl url) = resolveUrl url.
Proof.
  assert (Hrel : isAbsolute url = false ->
                 resolveUrl url = Orchestrator.apiUrl url
                 /\ Js.startsWith "/api/" (resolveUrl url) = true).
  { intros Ha. unfold isAbsolute in Ha. unfold resolveUrl, Orchestrator.apiUrl.
    rewrite Ha.
    destruct (Js.startsWith "/api/" url) eqn:E.
    - destruct (startsWith_api url E) as [rest ->]. split; reflexivity.
    - destruct (Js.startsWith "/" url) eqn:E1; [|split; reflexivity].
      destruct (OrchestratorFacts.startsWith_slash url E1) as [rest ->].
      split; reflexivity. }
  split; [|split; [exact Hrel|]].
  - intros Ha. unfold isAbsolute in Ha. unfold resolveUrl. rewrite Ha. reflexivity.
  - destruct (isAbsolute url) eqn:Ha.
    + unfold isAbsolute in Ha. unfold resolveUrl at 2. rewrite Ha.
      unfold resolveUrl. rewrite Ha. reflexivity.
    + destruct (Hrel eq_refl) as [_ Hu].
      destruct (startsWith_api _ Hu) as [rest Hr]. rewrite Hr. reflexivity.
Qed.

Lemma relative_downloads_go_through_the_proxy_witness :
  resolveUrl "courses/42/slides/pdf" = "/api/courses/42/slides/pdf"
  /\ resolveUrl "/api/courses/42/slides/pdf" = "/api/courses/42/slides/pdf"
  /\ resolveUrl "https://cdn.example.org/a.pdf" = "https://cdn.example.org/a.pdf".
Proof.
  split; [|split].
  - rewrite (proj1 (proj1 (proj2 (relative_downloads_go_through_the_proxy
                                    "courses/42/slides/pdf")) eq_refl)).
    reflexivity.
  - rewrite (proj1 (proj1 (proj2 (relative_downloads_go_through_the_proxy
                                    "/api/courses/42/slides/pdf")) eq_refl)).
    reflexivity.
  - exact (proj1 (relative_downloads_go_through_the_proxy
                    "https://cdn.example.org/a.pdf") eq_refl).
Defined.

End DownloadFacts.

Module ExecutorFacts.
Import Executor.
Local Open Scope list_scope.

(** ** The request key *)

(** C5, the claim as stated fails: stripping the prefix keeps the slash that
    follows it, so [/api/x] is keyed as [/x], and the bare [x] is not. *)
Lemma api_path_and_bare_path_keys_differ :
  requestKey get "/api/x" = "get:/x"
  /\ requestKey get "x" = "get:x"
  /\ requestKey get "/api/x" <> requestKey get "x".
Proof. repeat split; try reflexivity. discriminate. Qed.

(** C5, amended.  The key is computed from the path with a leading [/api]
    removed and the slash after it kept: for every method, [/api/p] and
    [/p] have the same key, the method name followed by [:/p] (for a [/p]
    that does not itself begin with [/api/]). *)
Theorem api_prefix_is_stripped_before_keying (m : method) (p : string) :
  Js.startsWith "/api/" ("/" +:+ p) = false ->
  requestKey m ("/api/" +:+ p) = requestKey m ("/" +:+ p)
  /\ requestKey m ("/api/" +:+ p) = method_name m +:+ ":/" +:+ p.
Proof.
  intros Hp. unfold requestKey, cleanUrl. rewrite Hp.
  split; reflexivity.
Qed.

Lemma api_prefix_is_stripped_before_keying_witness :
  requestKey post "/api/courses/42/plan" = requestKey post "/courses/42/plan"
  /\ requestKey post "/api/courses/42/plan" = "post:/courses/42/plan".
Proof.
  exact (api_prefix_is_stripped_before_keying post "courses/42/plan" eq_refl).
Defined.

(** ** Retries *)

Section Retry.

Variable maxRetries : nat.
Variable retryDelay : Z.
Variable debounceTime : Z.
Variable onError : bool.
Variable net : nat -> Z * net_result.

Local Abbreviation attempt := (attempt retryDelay debounceTime onError net).
Local Abbreviation executeRequest :=
  (executeRequest maxRetries retryDelay debounceTime onError net).
Local Abbreviation replied := (replied net).

Lemma replied_calls m url cfg s :
  calls (replied m url cfg s) = calls s ++ [Call (now s) m (cleanUrl url) cfg].
Proof. reflexivity. Qed.

Lemma replied_now m url cfg s :
  now (replied m url cfg s) = now s + fst (net (length (calls s))).
Proof. reflexivity. Qed.

Lemma replied_waits m url cfg s : waits (replied m url cfg s) = waits s.
Proof. reflexivity. Qed.

(** The source's equation: a call that is neither throttled nor skipped as
    a duplicate issues the request, and on failure retries while
    [retryCount < maxRetries]. *)
Lemma attempt_sent (budget : nat) m url cfg (retryCount : nat) (s : exec) :
  throttled debounceTime (requestKey m url) retryCount s = false ->
  duplicate (requestKey m url) retryCount s = false ->
  attempt budget m url cfg retryCount s
  = match snd (net (length (calls s))) with
    | NetOk r => (Some r, settle_ok (requestKey m url) (replied m url cfg s))
    | NetError msg =>
        match budget with
        | S budget' =>
            let res := attempt budget' m url cfg (S retryCount)
                         (before_retry retryDelay (replied m url cfg s)) in
            (fst res, set_isLoading false (snd res))
        | O => (None, report_failure onError (requestKey m url) msg (replied m url cfg s))
        end
    end.
Proof.
  intros Ht Hd. destruct budget; simpl;
    change (throttled debounceTime (requestKey m url) retryCount
              (set_error None (set_isLoading true s)))
      with (throttled debounceTime (requestKey m url) retryCount s);
    change (duplicate (requestKey m url) retryCount
              (set_error None (set_isLoading true s)))
      with (duplicate (requestKey m url) retryCount s);
    rewrite Ht, Hd; reflexivity.
Qed.

Lemma retry_not_throttled (key : string) (retryCount : nat) (s : exec) :
  throttled debounceTime key (S retryCount) s = false
  /\ duplicate key (S retryCount) s = false.
Proof. unfold throttled, duplicate. simpl. rewrite !andb_false_r. auto. Qed.

Lemma executeRequest_eq m url cfg (retryCount : nat) (s : exec) :
  throttled debounceTime (requestKey m url) retryCount s = false ->
  duplicate (requestKey m url) retryCount s = false ->
  executeRequest m url cfg retryCount s
  = match snd (net (length (calls s))) with
    | NetOk r => (Some r, settle_ok (requestKey m url) (replied m url cfg s))
    | NetError msg =>
        if (retryCount <? maxRetries)%nat then
          let res := executeRequest m url cfg (S retryCount)
                       (before_retry retryDelay (replied m url cfg s)) in
          (fst res, set_isLoading false (snd res))
        else (None, report_failure onError (requestKey m url) msg (replied m url cfg s))
    end.
Proof.
  intros Ht Hd. unfold Executor.executeRequest.
  rewrite (attempt_sent _ _ _ _ _ _ Ht Hd).
  destruct (snd (net (length (calls s)))); [reflexivity|].
  destruct (retryCount <? maxRetries)%nat eqn:E.
  - apply Nat.ltb_lt in E.
    replace (maxRetries - retryCount)%nat with (S (maxRetries - S retryCount)) by lia.
    reflexivity.
  - apply Nat.ltb_ge in E.
    replace (maxRetries - retryCount)%nat with 0%nat by lia.
    reflexivity.
Qed.

(** Calls are only ever added, at most one per attempt. *)
Lemma attempt_calls (budget : nat) m url cfg (retryCount : nat) (s : exec) :
  exists more,
    calls (snd (attempt budget m url cfg retryCount s)) = calls s ++ more
    /\ (length more <= S budget)%nat.
Proof.
  revert retryCount s. induction budget as [|budget IH]; intros retryCount s.
  - simpl.
    destruct (throttled _ _ _ _); [exists []; simpl; rewrite app_nil_r; split; [reflexivity|lia]|].
    destruct (duplicate _ _ _); [exists []; simpl; rewrite app_nil_r; split; [reflexivity|lia]|].
    destruct (snd (net _)); simpl;
      (eexists; split; [reflexivity|simpl; lia]) ||
      (destruct onError; simpl; eexists; (split; [reflexivity|simpl; lia])).
  - simpl.
    destruct (throttled _ _ _ _); [exists []; simpl; rewrite app_nil_r; split; [reflexivity|lia]|].
    destruct (duplicate _ _ _); [exists []; simpl; rewrite app_nil_r; split; [reflexivity|lia]|].
    destruct (snd (net _)); simpl; [eexists; split; [reflexivity|simpl; lia]|].
    match goal with |- context [Executor.attempt _ _ _ _ budget m url cfg (S retryCount) ?x] =>
      destruct (IH (S retryCount) x) as (more & Hm & Hl) end.
    rewrite Hm. simpl. rewrite <- app_assoc.
    eexists; split; [reflexivity|]. simpl. lia.
Qed.

Lemma settle_ok_clears (key : string) (s : exec) :
  isPending key (settle_ok key s) = false.
Proof. unfold isPending, settle_ok. simpl. rewrite lookup_insert_eq. reflexivity. Qed.

End Retry.

(** C4.  A fresh call that is let through (neither throttled nor skipped as
    a duplicate) and whose first two attempts fail while the third succeeds
    returns the response of the third, having made exactly three underlying
    calls, each retry starting [retryDelay] ms after the failure before it,
    and leaves the key no longer pending; this needs [maxRetries] to be at
    least 2, as the default 3 is.  Whatever the network does, a call makes
    at most [maxRetries + 1] underlying calls counting from attempt 0, and a
    retry ([retryCount > 0]) always issues its request: the throttle and
    duplicate checks do not apply to it. *)
Theorem retry_until_third_attempt
    (maxRetries : nat) (retryDelay debounceTime : Z) (onError : bool)
    (net : nat -> Z * net_result)
    (m : method) (url : string) (cfg : config) (s : exec)
    (l1 l2 l3 : Z) (e1 e2 : string) (r : response) :
  (2 <= maxRetries)%nat ->
  throttled debounceTime (requestKey m url) 0 s = false ->
  duplicate (requestKey m url) 0 s = false ->
  net (length (calls s)) = (l1, NetError e1) ->
  net (S (length (calls s))) = (l2, NetError e2) ->
  net (S (S (length (calls s)))) = (l3, NetOk r) ->
  let res := executeRequest maxRetries retryDelay debounceTime onError net m url cfg 0 s in
  (fst res = Some r
   /\ calls (snd res)
      = calls s
        ++ [Call (now s) m (cleanUrl url) cfg;
            Call (now s + l1 + retryDelay) m (cleanUrl url) cfg;
            Call (now s + l1 + retryDelay + l2 + retryDelay) m (cleanUrl url) cfg]
   /\ waits (snd res) = waits s ++ [retryDelay; retryDelay]
   /\ isPending (requestKey m url) (snd res) = false)
  /\ (forall retryCount s',
        (length (calls (snd (executeRequest maxRetries retryDelay debounceTime onError
                               net m url cfg retryCount s')))
         <= length (calls s') + S (maxRetries - retryCount))%nat)
  /\ (forall retryCount s',
        exists more,
          calls (snd (executeRequest maxRetries retryDelay debounceTime onError
                        net m url cfg (S retryCount) s'))
          = calls s' ++ Call (now s') m (cleanUrl url) cfg :: more).
Proof.
  intros Hmax Ht Hd H1 H2 H3 res. split; [|split].
  - subst res.
    destruct (retry_not_throttled debounceTime (requestKey m url) 0
                (before_retry retryDelay (replied net m url cfg s))) as [Ht1 Hd1].
    destruct (retry_not_throttled debounceTime (requestKey m url) 1
                (before_retry retryDelay
                   (replied net m url cfg
                      (before_retry retryDelay (replied net m url cfg s)))))
      as [Ht2 Hd2].
    rewrite (executeRequest_eq maxRetries retryDelay debounceTime onError net
               m url cfg 0 s Ht Hd).
    rewrite H1. simpl snd.
    replace (0 <? maxRetries)%nat with true by (symmetry; apply Nat.ltb_lt; lia).
    rewrite (executeRequest_eq maxRetries retryDelay debounceTime onError net
               m url cfg 1 _ Ht1 Hd1).
    assert (Hn1 : length (calls (before_retry retryDelay (replied net m url cfg s)))
                  = S (length (calls s))).
    { simpl. rewrite length_app. simpl. lia. }
    rewrite Hn1, H2. simpl snd.
    replace (1 <? maxRetries)%nat with true by (symmetry; apply Nat.ltb_lt; lia).
    rewrite (executeRequest_eq maxRetries retryDelay debounceTime onError net
               m url cfg 2 _ Ht2 Hd2).
    assert (Hn2 : length (calls (before_retry retryDelay
                     (replied net m url cfg
                        (before_retry retryDelay (replied net m url cfg s)))))
                  = S (S (length (calls s)))).
    { simpl. rewrite !length_app. simpl. lia. }
    rewrite Hn2, H3. simpl snd.
    cbv zeta. cbn [fst snd].
    split; [reflexivity|]. split; [|split].
    + simpl. rewrite !length_app. simpl. rewrite !Nat.add_1_r.
      rewrite H1, H2. simpl. rewrite <- !app_assoc. reflexivity.
    + simpl. rewrite <- app_assoc. reflexivity.
    + unfold isPending. simpl. rewrite lookup_insert_eq. reflexivity.
  - intros retryCount s'. unfold executeRequest.
    destruct (attempt_calls retryDelay debounceTime onError net
                (maxRetries - retryCount) m url cfg retryCount s') as (more & Hm & Hl).
    rewrite Hm, length_app. lia.
  - intros retryCount s'. unfold executeRequest.
    destruct (retry_not_throttled debounceTime (requestKey m url) retryCount s')
      as [Ht' Hd'].
    rewrite (attempt_sent retryDelay debounceTime onError net _ m url cfg
               (S retryCount) s' Ht' Hd').
    destruct (snd (net (length (calls s')))) as [r'|msg].
    + exists []. reflexivity.
    + destruct (maxRetries - S retryCount)%nat as [|b].
      * exists []. simpl. destruct onError; reflexivity.
      * cbv zeta. cbn [snd].
        destruct (attempt_calls retryDelay debounceTime onError net b m url cfg
                    (S (S retryCount))
                    (before_retry retryDelay (replied net m url cfg s')))
          as (more & Hm & _).
        exists more. simpl. simpl in Hm. rewrite Hm.
        rewrite <- app_assoc. reflexivity.
Qed.

(** The defaults of the hook, [maxRetries = 3] and [retryDelay = 1000], on a
    network that fails twice and then answers. *)
Lemma retry_until_third_attempt_witness :
  let res := executeRequest 3 1000 1000 false flaky get "/api/courses/42"
               no_config 0 (init 1700000000000) in
  fst res = Some (Response 200 "ok")
  /\ calls (snd res)
     = [Call 1700000000000 get "/courses/42" no_config;
        Call 1700000001040 get "/courses/42" no_config;
        Call 1700000002080 get "/courses/42" no_config]
  /\ waits (snd res) = [1000; 1000]
  /\ isPending "get:/courses/42" (snd res) = false.
Proof.
  exact (proj1 (retry_until_third_attempt 3 1000 1000 false flaky get
                  "/api/courses/42" no_config (init 1700000000000)
                  40 40 25 "Network Error" "Network Error" (Response 200 "ok")
                  ltac:(lia) eq_refl eq_refl eq_refl eq_refl eq_refl)).
Defined.

(** ** Debouncing *)

Section Debounce.

Variable maxRetries : nat.
Variable retryDelay : Z.
Variable debounceTime : Z.
Variable onError : bool.
Variable net : nat -> Z * net_result.

Local Abbreviation attempt := (attempt retryDelay debounceTime onError net).
Local Abbreviation executeRequest :=
  (executeRequest maxRetries retryDelay debounceTime onError net).
Local Abbreviation step := (step maxRetries retryDelay debounceTime onError net).
Local Abbreviation run := (run maxRetries retryDelay debounceTime onError net).

Lemma attempt_frame (budget : nat) m url cfg (retryCount : nat) (s : exec) :
  same_debounce s (snd (attempt budget m url cfg retryCount s)).
Proof.
  revert retryCount s. induction budget as [|budget IH]; intros retryCount s; simpl.
  - destruct (throttled _ _ _ _); [repeat split|].
    destruct (duplicate _ _ _); [repeat split|].
    destruct (snd (net _)); simpl; [repeat split|].
    unfold report_failure. destruct onError; repeat split.
  - destruct (throttled _ _ _ _); [repeat split|].
    destruct (duplicate _ _ _); [repeat split|].
    destruct (snd (net _)); simpl; [repeat split|].
    match goal with |- context [Executor.attempt _ _ _ _ budget m url cfg (S retryCount) ?x] =>
      destruct (IH (S retryCount) x) as (H1 & H2 & H3 & H4 & H5 & H6) end.
    unfold same_debounce. simpl. rewrite H1, H2, H3, H4, H5, H6. repeat split.
Qed.

Lemma executeRequest_frame m url cfg (retryCount : nat) (s : exec) :
  same_debounce s (snd (executeRequest m url cfg retryCount s)).
Proof. apply attempt_frame. Qed.

(** What the callback of a timeout does to the debounce bookkeeping. *)
Lemma timeout_callback_spec (t : timer) (s : exec) :
  let s' := timeout_callback maxRetries retryDelay debounceTime onError net t s in
  let pre := set_executions (executions s ++ [(t_method t, t_url t, t_config t)]) s in
  timers s' = timers s
  /\ promises s'
     = <[t_promise t :=
           Resolved (fst (executeRequest (t_method t) (t_url t) (t_config t) 0 pre))]>
         (promises s)
  /\ next_promise s' = next_promise s
  /\ executions s' = executions s ++ [(t_method t, t_url t, t_config t)].
Proof.
  intros s' pre. subst s'. unfold timeout_callback. fold pre.
  destruct (executeRequest_frame (t_method t) (t_url t) (t_config t) 0 pre)
    as (H1 & H2 & H3 & H4 & H5 & H6).
  cbv zeta. cbn [timers promises next_promise executions set_promises].
  rewrite H1, H2, H3, H5. repeat split.
Qed.

Lemma Forall_filter_timers (P : timer -> Prop) (f : timer -> bool) (ts : list timer) :
  Forall P ts -> Forall P (List.filter f ts).
Proof.
  intros H. induction H as [|t ts Ht _ IH]; simpl; [constructor|].
  destruct (f t); [constructor; assumption|assumption].
Qed.

Lemma orphan_step (q : nat) (e : event) (s s' : exec) :
  orphan q s -> step e s = Some s' -> orphan q s'.
Proof.
  intros (Hq & Hlt & Hts) Hs. destruct e as [dt|id|m url cfg|m url cfg]; simpl in Hs.
  - destruct (_ && _); inversion Hs; subst. repeat split; assumption.
  - destruct (List.find _ _) as [t|] eqn:Hfind; [|discriminate].
    destruct (_ && _); inversion Hs; subst; clear Hs.
    apply List.find_some in Hfind as [Hin _].
    assert (Hne : t_promise t <> q).
    { rewrite Forall_forall in Hts. apply Hts. apply list_elem_of_In. exact Hin. }
    destruct (timeout_callback_spec t (clearTimeout id s)) as (H1 & H2 & H3 & _).
    unfold orphan. rewrite H1, H2, H3.
    rewrite lookup_insert_ne by exact Hne.
    repeat split; try assumption.
    apply Forall_filter_timers. exact Hts.
  - inversion Hs; subst; clear Hs. unfold debounce, orphan.
    destruct (debounceTimers s !! requestKey m url) as [id|]; simpl.
    + rewrite lookup_insert_ne by lia. repeat split; [assumption|lia|].
      apply Forall_app. split.
      * apply Forall_filter_timers. exact Hts.
      * constructor; [simpl; lia|constructor].
    + rewrite lookup_insert_ne by lia. repeat split; [assumption|lia|].
      apply Forall_app. split; [assumption|].
      constructor; [simpl; lia|constructor].
  - inversion Hs; subst; clear Hs. unfold direct.
    destruct (executeRequest_frame m url cfg 0 s) as (H1 & H2 & H3 & H4 & H5 & H6).
    unfold orphan. rewrite H1, H2, H3. repeat split; assumption.
Qed.

Lemma orphan_run (q : nat) (evs : list event) (s s' : exec) :
  orphan q s -> run evs s = Some s' -> orphan q s'.
Proof.
  revert s. induction evs as [|e evs IH]; intros s Ho Hrun; simpl in Hrun.
  - inversion Hrun; subst. exact Ho.
  - destruct (step e s) as [s1|] eqn:Hstep; [|discriminate].
    apply (IH s1); [|exact Hrun]. eapply orphan_step; eassumption.
Qed.

Lemma run_app (evs evs' : list event) (s : exec) :
  run (evs ++ evs') s
  = match run evs s with
    | Some s' => run evs' s'
    | None => None
    end.
Proof.
  revert s. induction evs as [|e evs IH]; intros s; simpl; [reflexivity|].
  destruct (step e s); [apply IH|reflexivity].
Qed.

End Debounce.


(** ** More on retries *)

Section MoreRetry.

Variable maxRetries : nat.
Variable retryDelay : Z.
Variable debounceTime : Z.
Variable onError : bool.
Variable net : nat -> Z * net_result.

Local Abbreviation attempt := (attempt retryDelay debounceTime onError net).
Local Abbreviation executeRequest :=
  (executeRequest maxRetries retryDelay debounceTime onError net).
Local Abbreviation replied := (replied net).
Local Abbreviation throttled := (throttled debounceTime).
Local Abbreviation before_retry := (before_retry retryDelay).

Local Abbreviation attempt_sent := (attempt_sent retryDelay debounceTime onError net).
Local Abbreviation retry_not_throttled := (retry_not_throttled debounceTime).

Lemma before_retry_calls m url cfg (s : exec) :
  length (calls (before_retry (replied m url cfg s))) = S (length (calls s)).
Proof. simpl. rewrite length_app. simpl. lia. Qed.

(** The first [k] attempts fail and the next one succeeds. *)
Lemma attempt_succeeds_after (k : nat) :
  forall (budget retryCount : nat) m url cfg (s : exec) (l : Z) (r : response),
    (k <= budget)%nat ->
    throttled (requestKey m url) retryCount s = false ->
    duplicate (requestKey m url) retryCount s = false ->
    (forall i, (i < k)%nat -> exists e, snd (net (length (calls s) + i)) = NetError e) ->
    net (length (calls s) + k) = (l, NetOk r) ->
    let res := attempt budget m url cfg retryCount s in
    fst res = Some r
    /\ length (calls (snd res)) = (length (calls s) + S k)%nat
    /\ waits (snd res) = waits s ++ replicate k retryDelay
    /\ isPending (requestKey m url) (snd res) = false
    /\ error (snd res) = None
    /\ reported (snd res) = reported s.
Proof.
  induction k as [|k IH]; intros budget retryCount m url cfg s l r Hk Ht Hd Hfail Hok res;
    subst res; rewrite (attempt_sent _ _ _ _ _ _ Ht Hd).
  - rewrite Nat.add_0_r in Hok. rewrite Hok. simpl.
    rewrite length_app, app_nil_r. simpl.
    unfold isPending. simpl. rewrite lookup_insert_eq.
    repeat split; try reflexivity; try lia.
  - destruct (Hfail 0%nat ltac:(lia)) as [e He]. rewrite Nat.add_0_r in He. rewrite He.
    destruct budget as [|budget]; [lia|].
    destruct (retry_not_throttled (requestKey m url) retryCount
                (before_retry (replied m url cfg s))) as [Ht' Hd'].
    specialize (IH budget (S retryCount) m url cfg
                  (before_retry (replied m url cfg s)) l r ltac:(lia) Ht' Hd').
    rewrite before_retry_calls in IH.
    destruct IH as (H1 & H2 & H3 & H4 & H5 & H6).
    + intros i Hi. replace (S (length (calls s)) + i)%nat
        with (length (calls s) + S i)%nat by lia. apply Hfail. lia.
    + replace (S (length (calls s)) + k)%nat
        with (length (calls s) + S k)%nat by lia. exact Hok.
    + cbv zeta. cbn [fst snd].
      split; [exact H1|]. split; [simpl; rewrite H2; lia|].
      split; [simpl; rewrite H3; simpl; rewrite <- app_assoc; reflexivity|].
      split; [exact H4|]. split; [exact H5|exact H6].
Qed.

(** Every attempt the budget allows fails. *)
Lemma attempt_exhausted (budget : nat) :
  forall (retryCount : nat) m url cfg (s : exec),
    throttled (requestKey m url) retryCount s = false ->
    duplicate (requestKey m url) retryCount s = false ->
    (forall i, (i <= budget)%nat ->
       exists e, snd (net (length (calls s) + i)) = NetError e) ->
    let res := attempt budget m url cfg retryCount s in
    fst res = None
    /\ length (calls (snd res)) = (length (calls s) + S budget)%nat
    /\ waits (snd res) = waits s ++ replicate budget retryDelay
    /\ isPending (requestKey m url) (snd res) = false
    /\ exists e, snd (net (length (calls s) + budget)) = NetError e
         /\ error (snd res) = Some e
         /\ reported (snd res) = reported s ++ (if onError then [e] else []).
Proof.
  induction budget as [|budget IH]; intros retryCount m url cfg s Ht Hd Hfail res;
    subst res; rewrite (attempt_sent _ _ _ _ _ _ Ht Hd);
    destruct (Hfail 0%nat ltac:(lia)) as [e He]; rewrite Nat.add_0_r in He; rewrite He.
  - rewrite Nat.add_0_r. unfold report_failure, isPending.
    destruct onError; simpl; rewrite length_app, lookup_insert_eq, ?app_nil_r; simpl;
      (repeat split; try reflexivity; try lia); exists e; repeat split; exact He.
  - destruct (retry_not_throttled (requestKey m url) retryCount
                (before_retry (replied m url cfg s))) as [Ht' Hd'].
    specialize (IH (S retryCount) m url cfg (before_retry (replied m url cfg s)) Ht' Hd').
    rewrite before_retry_calls in IH.
    destruct IH as (H1 & H2 & H3 & H4 & e' & H5 & H6 & H7).
    + intros i Hi. replace (S (length (calls s)) + i)%nat
        with (length (calls s) + S i)%nat by lia. apply Hfail. lia.
    + cbv zeta. cbn [fst snd].
      split; [exact H1|]. split; [simpl; rewrite H2; lia|].
      split; [simpl; rewrite H3; simpl; rewrite <- app_assoc; reflexivity|].
      split; [exact H4|]. exists e'.
      replace (length (calls s) + S budget)%nat
        with (S (length (calls s)) + budget)%nat by lia.
      split; [exact H5|]. split; [exact H6|exact H7].
Qed.

End MoreRetry.

(** X11.  A fresh call that is let through and whose first [k] attempts fail
    while the next one succeeds, for any [k] up to [maxRetries], returns the
    response of that attempt after exactly [k + 1] underlying calls and [k]
    waits of [retryDelay] each; the key is no longer pending, no error is
    stored and [onError] is not told. *)
Theorem retries_stop_at_first_success
    (maxRetries : nat) (retryDelay debounceTime : Z) (onError : bool)
    (net : nat -> Z * net_result)
    (m : method) (url : string) (cfg : config) (s : exec)
    (k : nat) (l : Z) (r : response) :
  (k <= maxRetries)%nat ->
  throttled debounceTime (requestKey m url) 0 s = false ->
  duplicate (requestKey m url) 0 s = false ->
  (forall i, (i < k)%nat -> exists e, snd (net (length (calls s) + i)%nat) = NetError e) ->
  net (length (calls s) + k)%nat = (l, NetOk r) ->
  let res := executeRequest maxRetries retryDelay debounceTime onError net m url cfg 0 s in
  fst res = Some r
  /\ length (calls (snd res)) = (length (calls s) + S k)%nat
  /\ waits (snd res) = waits s ++ replicate k retryDelay
  /\ isPending (requestKey m url) (snd res) = false
  /\ error (snd res) = None
  /\ reported (snd res) = reported s.
Proof.
  intros Hk Ht Hd Hfail Hok. unfold executeRequest.
  apply (attempt_succeeds_after retryDelay debounceTime onError net k
           (maxRetries - 0) 0 m url cfg s l r); try assumption. lia.
Qed.

Lemma retries_stop_at_first_success_witness :
  let res := executeRequest 3 1000 1000 true flaky post "/api/courses/42/plan"
               no_config 0 (init 1700000000000) in
  fst res = Some (Response 200 "ok")
  /\ length (calls (snd res)) = 3%nat
  /\ waits (snd res) = [1000; 1000]
  /\ reported (snd res) = [].
Proof.
  destruct (retries_stop_at_first_success 3 1000 1000 true flaky post
              "/api/courses/42/plan" no_config (init 1700000000000) 2 25
              (Response 200 "ok") ltac:(lia) eq_refl eq_refl) as (H1 & H2 & H3 & _ & _ & H6).
  - intros i Hi. exists "Network Error".
    destruct i as [|[|i]]; [reflexivity|reflexivity|lia].
  - reflexivity.
  - repeat split; assumption.
Defined.

(** X12.  When every attempt fails, a fresh call that is let through gives up
    after exactly [maxRetries + 1] underlying calls and [maxRetries] waits
    of [retryDelay] each: it returns null, stores an error, passes that
    error to [onError] once when there is one, and leaves the key no longer
    pending. *)
Theorem retries_give_up_after_budget
    (maxRetries : nat) (retryDelay debounceTime : Z) (onError : bool)
    (net : nat -> Z * net_result)
    (m : method) (url : string) (cfg : config) (s : exec) :
  throttled debounceTime (requestKey m url) 0 s = false ->
  duplicate (requestKey m url) 0 s = false ->
  (forall i, (i <= maxRetries)%nat ->
     exists e, snd (net (length (calls s) + i)%nat) = NetError e) ->
  let res := executeRequest maxRetries retryDelay debounceTime onError net m url cfg 0 s in
  fst res = None
  /\ length (calls (snd res)) = (length (calls s) + S maxRetries)%nat
  /\ waits (snd res) = waits s ++ replicate maxRetries retryDelay
  /\ isPending (requestKey m url) (snd res) = false
  /\ exists e, error (snd res) = Some e
       /\ reported (snd res) = reported s ++ (if onError then [e] else []).
Proof.
  intros Ht Hd Hfail. unfold executeRequest. rewrite Nat.sub_0_r.
  destruct (attempt_exhausted retryDelay debounceTime onError net maxRetries
              0 m url cfg s Ht Hd Hfail) as (H1 & H2 & H3 & H4 & e & _ & H5 & H6).
  cbv zeta. split; [exact H1|]. split; [exact H2|]. split; [exact H3|].
  split; [exact H4|]. exists e. split; [exact H5|exact H6].
Qed.

Lemma retries_give_up_after_budget_witness :
  let res := executeRequest 3 1000 1000 true down get "/api/courses"
               no_config 0 (init 1700000000000) in
  fst res = None
  /\ length (calls (snd res)) = 4%nat
  /\ waits (snd res) = [1000; 1000; 1000]
  /\ isPending "get:/courses" (snd res) = false.
Proof.
  destruct (retries_give_up_after_budget 3 1000 1000 true down get "/api/courses"
              no_config (init 1700000000000) eq_refl eq_refl
              ltac:(intros i _; exists "Network Error"; reflexivity))
    as (H1 & H2 & H3 & H4 & _).
  repeat split; assumption.
Defined.

(** ** The throttle window and the pending flag *)

Section Window.

Variable maxRetries : nat.
Variable retryDelay : Z.
Variable debounceTime : Z.
Variable onError : bool.
Variable net : nat -> Z * net_result.

Local Abbreviation attempt := (attempt retryDelay debounceTime onError net).
Local Abbreviation executeRequest :=
  (executeRequest maxRetries retryDelay debounceTime onError net).
Local Abbreviation direct := (direct maxRetries retryDelay debounceTime onError net).
Local Abbreviation replied := (replied net).
Local Abbreviation throttled := (throttled debounceTime).
Local Abbreviation before_retry := (before_retry retryDelay).
Local Abbreviation report_failure := (report_failure onError).

(** Where a call that is let through ends: the key is not pending, and its
    stamp is the time at which the last attempt was issued. *)
Lemma attempt_end (budget : nat) :
  forall m url cfg (retryCount : nat) (s : exec),
    throttled (requestKey m url) retryCount s = false ->
    duplicate (requestKey m url) retryCount s = false ->
    let s' := snd (attempt budget m url cfg retryCount s) in
    isPending (requestKey m url) s' = false
    /\ isLoading s' = false
    /\ exists c, last (calls s') = Some c
         /\ c_at c = lastRequestTime (requestKey m url) s'
         /\ c_method c = m /\ c_url c = cleanUrl url.
Proof.
  induction budget as [|budget IH]; intros m url cfg retryCount s Ht Hd s'; subst s';
    rewrite (attempt_sent retryDelay debounceTime onError net _ _ _ _ _ _ Ht Hd);
    destruct (snd (net (length (calls s)))) as [r|msg].
  - unfold isPending, lastRequestTime. simpl.
    rewrite last_snoc, !lookup_insert_eq. simpl.
    repeat split. eexists; repeat split.
  - unfold isPending, lastRequestTime, Executor.report_failure.
    destruct onError; simpl; rewrite last_snoc, !lookup_insert_eq; simpl;
      repeat split; eexists; repeat split.
  - unfold isPending, lastRequestTime. simpl.
    rewrite last_snoc, !lookup_insert_eq. simpl.
    repeat split. eexists; repeat split.
  - destruct (retry_not_throttled debounceTime (requestKey m url) retryCount
                (before_retry (replied m url cfg s))) as [Ht' Hd'].
    destruct (IH m url cfg (S retryCount) _ Ht' Hd') as (H1 & H2 & c & H3 & H4 & H5 & H6).
    cbv zeta. cbn [snd]. split; [exact H1|]. split; [reflexivity|].
    exists c. repeat split; assumption.
Qed.

(** A call touches the stamp and the pending flag of its own key only. *)
Lemma attempt_other_keys (budget : nat) :
  forall m url cfg (retryCount : nat) (s : exec) (key : string),
    key <> requestKey m url ->
    let s' := snd (attempt budget m url cfg retryCount s) in
    lastRequestTimes s' !! key = lastRequestTimes s !! key
    /\ pendingRequests s' !! key = pendingRequests s !! key.
Proof.
  induction budget as [|budget IH]; intros m url cfg retryCount s key Hk s'; subst s'; simpl.
  - destruct (Executor.throttled _ _ _ _); [split; reflexivity|].
    destruct (duplicate _ _ _); [split; reflexivity|].
    destruct (snd (net _)); simpl.
    + rewrite !lookup_insert_ne by congruence. split; reflexivity.
    + unfold Executor.report_failure.
      destruct onError; simpl; rewrite !lookup_insert_ne by congruence; split; reflexivity.
  - destruct (Executor.throttled _ _ _ _); [split; reflexivity|].
    destruct (duplicate _ _ _); [split; reflexivity|].
    destruct (snd (net _)); simpl.
    + rewrite !lookup_insert_ne by congruence. split; reflexivity.
    + match goal with
      |- context [Executor.attempt _ _ _ _ budget m url cfg (S retryCount) ?x] =>
        destruct (IH m url cfg (S retryCount) x key Hk) as [H1 H2] end.
      rewrite H1, H2. simpl. rewrite !lookup_insert_ne by congruence. split; reflexivity.
Qed.

(** A fresh call that is throttled or skipped. *)
Lemma attempt_dropped (budget : nat) m url cfg (s : exec) :
  throttled (requestKey m url) 0 s || duplicate (requestKey m url) 0 s = true ->
  attempt budget m url cfg 0 s
  = (None, set_isLoading false (set_error None (set_isLoading true s))).
Proof.
  intros H. destruct budget; simpl;
    change (Executor.throttled debounceTime (requestKey m url) 0
              (set_error None (set_isLoading true s)))
      with (throttled (requestKey m url) 0 s);
    change (duplicate (requestKey m url) 0 (set_error None (set_isLoading true s)))
      with (duplicate (requestKey m url) 0 s);
    destruct (throttled (requestKey m url) 0 s); try reflexivity;
    simpl in H; rewrite H; reflexivity.
Qed.

End Window.

Lemma method_name_colon_inj (m m' : method) (u u' : string) :
  getDebounceKey m u = getDebounceKey m' u' -> m = m' /\ u = u'.
Proof.
  unfold getDebounceKey.
  destruct m, m'; simpl; intros H; try discriminate; injection H; auto.
Qed.

(** X13.  After a fresh call that was let through has run to its end,
    whatever the network did, the key is not pending and carries the time
    at which the last attempt was issued.  A later fresh call to the same
    method and cleaned path that comes less than [debounceTime] ms after
    that time returns null without an underlying call and with the stored
    error cleared; one that comes [debounceTime] ms or more after it is
    issued. *)
Theorem repeated_call_is_dropped_inside_window
    (maxRetries : nat) (retryDelay debounceTime : Z) (onError : bool)
    (net : nat -> Z * net_result)
    (m : method) (url url' : string) (cfg cfg' : config) (s : exec) (dt : Z) :
  throttled debounceTime (requestKey m url) 0 s = false ->
  duplicate (requestKey m url) 0 s = false ->
  cleanUrl url' = cleanUrl url ->
  let s1 := snd (direct maxRetries retryDelay debounceTime onError net m url cfg s) in
  let s2 := elapse dt s1 in
  let res := direct maxRetries retryDelay debounceTime onError net m url' cfg' s2 in
  exists c,
    last (calls s1) = Some c /\ c_method c = m /\ c_url c = cleanUrl url
    /\ isPending (requestKey m url) s1 = false
    /\ (now s2 - c_at c < debounceTime ->
        fst res = None /\ calls (snd res) = calls s1 /\ error (snd res) = None)
    /\ (debounceTime <= now s2 - c_at c ->
        exists more,
          calls (snd res) = calls s1 ++ Call (now s2) m (cleanUrl url) cfg' :: more).
Proof.
  intros Ht Hd Hu s1 s2 res.
  assert (Hkey : requestKey m url' = requestKey m url)
    by (unfold requestKey; rewrite Hu; reflexivity).
  destruct (attempt_end retryDelay debounceTime onError net (maxRetries - 0)
              m url cfg 0 s Ht Hd) as (Hp & _ & c & Hl & Hat & Hm & Hc).
  fold (executeRequest maxRetries retryDelay debounceTime onError net m url cfg 0 s)
    in Hp, Hl, Hat.
  fold (direct maxRetries retryDelay debounceTime onError net m url cfg s) in Hp, Hl, Hat.
  fold s1 in Hp, Hl, Hat.
  exists c. split; [exact Hl|]. split; [exact Hm|]. split; [exact Hc|].
  split; [exact Hp|]. split.
  - intros Hin. subst res. unfold direct, executeRequest.
    rewrite attempt_dropped.
    + repeat split.
    + rewrite Hkey. unfold throttled.
      change (lastRequestTime (requestKey m url) s2)
        with (lastRequestTime (requestKey m url) s1).
      rewrite <- Hat. simpl Nat.eqb. rewrite andb_true_r.
      replace (now s2 - c_at c <? debounceTime) with true
        by (symmetry; apply Z.ltb_lt; exact Hin).
      reflexivity.
  - intros Hout. subst res. unfold direct, executeRequest.
    rewrite attempt_sent.
    + destruct (snd (net (length (calls s2)))) as [r|msg].
      * exists []. simpl. rewrite Hu. reflexivity.
      * destruct (maxRetries - 0)%nat as [|b].
        -- exists []. unfold report_failure. destruct onError; simpl; rewrite Hu; reflexivity.
        -- cbv zeta. cbn [snd].
           destruct (attempt_calls retryDelay debounceTime onError net b m url' cfg' 1
                       (before_retry retryDelay (replied net m url' cfg' s2)))
             as (more & Hmore & _).
           exists more. simpl. simpl in Hmore. rewrite Hmore, Hu.
           rewrite <- app_assoc. reflexivity.
    + rewrite Hkey. unfold throttled.
      change (lastRequestTime (requestKey m url) s2)
        with (lastRequestTime (requestKey m url) s1).
      rewrite <- Hat.
      replace (now s2 - c_at c <? debounceTime) with false
        by (symmetry; apply Z.ltb_ge; exact Hout).
      reflexivity.
    + rewrite Hkey. unfold duplicate.
      change (isPending (requestKey m url) s2) with (isPending (requestKey m url) s1).
      rewrite Hp. reflexivity.
Qed.

(** The defaults of the hook on a network that answers in 25 ms: the same
    request 500 ms after the first reply is dropped. *)
Lemma repeated_call_is_dropped_inside_window_witness :
  let s1 := snd (direct 3 1000 1000 true steady get "/api/courses/42/lessons" no_config
                   (init 1700000000000)) in
  let res := direct 3 1000 1000 true steady get "/courses/42/lessons" no_config
               (elapse 500 s1) in
  fst res = None /\ length (calls (snd res)) = 1%nat.
Proof.
  destruct (repeated_call_is_dropped_inside_window 3 1000 1000 true steady get
              "/api/courses/42/lessons" "/courses/42/lessons" no_config no_config
              (init 1700000000000) 500 eq_refl eq_refl eq_refl)
    as (c & Hl & _ & _ & _ & Hin & _).
  vm_compute in Hl. injection Hl as <-.
  destruct (Hin ltac:(vm_compute; reflexivity)) as (H1 & H2 & _).
  split; [exact H1|]. rewrite H2. reflexivity.
Defined.

(** X14.  Two requests have the same key exactly when they have the same
    method and the same cleaned path, and a call changes the time stamp and
    the pending flag of its own key only: a request of another method or
    path is throttled or skipped after it exactly as before it. *)
Theorem other_keys_are_left_alone
    (maxRetries : nat) (retryDelay debounceTime : Z) (onError : bool)
    (net : nat -> Z * net_result)
    (m m' : method) (url url' : string) (cfg : config) (retryCount : nat) (s : exec) :
  (requestKey m url = requestKey m' url' <-> m = m' /\ cleanUrl url = cleanUrl url')
  /\ (requestKey m' url' <> requestKey m url ->
      let s' := snd (executeRequest maxRetries retryDelay debounceTime onError net
                       m url cfg retryCount s) in
      lastRequestTime (requestKey m' url') s' = lastRequestTime (requestKey m' url') s
      /\ isPending (requestKey m' url') s' = isPending (requestKey m' url') s
      /\ forall dt n,
           throttled debounceTime (requestKey m' url') n (elapse dt s')
           = throttled debounceTime (requestKey m' url') n (set_now (now s' + dt) s)
           /\ duplicate (requestKey m' url') n (elapse dt s')
              = duplicate (requestKey m' url') n s).
Proof.
  split.
  - split.
    + apply method_name_colon_inj.
    + intros [-> Hu]. unfold requestKey. rewrite Hu. reflexivity.
  - intros Hne s'.
    destruct (attempt_other_keys retryDelay debounceTime onError net
                (maxRetries - retryCount) m url cfg retryCount s _ Hne) as [H1 H2].
    fold (executeRequest maxRetries retryDelay debounceTime onError net m url cfg
            retryCount s) in H1, H2. fold s' in H1, H2.
    assert (Hl : lastRequestTime (requestKey m' url') s'
                 = lastRequestTime (requestKey m' url') s)
      by (unfold lastRequestTime; rewrite H1; reflexivity).
    assert (Hp : isPending (requestKey m' url') s' = isPending (requestKey m' url') s)
      by (unfold isPending; rewrite H2; reflexivity).
    split; [exact Hl|]. split; [exact Hp|].
    intros dt n. unfold throttled, duplicate.
    change (lastRequestTime (requestKey m' url') (elapse dt s'))
      with (lastRequestTime (requestKey m' url') s').
    change (isPending (requestKey m' url') (elapse dt s'))
      with (isPending (requestKey m' url') s').
    rewrite Hl, Hp. split; reflexivity.
Qed.

Lemma other_keys_are_left_alone_witness :
  let s' := snd (executeRequest 3 1000 1000 true down post "/api/courses/42/plan"
                   no_config 0 (init 1700000000000)) in
  lastRequestTime "get:/courses/42" s' = 0
  /\ isPending "get:/courses/42" s' = false.
Proof.
  destruct (proj2 (other_keys_are_left_alone 3 1000 1000 true down post get
                     "/api/courses/42/plan" "/api/courses/42" no_config 0
                     (init 1700000000000)) ltac:(discriminate)) as (H1 & H2 & _).
  split; [exact H1|exact H2].
Defined.

(** ** One timeout per debounce key *)

Section DebounceKeys.

Variable maxRetries : nat.
Variable retryDelay : Z.
Variable debounceTime : Z.
Variable onError : bool.
Variable net : nat -> Z * net_result.

Local Abbreviation executeRequest :=
  (executeRequest maxRetries retryDelay debounceTime onError net).
Local Abbreviation timeout_callback :=
  (timeout_callback maxRetries retryDelay debounceTime onError net).
Local Abbreviation debounce := (debounce debounceTime).
Local Abbreviation step := (step maxRetries retryDelay debounceTime onError net).
Local Abbreviation run := (run maxRetries retryDelay debounceTime onError net).

Lemma timeout_callback_frame (t : timer) (s : exec) :
  let s' := timeout_callback t s in
  timers s' = timers s /\ next_timer s' = next_timer s
  /\ next_promise s' = next_promise s /\ debounceTimers s' = debounceTimers s
  /\ exists r, promises s' = <[t_promise t := Resolved r]> (promises s).
Proof.
  intros s'. subst s'. unfold Executor.timeout_callback.
  match goal with |- context [Executor.executeRequest _ _ _ _ _ ?m ?u ?c 0 ?pre] =>
    destruct (executeRequest_frame maxRetries retryDelay debounceTime onError net
                m u c 0 pre) as (H1 & H2 & H3 & H4 & H5 & H6) end.
  cbv zeta. cbn [timers promises next_promise next_timer debounceTimers set_promises].
  rewrite H1, H2, H3, H4, H6. repeat split. eexists. reflexivity.
Qed.

(** The state after a debounced call: the timeouts kept are those not
    registered for the key, and one is added. *)
Lemma debounce_shape m url cfg (s : exec) :
  let s' := snd (debounce m url cfg s) in
  exists kept,
    (forall t, In t kept <->
       In t (timers s) /\ debounceTimers s !! requestKey m url <> Some (t_id t))
    /\ timers s'
       = kept ++ [Timer (next_timer s) (now s + debounceTime) m url cfg (next_promise s)]
    /\ promises s' = <[next_promise s := Pending]> (promises s)
    /\ next_promise s' = S (next_promise s)
    /\ next_timer s' = S (next_timer s)
    /\ debounceTimers s' = <[requestKey m url := next_timer s]> (debounceTimers s).
Proof.
  intros s'. subst s'. unfold Executor.debounce.
  destruct (debounceTimers s !! requestKey m url) as [id|] eqn:E; simpl.
  - eexists. split; [|repeat split].
    intros t. rewrite List.filter_In. split.
    + intros [Hin Hne]. split; [exact Hin|].
      intros Heq. injection Heq as ->. rewrite Nat.eqb_refl in Hne. discriminate.
    + intros [Hin Hne]. split; [exact Hin|].
      destruct (Nat.eqb (t_id t) id) eqn:Eid; [|reflexivity].
      apply Nat.eqb_eq in Eid. subst id. contradiction.
  - exists (timers s). split; [|repeat split].
    intros t. split; [intros Hin; split; [exact Hin|discriminate]|intros [Hin _]; exact Hin].
Qed.

Lemma debounce_inv_init (t0 : Z) : debounce_inv (init t0).
Proof.
  unfold debounce_inv. simpl. split; [reflexivity|].
  split; [intros t []|]. split; [intros k id H; rewrite lookup_empty in H; discriminate|].
  split; [intros k1 k2 id H; rewrite lookup_empty in H; discriminate|].
  intros t1 t2 [].
Qed.

(** Under the invariant, the timeouts a debounced call keeps are those of
    the other keys. *)
Lemma registered_iff_same_key (s : exec) (key : string) (t : timer) :
  debounce_inv s -> In t (timers s) ->
  (debounceTimers s !! key = Some (t_id t) <-> timer_key t = key).
Proof.
  intros (_ & Hb & _ & Hc & _) Hin.
  destruct (Hb t Hin) as (_ & _ & Hreg & _). split.
  - intros H. exact (Hc _ _ _ Hreg H).
  - intros <-. exact Hreg.
Qed.

Lemma debounce_inv_debounce m url cfg (s : exec) :
  debounce_inv s -> debounce_inv (snd (debounce m url cfg s)).
Proof.
  intros Hinv.
  destruct (debounce_shape m url cfg s) as (kept & Hk & Ht & Hp & Hnp & Hnt & Hd).
  pose proof Hinv as (Ha & Hb & Hlt & Hc & He).
  assert (Hkept : forall t, In t kept -> In t (timers s) /\ timer_key t <> requestKey m url).
  { intros t Hin. apply Hk in Hin as [Hin Hne]. split; [exact Hin|].
    intros Heq. apply Hne. apply (registered_iff_same_key s _ t Hinv Hin). exact Heq. }
  unfold debounce_inv. rewrite Ht, Hp, Hnp, Hnt, Hd.
  split; [rewrite Ha; reflexivity|]. split; [|split; [|split]].
  - intros t Hin. apply in_app_or in Hin as [Hin|[<-|[]]].
    + destruct (Hkept t Hin) as [Hin' Hne].
      destruct (Hb t Hin') as (H1 & H2 & H3 & H4).
      split; [exact H1|]. split; [lia|].
      split; [rewrite lookup_insert_ne by congruence; exact H3|].
      rewrite lookup_insert_ne by lia. exact H4.
    + simpl. split; [exact Ha|]. split; [lia|].
      unfold timer_key. simpl. rewrite !lookup_insert_eq. split; reflexivity.
  - intros k id H. destruct (decide (k = requestKey m url)) as [->|Hne].
    + rewrite lookup_insert_eq in H. injection H as <-. lia.
    + rewrite lookup_insert_ne in H by congruence. apply Hlt in H. lia.
  - intros k1 k2 id H1 H2.
    destruct (decide (k1 = requestKey m url)) as [->|Hne1];
      destruct (decide (k2 = requestKey m url)) as [->|Hne2]; [reflexivity| | |].
    + rewrite lookup_insert_eq in H1. injection H1 as <-.
      rewrite lookup_insert_ne in H2 by congruence. apply Hlt in H2. lia.
    + rewrite lookup_insert_eq in H2. injection H2 as <-.
      rewrite lookup_insert_ne in H1 by congruence. apply Hlt in H1. lia.
    + rewrite lookup_insert_ne in H1, H2 by congruence. exact (Hc _ _ _ H1 H2).
  - intros t1 t2 Hin1 Hin2 Hid.
    apply in_app_or in Hin1 as [Hin1|[<-|[]]]; apply in_app_or in Hin2 as [Hin2|[<-|[]]].
    + apply He; [apply Hkept, Hin1|apply Hkept, Hin2|exact Hid].
    + destruct (Hkept t1 Hin1) as [Hin1' _]. destruct (Hb t1 Hin1') as (_ & H & _).
      simpl in Hid. lia.
    + destruct (Hkept t2 Hin2) as [Hin2' _]. destruct (Hb t2 Hin2') as (_ & H & _).
      simpl in Hid. lia.
    + reflexivity.
Qed.

Lemma debounce_inv_step (e : event) (s s' : exec) :
  debounce_inv s -> step e s = Some s' -> debounce_inv s'.
Proof.
  intros Hinv Hs. destruct e as [dt|id|m url cfg|m url cfg]; simpl in Hs.
  - destruct (_ && _); inversion Hs; subst. exact Hinv.
  - destruct (List.find _ _) as [t|] eqn:Hfind; [|discriminate].
    destruct (_ && _); inversion Hs; subst; clear Hs.
    apply List.find_some in Hfind as [Hin Hid]. apply Nat.eqb_eq in Hid.
    destruct (timeout_callback_frame t (clearTimeout id s))
      as (H1 & H2 & H3 & H4 & r & H5).
    destruct Hinv as (Ha & Hb & Hlt & Hc & He).
    assert (Hsub : forall u, In u (timers (clearTimeout id s)) ->
                     In u (timers s) /\ t_id u <> id).
    { intros u Hu. simpl in Hu. apply List.filter_In in Hu as [Hu Hne].
      split; [exact Hu|]. intros Heq. rewrite Heq, Nat.eqb_refl in Hne. discriminate. }
    unfold debounce_inv. rewrite H1, H2, H3, H4, H5.
    split; [exact Ha|]. split; [|split; [exact Hlt|split; [exact Hc|]]].
    + intros u Hu. destruct (Hsub u Hu) as [Hu' Hne].
      destruct (Hb u Hu') as (P1 & P2 & P3 & P4).
      destruct (Hb t Hin) as (Q1 & _).
      split; [exact P1|]. split; [exact P2|]. split; [exact P3|].
      rewrite lookup_insert_ne by (simpl; lia). exact P4.
    + intros t1 t2 Hin1 Hin2. apply He; [apply Hsub, Hin1|apply Hsub, Hin2].
  - inversion Hs; subst. apply debounce_inv_debounce. exact Hinv.
  - inversion Hs; subst; clear Hs. unfold direct.
    destruct (executeRequest_frame maxRetries retryDelay debounceTime onError net
                m url cfg 0 s) as (H1 & H2 & H3 & H4 & H5 & H6).
    unfold debounce_inv. rewrite H1, H2, H3, H4, H6. exact Hinv.
Qed.

Lemma debounce_inv_run (evs : list event) (s s' : exec) :
  debounce_inv s -> run evs s = Some s' -> debounce_inv s'.
Proof.
  revert s. induction evs as [|e evs IH]; intros s Hinv Hrun; simpl in Hrun.
  - inversion Hrun; subst. exact Hinv.
  - destruct (step e s) as [s1|] eqn:Hstep; [|discriminate].
    apply (IH s1); [|exact Hrun]. eapply debounce_inv_step; eassumption.
Qed.

End DebounceKeys.

(** X15.  Whatever has been called on the hook since it was mounted, direct
    or debounced, and whichever timeouts have fired: at most one debounce
    timeout is pending for a key, and the promise it will resolve is still
    pending.  A further debounced call leaves the timeouts of all other keys
    in place, and the only timeout then pending for its own key is the new
    one, due [debounceTime] ms later and carrying the arguments of that
    call. *)
Theorem one_pending_timeout_per_key
    (maxRetries : nat) (retryDelay debounceTime : Z) (onError : bool)
    (net : nat -> Z * net_result) (t0 : Z) (evs : list event) (s : exec) :
  run maxRetries retryDelay debounceTime onError net evs (init t0) = Some s ->
  (forall t1 t2, In t1 (timers s) -> In t2 (timers s) ->
     timer_key t1 = timer_key t2 -> t1 = t2)
  /\ (forall t, In t (timers s) -> promises s !! t_promise t = Some Pending)
  /\ (forall m url cfg,
        let s' := snd (debounce debounceTime m url cfg s) in
        (forall t, In t (timers s) -> timer_key t <> requestKey m url -> In t (timers s'))
        /\ (forall t, In t (timers s') -> timer_key t = requestKey m url ->
              t = Timer (next_timer s) (now s + debounceTime) m url cfg (next_promise s))).
Proof.
  intros Hrun.
  pose proof (debounce_inv_run maxRetries retryDelay debounceTime onError net evs _ _
                (debounce_inv_init t0) Hrun) as Hinv.
  pose proof Hinv as (Ha & Hb & Hlt & Hc & He).
  split; [|split].
  - intros t1 t2 Hin1 Hin2 Hkey. apply He; try assumption.
    destruct (Hb t1 Hin1) as (_ & _ & H1 & _). destruct (Hb t2 Hin2) as (_ & _ & H2 & _).
    rewrite Hkey, H2 in H1. injection H1 as ->. reflexivity.
  - intros t Hin. apply (Hb t Hin).
  - intros m url cfg s'. subst s'.
    destruct (debounce_shape debounceTime m url cfg s) as (kept & Hk & Ht & _).
    rewrite Ht. split.
    + intros t Hin Hne. apply in_or_app. left. apply Hk. split; [exact Hin|].
      intros Hreg. apply Hne. apply (registered_iff_same_key s _ t Hinv Hin). exact Hreg.
    + intros t Hin Hkey. apply in_app_or in Hin as [Hin|[<-|[]]]; [|reflexivity].
      apply Hk in Hin as [Hin Hne]. exfalso. apply Hne.
      apply (registered_iff_same_key s _ t Hinv Hin). exact Hkey.
Qed.

(** A search typed twice around a save: the first search is superseded, the
    save is not. *)
Lemma one_pending_timeout_per_key_witness :
  exists s,
    run 3 1000 1000 true steady two_keys_trace (init 1700000000000) = Some s
    /\ List.map (fun t => (timer_key t, t_due t)) (timers s)
       = [("put:/lessons/7", 1700000001300); ("get:/courses?q=a", 1700000001600)]
    /\ (forall t1 t2, In t1 (timers s) -> In t2 (timers s) ->
          timer_key t1 = timer_key t2 -> t1 = t2).
Proof.
  destruct (run 3 1000 1000 true steady two_keys_trace (init 1700000000000))
    as [s|] eqn:Hrun; [|vm_compute in Hrun; discriminate].
  exists s. split; [reflexivity|]. split.
  - vm_compute in Hrun. inversion Hrun; subst. vm_compute. reflexivity.
  - exact (proj1 (one_pending_timeout_per_key 3 1000 1000 true steady 1700000000000
                    two_keys_trace s Hrun)).
Defined.

(** ** A burst of debounced calls *)

Section Burst.

Variable maxRetries : nat.
Variable retryDelay : Z.
Variable debounceTime : Z.
Variable onError : bool.
Variable net : nat -> Z * net_result.
Variable key : string.

Local Abbreviation executeRequest :=
  (executeRequest maxRetries retryDelay debounceTime onError net).
Local Abbreviation timeout_callback :=
  (timeout_callback maxRetries retryDelay debounceTime onError net).
Local Abbreviation debounce := (debounce debounceTime).
Local Abbreviation step := (step maxRetries retryDelay debounceTime onError net).
Local Abbreviation run := (run maxRetries retryDelay debounceTime onError net).
Local Abbreviation executions_for := (executions_for key).
Local Abbreviation call_to := (call_to key).
Local Abbreviation fires := (fires key).
Local Abbreviation unfired := (unfired maxRetries retryDelay debounceTime onError net key).
Local Abbreviation handed_out :=
  (handed_out maxRetries retryDelay debounceTime onError net key).
Local Abbreviation last_call_to := (last_call_to key).
Local Abbreviation burst_inv := (burst_inv key).
Local Abbreviation orphan_step :=
  (orphan_step maxRetries retryDelay debounceTime onError net).
Local Abbreviation debounce_inv_step :=
  (debounce_inv_step maxRetries retryDelay debounceTime onError net).

Ltac some_eq H :=
  match type of H with
  | Some ?a = Some ?b => assert (b = a) by congruence; subst b; clear H
  end.

Lemma call_to_Some (e : event) m url cfg :
  call_to e = Some (m, url, cfg) -> e = Debounced m url cfg /\ requestKey m url = key.
Proof.
  destruct e as [dt|id|m' url' cfg'|m' url' cfg']; try discriminate. simpl.
  destruct (String.eqb (requestKey m' url') key) eqn:E; [|discriminate].
  intros H. inversion H; subst. apply String.eqb_eq in E. auto.
Qed.

Lemma debounce_executions m url cfg (s : exec) :
  executions (snd (debounce m url cfg s)) = executions s
  /\ fst (debounce m url cfg s) = next_promise s.
Proof.
  unfold Executor.debounce.
  destruct (debounceTimers s !! requestKey m url); split; reflexivity.
Qed.

Lemma one_timer_per_key (s : exec) (t1 t2 : timer) :
  debounce_inv s -> In t1 (timers s) -> In t2 (timers s) ->
  timer_key t1 = timer_key t2 -> t1 = t2.
Proof.
  intros (_ & Hb & _ & _ & He) H1 H2 Hk. apply He; try assumption.
  destruct (Hb t1 H1) as (_ & _ & R1 & _). destruct (Hb t2 H2) as (_ & _ & R2 & _).
  rewrite Hk, R2 in R1. injection R1 as ->. reflexivity.
Qed.

Lemma executions_for_same (s s' : exec) :
  executions s' = executions s -> executions_for s' = executions_for s.
Proof. unfold Executor.executions_for. intros ->. reflexivity. Qed.

(** An event that is neither a debounced call to the key nor the firing of
    its timeout leaves the executions and the timeouts of the key as they
    are. *)
Lemma foreign_step (e : event) (s s' : exec) :
  debounce_inv s -> step e s = Some s' ->
  call_to e = None -> fires e s = false ->
  executions_for s' = executions_for s
  /\ (forall u, In u (timers s) -> timer_key u = key -> In u (timers s'))
  /\ (forall u, In u (timers s') -> timer_key u = key -> In u (timers s)).
Proof.
  intros Hinv Hs Hc Hf.
  destruct e as [dt|id|m url cfg|m url cfg]; cbn [Executor.step] in Hs.
  - destruct (_ && _); [|discriminate]. some_eq Hs.
    repeat split; auto.
  - destruct (List.find _ _) as [t|] eqn:Hfind; [|discriminate].
    destruct (_ && _); [|discriminate]. some_eq Hs.
    apply List.find_some in Hfind as [Hin Hid]. apply Nat.eqb_eq in Hid.
    assert (Hno : forall u, In u (timers s) -> t_id u = id -> timer_key u <> key).
    { intros u Hu Hidu Hk. simpl in Hf.
      assert (Hex : existsb (fun t => Nat.eqb (t_id t) id && String.eqb (timer_key t) key)
                      (timers s) = true).
      { apply existsb_exists. exists u. split; [exact Hu|].
        rewrite Hidu, Nat.eqb_refl, Hk, String.eqb_refl. reflexivity. }
      congruence. }
    destruct (timeout_callback_spec maxRetries retryDelay debounceTime onError net
                t (clearTimeout id s)) as (H1 & _ & _ & H4).
    split; [|split].
    + unfold Executor.executions_for. rewrite H4. simpl executions.
      rewrite List.filter_app. simpl.
      assert (Hk : String.eqb (requestKey (t_method t) (t_url t)) key = false).
      { apply String.eqb_neq. exact (Hno t Hin Hid). }
      rewrite Hk. apply app_nil_r.
    + intros u Hu Hk. rewrite H1. simpl. apply List.filter_In. split; [exact Hu|].
      apply negb_true_iff, Nat.eqb_neq. intros Hidu. exact (Hno u Hu Hidu Hk).
    + intros u Hu Hk. rewrite H1 in Hu. simpl in Hu.
      apply List.filter_In in Hu as [Hu _]. exact Hu.
  - some_eq Hs.
    simpl in Hc. destruct (String.eqb (requestKey m url) key) eqn:E; [discriminate|].
    apply String.eqb_neq in E.
    destruct (debounce_shape debounceTime m url cfg s) as (kept & Hk & Ht & _).
    destruct (debounce_executions m url cfg s) as [Hex _].
    split; [apply executions_for_same; exact Hex|]. split.
    + intros u Hu Hku. rewrite Ht. apply in_or_app. left. apply Hk.
      split; [exact Hu|]. intros Hreg.
      apply (registered_iff_same_key s _ u Hinv Hu) in Hreg. congruence.
    + intros u Hu Hku. rewrite Ht in Hu. apply in_app_or in Hu as [Hu|[<-|[]]].
      * apply Hk in Hu as [Hu _]. exact Hu.
      * exfalso. apply E. exact Hku.
  - some_eq Hs. unfold direct.
    destruct (executeRequest_frame maxRetries retryDelay debounceTime onError net
                m url cfg 0 s) as (H1 & _ & _ & _ & H5 & _).
    split; [apply executions_for_same; exact H5|]. rewrite H1. split; auto.
Qed.

(** A debounced call to the key arms its own timeout, the only one then
    pending for the key, and orphans the promise of the timeout it
    clears. *)
Lemma call_step m url cfg (s : exec) :
  debounce_inv s -> requestKey m url = key ->
  let s' := snd (debounce m url cfg s) in
  let t' := Timer (next_timer s) (now s + debounceTime) m url cfg (next_promise s) in
  In t' (timers s')
  /\ executions_for s' = executions_for s
  /\ (forall u, In u (timers s) -> timer_key u = key -> orphan (t_promise u) s').
Proof.
  intros Hinv Hkey s' t'. subst s' t'.
  destruct (debounce_shape debounceTime m url cfg s) as (kept & Hk & Ht & Hp & Hnp & _).
  destruct (debounce_executions m url cfg s) as [Hex _].
  pose proof Hinv as (Ha & Hb & _ & _ & He).
  split; [rewrite Ht; apply in_or_app; right; left; reflexivity|].
  split; [apply executions_for_same; exact Hex|].
  intros u Hu Hku. destruct (Hb u Hu) as (U1 & U2 & U3 & U4).
  unfold orphan. rewrite Hp, Hnp, Ht.
  split; [rewrite lookup_insert_ne by lia; exact U4|]. split; [lia|].
  apply Forall_forall. intros w Hw. apply list_elem_of_In in Hw.
  apply in_app_or in Hw as [Hw|[<-|[]]].
  - apply Hk in Hw as [Hw Hreg]. intros Heq.
    destruct (Hb w Hw) as (W1 & _).
    assert (w = u) by (apply He; [exact Hw|exact Hu|lia]). subst w.
    apply Hreg. rewrite Hkey, <- Hku. exact U3.
  - simpl. lia.
Qed.

Lemma burst_run (E0 : list (method * string * config)) (s1 : exec) :
  forall (evs : list event) (s : exec) (old : list nat) (cur : option timer),
    burst_inv E0 old cur s ->
    run evs s = Some s1 ->
    unfired evs s = true ->
    exists old' cur',
      burst_inv E0 old' cur' s1
      /\ (old ++ option_list (t_promise <$> cur)) ++ handed_out evs s
         = old' ++ option_list (t_promise <$> cur')
      /\ match last_call_to evs with
         | Some c => exists t, cur' = Some t /\ (t_method t, t_url t, t_config t) = c
         | None => cur' = cur
         end.
Proof.
  induction evs as [|e evs IH]; intros s old cur Hinv Hrun Hun.
  - simpl in Hrun. inversion Hrun; subst. exists old, cur.
    split; [exact Hinv|]. split; [simpl; apply app_nil_r|reflexivity].
  - cbn [Executor.run] in Hrun. cbn [Executor.unfired] in Hun.
    cbn [Executor.handed_out Executor.last_call_to].
    destruct (step e s) as [s'|] eqn:Hstep; [|discriminate].
    apply andb_prop in Hun as [Hf Hun]. apply negb_true_iff in Hf.
    destruct Hinv as (Hd & Hex & Hold & Hcur).
    pose proof (debounce_inv_step e s s' Hd Hstep) as Hd'.
    destruct (call_to e) as [[[m url] cfg]|] eqn:Hc.
    + destruct (call_to_Some e m url cfg Hc) as [-> Hkey].
      cbn [Executor.step] in Hstep. some_eq Hstep.
      destruct (call_step m url cfg s Hd Hkey) as (Hin & Hex' & Horph).
      destruct (debounce_executions m url cfg s) as [_ Hfst].
      set (t' := Timer (next_timer s) (now s + debounceTime) m url cfg (next_promise s))
        in *.
      assert (Hinv' : burst_inv E0 (old ++ option_list (t_promise <$> cur)) (Some t')
                        (snd (debounce m url cfg s))).
      { split; [exact Hd'|]. split; [congruence|]. split.
        - intros q Hq. apply in_app_or in Hq as [Hq|Hq].
          + exact (orphan_step q (Debounced m url cfg) s _ (Hold q Hq) eq_refl).
          + destruct cur as [t|]; [|destruct Hq]. destruct Hcur as [Hint Hkt].
            simpl in Hq. destruct Hq as [<-|[]]. apply Horph; assumption.
        - split; [exact Hin|exact Hkey]. }
      destruct (IH _ _ _ Hinv' Hrun Hun) as (old' & cur' & Hi & Hh & Hl).
      exists old', cur'. split; [exact Hi|]. split.
      * rewrite Hfst. rewrite <- Hh. simpl. rewrite <- !app_assoc. reflexivity.
      * destruct (last_call_to evs) as [c|]; [exact Hl|].
        exists t'. split; [exact Hl|reflexivity].
    + destruct (foreign_step e s s' Hd Hstep Hc Hf) as (Hex' & Hkeep & _).
      assert (Hinv' : burst_inv E0 old cur s').
      { split; [exact Hd'|]. split; [congruence|]. split.
        - intros q Hq. eapply orphan_step; [apply Hold; exact Hq|exact Hstep].
        - destruct cur as [t|]; [|exact I]. destruct Hcur as [Hint Hkt].
          split; [apply Hkeep; assumption|exact Hkt]. }
      destruct (IH _ _ _ Hinv' Hrun Hun) as (old' & cur' & Hi & Hh & Hl).
      exists old', cur'. split; [exact Hi|]. split; [exact Hh|].
      destruct (last_call_to evs) as [c|]; exact Hl.
Qed.

(** With no timeout pending for the key, nothing is executed for it until
    it is called again. *)
Lemma quiet_key_run (evs : list event) :
  forall (s s' : exec),
    debounce_inv s ->
    (forall u, In u (timers s) -> timer_key u <> key) ->
    forallb (fun e => match call_to e with Some _ => false | None => true end) evs = true ->
    run evs s = Some s' ->
    executions_for s' = executions_for s.
Proof.
  induction evs as [|e evs IH]; intros s s' Hd Hno Hall Hrun; simpl in Hrun.
  - inversion Hrun; reflexivity.
  - destruct (step e s) as [s1|] eqn:Hstep; [|discriminate].
    simpl in Hall. apply andb_prop in Hall as [Hc Hall].
    destruct (call_to e) eqn:Ec; [discriminate|].
    assert (Hf : fires e s = false).
    { destruct e as [dt|id|m url cfg|m url cfg]; try reflexivity. simpl.
      destruct (existsb _ _) eqn:Ex; [|reflexivity].
      apply existsb_exists in Ex as (u & Hu & Hb).
      apply andb_prop in Hb as [_ Hk]. apply String.eqb_eq in Hk.
      exfalso. exact (Hno u Hu Hk). }
    destruct (foreign_step e s s1 Hd Hstep Ec Hf) as (Hex & _ & Hback).
    rewrite (IH s1 s' (debounce_inv_step e s s1 Hd Hstep)
               ltac:(intros u Hu Hk; exact (Hno u (Hback u Hu Hk) Hk)) Hall Hrun).
    exact Hex.
Qed.

End Burst.



End ExecutorFacts.
